(** * ascii-zoo: the physics and interaction engine

    A shallow embedding of [game/animal.py], [game/collision.py],
    [game/movement.py] and the simulation loop of [game/engine.py].

    Numbers that Python keeps as floats (velocities, forces, masses, health)
    are real numbers here: every statement below is about exact arithmetic,
    which is what the phrase "within floating tolerance" of the specification
    abstracts from.  Division of reals is total ([x / 0 = 0]) where numpy
    yields [nan] or [inf]: a statement about a quotient carries the
    hypothesis that the divisor is not zero.  Pixel coordinates
    ([pygame.Rect]) are integers.  Animals
    are Python objects with identity; they live in a store indexed by
    identifiers, and groups, prey sets and the focus hold identifiers. *)

From Stdlib Require Import Reals Lra Lia ZArith List Permutation Psatz String.
From Equations Require Import Equations.
From stdpp Require Import gmap list functions sorting.

#[local] Set Warnings "-clear-no-such-hyp".
Local Open Scope R_scope.

(** ** Exceptions and results *)

Inductive Exn : Type :=
| ValueError (msg : string)
| LinAlgError.

Inductive result (A : Type) : Type :=
| Ok (a : A)
| Raise (e : Exn).
Arguments Ok {A} a.
Arguments Raise {A} e.

(** ** Two-dimensional numpy arrays *)

Module Vec.

Definition Vec : Type := (R * R)%type.
Definition Mat : Type := (Vec * Vec)%type.

Definition add (a b : Vec) : Vec := (fst a + fst b, snd a + snd b).
Definition sub (a b : Vec) : Vec := (fst a - fst b, snd a - snd b).
Definition neg (a : Vec) : Vec := (- fst a, - snd a).
(** [a * k] and [a / k] for an array [a] and a scalar [k]. *)
Definition scale (a : Vec) (k : R) : Vec := (fst a * k, snd a * k).
Definition div (a : Vec) (k : R) : Vec := (fst a / k, snd a / k).
Definition inner (a b : Vec) : R := fst a * fst b + snd a * snd b.
(** [np.linalg.norm] *)
Definition norm (a : Vec) : R := sqrt (fst a * fst a + snd a * snd a).
(** The direction at a right angle to [a] (a quarter turn). *)
Definition perp (a : Vec) : Vec := (- snd a, fst a).
Definition of_Z (p : Z * Z) : Vec := (IZR (fst p), IZR (snd p)).

(** [m.dot(v)] for a 2x2 matrix given by its rows. *)
Definition dot (m : Mat) (v : Vec) : Vec :=
  (fst (fst m) * fst v + snd (fst m) * snd v,
   fst (snd m) * fst v + snd (snd m) * snd v).
Definition det (m : Mat) : R :=
  fst (fst m) * snd (snd m) - snd (fst m) * fst (snd m).
(** [np.linalg.inv]: the adjugate over the determinant; a singular matrix
    raises [LinAlgError]. *)
Definition inv (m : Mat) : result Mat :=
  if Req_dec_T (det m) 0 then Raise LinAlgError
  else Ok ((snd (snd m) / det m, - snd (fst m) / det m),
           (- fst (snd m) / det m, fst (fst m) / det m)).

End Vec.
Import Vec.

(** [np.floor] and [np.ceil] *)
Definition np_floor (r : R) : Z := (up r - 1)%Z.
Definition np_ceil (r : R) : Z := (- np_floor (- r))%Z.

(** [int(x)]: truncation toward zero. *)
Definition py_int (r : R) : Z := if Rle_dec 0 r then np_floor r else np_ceil r.

Definition Rleb (x y : R) : bool := if Rle_dec x y then true else false.

(** [list.sort(key=...)] is a stable sort: among equal keys the order of the
    input is kept.  Insertion from the right realises it. *)
Fixpoint insert_by {A : Type} (key : A -> R) (x : A) (l : list A) : list A :=
  match l with
  | [] => [x]
  | y :: l' => if Rle_dec (key x) (key y) then x :: y :: l'
               else y :: insert_by key x l'
  end.

Fixpoint sort_by {A : Type} (key : A -> R) (l : list A) : list A :=
  match l with
  | [] => []
  | x :: l' => insert_by key x (sort_by key l')
  end.

(** ** Mutable state and exceptions

    A Python method reads and writes the heap and may raise.  A raised
    exception keeps the writes made before it. *)

Definition M (S A : Type) : Type := S -> S * result A.

Definition ret {S A : Type} (a : A) : M S A := fun s => (s, Ok a).
Definition raise {S A : Type} (e : Exn) : M S A := fun s => (s, Raise e).
Definition bind {S A B : Type} (m : M S A) (k : A -> M S B) : M S B :=
  fun s => match m s with
           | (s', Ok a) => k a s'
           | (s', Raise e) => (s', Raise e)
           end.
Definition get {S : Type} : M S S := fun s => (s, Ok s).
Definition modify {S : Type} (f : S -> S) : M S unit := fun s => (f s, Ok tt).

Notation "x <- c ;; k" := (bind c (fun x => k))
  (at level 100, c at next level, right associativity).
Notation "c ;; k" := (bind c (fun _ => k))
  (at level 100, right associativity).

(** [for x in l: body(x)] *)
Fixpoint for_each {S A : Type} (l : list A) (body : A -> M S unit) : M S unit :=
  match l with
  | [] => ret tt
  | x :: l' => body x ;; for_each l' body
  end.

(** ** animal.py *)

(** The identity of an animal object. *)
Abbreviation Ident := nat.

Module HealthBar.

Record t : Type := mk { max_health : R; current_health : R }.

Definition init (max_health : R) : t :=
  {| max_health := max_health; current_health := max_health |}.

Definition is_dead (self : t) : bool := Rleb (current_health self) 0.

(** The redrawing done by [update] is a function of the two fields and is
    not part of the state. *)
Definition reduce_health (amount : R) (self : t) : t :=
  {| max_health := max_health self;
     current_health := current_health self - amount |}.

End HealthBar.

Module AnimalImage.

Record t : Type := mk {
  health_bar : HealthBar.t;
  num_death_frames : Z;
  death_frames_executed : Z }.

Definition init (max_health : R) : t :=
  {| health_bar := HealthBar.init max_health;
     num_death_frames := 20;
     death_frames_executed := 0 |}.

Definition death_animation_finished (self : t) : bool :=
  (num_death_frames self <? death_frames_executed self)%Z.

Definition update (self : t) : t :=
  if HealthBar.is_dead (health_bar self) then
    {| health_bar := health_bar self;
       num_death_frames := num_death_frames self;
       death_frames_executed := (death_frames_executed self + 1)%Z |}
  else self.

Definition with_health_bar (h : HealthBar.t) (self : t) : t :=
  {| health_bar := h;
     num_death_frames := num_death_frames self;
     death_frames_executed := death_frames_executed self |}.

(** The zoom factor, the rotation (in degrees) and the opacity with which
    the image is drawn. *)
Definition scale (self : t) : R := IZR (death_frames_executed self) / 10 + 1.
Definition angle (self : t) : Z := (death_frames_executed self * 10)%Z.
Definition alpha (self : t) : R :=
  256 - IZR (death_frames_executed self) / IZR (num_death_frames self) * 256.

End AnimalImage.

(** [pygame.Rect], by its centre and its size. *)
Record Rect : Type := mkRect { center : Z * Z; width : Z; height : Z }.

Record Animal : Type := mkAnimal {
  eats : gset Ident;
  animal_image : AnimalImage.t;
  rect : Rect;
  radius : Z;
  _velocity : Vec;
  max_speed : R;
  damage_infliction_magnitude : R;
  mass : R;
  propulsion_force_magnitude : R;
  slow_down_force_magnitude : R;
  propulsion_force : Vec;
  slow_down_force : Vec;
  _subject_animal : option Ident }.

(** Field assignments. *)
Definition with_eats (s : gset Ident) (a : Animal) : Animal :=
  mkAnimal s (animal_image a) (rect a) (radius a) (_velocity a) (max_speed a)
    (damage_infliction_magnitude a) (mass a) (propulsion_force_magnitude a)
    (slow_down_force_magnitude a) (propulsion_force a) (slow_down_force a)
    (_subject_animal a).
Definition with_animal_image (i : AnimalImage.t) (a : Animal) : Animal :=
  mkAnimal (eats a) i (rect a) (radius a) (_velocity a) (max_speed a)
    (damage_infliction_magnitude a) (mass a) (propulsion_force_magnitude a)
    (slow_down_force_magnitude a) (propulsion_force a) (slow_down_force a)
    (_subject_animal a).
Definition with_rect_center (c : Z * Z) (a : Animal) : Animal :=
  mkAnimal (eats a) (animal_image a)
    (mkRect c (width (rect a)) (height (rect a))) (radius a) (_velocity a)
    (max_speed a) (damage_infliction_magnitude a) (mass a)
    (propulsion_force_magnitude a) (slow_down_force_magnitude a)
    (propulsion_force a) (slow_down_force a) (_subject_animal a).
Definition with_velocity (v : Vec) (a : Animal) : Animal :=
  mkAnimal (eats a) (animal_image a) (rect a) (radius a) v (max_speed a)
    (damage_infliction_magnitude a) (mass a) (propulsion_force_magnitude a)
    (slow_down_force_magnitude a) (propulsion_force a) (slow_down_force a)
    (_subject_animal a).
Definition with_propulsion_force (f : Vec) (a : Animal) : Animal :=
  mkAnimal (eats a) (animal_image a) (rect a) (radius a) (_velocity a)
    (max_speed a) (damage_infliction_magnitude a) (mass a)
    (propulsion_force_magnitude a) (slow_down_force_magnitude a) f
    (slow_down_force a) (_subject_animal a).
Definition with_slow_down_force (f : Vec) (a : Animal) : Animal :=
  mkAnimal (eats a) (animal_image a) (rect a) (radius a) (_velocity a)
    (max_speed a) (damage_infliction_magnitude a) (mass a)
    (propulsion_force_magnitude a) (slow_down_force_magnitude a)
    (propulsion_force a) f (_subject_animal a).
Definition with_subject_animal (o : option Ident) (a : Animal) : Animal :=
  mkAnimal (eats a) (animal_image a) (rect a) (radius a) (_velocity a)
    (max_speed a) (damage_infliction_magnitude a) (mass a)
    (propulsion_force_magnitude a) (slow_down_force_magnitude a)
    (propulsion_force a) (slow_down_force a) o.

(** The heap: every identifier denotes an animal object. *)
Abbreviation World := (Ident -> Animal).

(** [self.<field> = ...] on the object [self]. *)
Definition assign (self : Ident) (f : Animal -> Animal) : M World unit :=
  modify (fun w : World => <[self := f (w self)]> w).

Definition lift_result {S A : Type} (r : result A) : M S A := fun s => (s, r).

Definition position (self : Animal) : Z * Z := center (rect self).
(** [self.velocity] (the getter) is the field [_velocity]. *)
Definition speed (self : Animal) : R := norm (_velocity self).
Definition is_dead (self : Animal) : bool :=
  HealthBar.is_dead (AnimalImage.health_bar (animal_image self)).
Definition health (self : Animal) : R :=
  HealthBar.current_health (AnimalImage.health_bar (animal_image self)).
Definition death_animation_finished (self : Animal) : bool :=
  AnimalImage.death_animation_finished (animal_image self).

Definition wants_to_eat (self : Animal) (animal : Ident) : bool :=
  bool_decide (animal ∈ eats self).

Definition also_likes_to_eat (self : Ident) (animals : list Ident)
  : M World unit :=
  for_each animals (fun animal =>
    (if decide (animal = self)
     then raise (ValueError "Animals shouldn't want to eat themselves!")
     else ret tt) ;;
    assign self (fun a => with_eats (eats a ∪ {[animal]}) a)).

Definition reduce_health (self : Ident) (amount : R) : M World unit :=
  assign self (fun a =>
    with_animal_image
      (AnimalImage.with_health_bar
         (HealthBar.reduce_health amount (AnimalImage.health_bar (animal_image a)))
         (animal_image a)) a).

Definition inflict_damage (self animal : Ident) : M World unit :=
  w <- get ;;
  reduce_health animal (damage_infliction_magnitude (w self)).

(** [np.array_equal(self.position, animal.position)] *)
Definition on_top (self animal : Animal) : bool :=
  bool_decide (position self = position animal).

Definition vector_to (self animal : Animal) : Z * Z :=
  (fst (position animal) - fst (position self),
   snd (position animal) - snd (position self))%Z.

Definition distance_to (self animal : Animal) : R :=
  norm (of_Z (vector_to self animal)).

Definition normalized_vector_to (self animal : Animal) : result Vec :=
  let vector := of_Z (vector_to self animal) in
  let distance := distance_to self animal in
  if Req_dec_T distance 0 then
    Raise (ValueError "Can't calculate the direction vector pointing toward the other animal when the other animal is exactly on top of this one.")
  else Ok (div vector distance).

(** The setter of [subject_animal]. *)
Definition set_subject_animal (self : Ident) (animal : option Ident)
  : M World unit :=
  assign self (with_subject_animal animal) ;;
  w <- get ;;
  match animal with
  | None => assign self (with_propulsion_force (0, 0))
  | Some animal =>
      if on_top (w self) (w animal) then
        assign self (with_propulsion_force (0, 0))
      else if wants_to_eat (w self) animal then
        d <- lift_result (normalized_vector_to (w self) (w animal)) ;;
        assign self
          (with_propulsion_force (scale d (propulsion_force_magnitude (w self))))
      else if wants_to_eat (w animal) self then
        d <- lift_result (normalized_vector_to (w self) (w animal)) ;;
        assign self
          (with_propulsion_force
             (scale (neg d) (propulsion_force_magnitude (w self))))
      else
        raise (ValueError "The given subject animal is neither prey nor hunter, this is probably a bug.")
  end.

(** The setter of [velocity]: the brake is decided by the speed held before
    the assignment. *)
Definition set_velocity (self : Ident) (velocity : Vec) : M World unit :=
  w <- get ;;
  (if Rlt_dec (max_speed (w self)) (speed (w self)) then
     assign self
       (with_slow_down_force
          (scale (div (neg (_velocity (w self))) (speed (w self)))
             (slow_down_force_magnitude (w self))))
   else assign self (with_slow_down_force (0, 0))) ;;
  assign self (with_velocity velocity).

Record Screen : Type := mkScreen { get_width : Z; get_height : Z }.

Definition off_screen (self : Animal) (screen : Screen) : bool :=
  (fst (position self) <? - width (rect self))%Z
  || (snd (position self) <? - height (rect self))%Z
  || (get_width screen + width (rect self) <? fst (position self))%Z
  || (get_height screen + height (rect self) <? snd (position self))%Z.

(** ** collision.py *)

Record Collision : Type := mkCollision { animal1 : Ident; animal2 : Ident }.

Definition injure_animals_if_prey (self : Collision) : M World unit :=
  w <- get ;;
  (if wants_to_eat (w (animal1 self)) (animal2 self)
   then inflict_damage (animal1 self) (animal2 self) else ret tt) ;;
  w <- get ;;
  (if wants_to_eat (w (animal2 self)) (animal1 self)
   then inflict_damage (animal2 self) (animal1 self) else ret tt).

Definition animals_were_injured (self : Collision) (w : World) : bool :=
  wants_to_eat (w (animal1 self)) (animal2 self)
  || wants_to_eat (w (animal2 self)) (animal1 self).

(** ** engine.py: walls *)

Module Wall.

(** The line equation is applied to [animal.position + animal.radius], an
    integer array. *)
Record t : Type := mk { normal : Vec; implicit_line_equation : Z * Z -> Z }.

Definition init (normal : Vec) (implicit_line_equation : Z * Z -> Z) : t :=
  {| normal := div normal (norm normal);
     implicit_line_equation := implicit_line_equation |}.

Definition distance_to (self : t) (animal : Animal) : Z :=
  implicit_line_equation self
    (fst (position animal) + radius animal,
     snd (position animal) + radius animal)%Z.

End Wall.

Module GameBoard.

Record t : Type := mk { screen : Screen; walls : list (string * Wall.t) }.

Definition init (screen : Screen) : t :=
  {| screen := screen;
     walls :=
       [ ("top"%string, Wall.init (0, 1) (fun pos => snd pos - 35)%Z);
         ("left"%string, Wall.init (1, 0) (fun pos => fst pos - 30)%Z);
         ("bottom"%string,
           Wall.init (0, -1) (fun pos => get_height screen - snd pos - 4)%Z);
         ("right"%string,
           Wall.init (-1, 0) (fun pos => get_width screen - fst pos - 30)%Z) ] |}.

Fixpoint first_breached (walls : list (string * Wall.t)) (animal : Animal)
  : option Wall.t :=
  match walls with
  | [] => None
  | (name, wall) :: rest =>
      if (Wall.distance_to wall animal <? 0)%Z then Some wall
      else first_breached rest animal
  end.

Definition collided_with_wall (self : t) (animal : Animal) : option Wall.t :=
  first_breached (walls self) animal.

End GameBoard.

(** ** movement.py: the elastic collision formula *)

Definition collide (center_to_center v1 v2 : Vec) (m1 m2 : R)
  : result (Vec * Vec) :=
  if Req_dec_T (norm center_to_center) 0 then
    Raise (ValueError "Center to center distance for the collision is zero. There's no way to determine the directionality of the collision when the two masses are exactly on top of each other.")
  else
    let phi := acos (fst center_to_center / norm center_to_center) in
    let rotation_matrix : Mat := ((cos phi, sin phi), (- sin phi, cos phi)) in
    let v1 := dot rotation_matrix v1 in
    let v2 := dot rotation_matrix v2 in
    let u1x := ((m1 - m2) * fst v1 + (m2 + m2) * fst v2) / (m1 + m2) in
    let u2x := ((m1 + m1) * fst v1 + (m2 - m1) * fst v2) / (m1 + m2) in
    let u1 := (u1x, snd v1) in
    let u2 := (u2x, snd v2) in
    match inv rotation_matrix with
    | Raise e => Raise e
    | Ok rotation_matrix_inverse =>
        Ok (dot rotation_matrix_inverse u1, dot rotation_matrix_inverse u2)
    end.


(** ** pygame.sprite.Group: an insertion-ordered collection without
    duplicates *)

Abbreviation Group := (list Ident).
Definition group_add (g : Group) (x : Ident) : Group :=
  if decide (x ∈ g) then g else g ++ [x].
Definition group_remove (g : Group) (x : Ident) : Group :=
  filter (fun y => y <> x) g.

Definition snap_to_grid_in_direction (p1 direction : Vec) : Vec :=
  (IZR (if Rlt_dec 0 (fst direction) then np_ceil (fst p1) else np_floor (fst p1)),
   IZR (if Rlt_dec 0 (snd direction) then np_ceil (snd p1) else np_floor (snd p1))).

(** The wall is much heavier than the animal. *)
Definition wall_mass : R := 10 ^ 15.

Record Engine : Type := mkEngine {
  screen : Screen;
  live_animals : Group;
  dying_animals : Group;
  _play_death_sound : bool;
  _play_collision_sound : bool }.

(** The state of a running simulation: the heap of animals and the engine
    object. *)
Record Sim : Type := mkSim { heap : World; engine : Engine }.

Definition on_heap {A : Type} (m : M World A) : M Sim A :=
  fun s => let (w', r) := m (heap s) in (mkSim w' (engine s), r).
Definition on_engine (f : Engine -> Engine) : M Sim unit :=
  modify (fun s => mkSim (heap s) (f (engine s))).

Definition delayed_death_sound : M Sim unit :=
  on_engine (fun e => mkEngine (screen e) (live_animals e) (dying_animals e)
                        true (_play_collision_sound e)).
Definition delayed_collision_sound : M Sim unit :=
  on_engine (fun e => mkEngine (screen e) (live_animals e) (dying_animals e)
                        (_play_death_sound e) true).

(** Returns the sounds played (death, collision) and resets the flags. *)
Definition play_delayed_sounds : M Sim (bool * bool) :=
  s <- get ;;
  on_engine (fun e => mkEngine (screen e) (live_animals e) (dying_animals e)
                        false false) ;;
  ret (_play_death_sound (engine s), _play_collision_sound (engine s)).

Definition all_animals (self : Engine) : Group :=
  fold_left group_add (dying_animals self)
    (fold_left group_add (live_animals self) []).

Definition remove_animal (animal : Ident) : M Sim unit :=
  on_engine (fun e => mkEngine (screen e) (group_remove (live_animals e) animal)
                        (group_remove (dying_animals e) animal)
                        (_play_death_sound e) (_play_collision_sound e)).

Definition kill_animal (animal : Ident) : M Sim unit :=
  on_engine (fun e => mkEngine (screen e) (group_remove (live_animals e) animal)
                        (group_add (dying_animals e) animal)
                        (_play_death_sound e) (_play_collision_sound e)).

Definition add_animals (animals : list Ident) : M Sim unit :=
  for_each animals (fun animal =>
    s <- get ;;
    if is_dead (heap s animal) then
      on_engine (fun e => mkEngine (screen e) (live_animals e)
                            (group_add (dying_animals e) animal)
                            (_play_death_sound e) (_play_collision_sound e))
    else
      on_engine (fun e => mkEngine (screen e) (group_add (live_animals e) animal)
                            (dying_animals e)
                            (_play_death_sound e) (_play_collision_sound e))).

Fixpoint no_subject_animal (w : World) (animals : list Ident) : bool :=
  match animals with
  | [] => true
  | animal :: rest =>
      match _subject_animal (w animal) with
      | Some _ => false
      | None => no_subject_animal w rest
      end
  end.

Definition simulation_completed (w : World) (animals : Group) : bool :=
  if (length animals =? 0)%nat then true else no_subject_animal w animals.

(** ** movement.py and the simulation loop of engine.py *)

Section Simulation.

(** The functions of pygame and of Python that the code calls: the circle
    test [pygame.sprite.collide_circle], the conversion of a float to a pixel
    coordinate done by [pygame.Rect], and the order in which a [set] is
    iterated. *)
Variable collide_circle : Animal -> Animal -> bool.
Variable rect_coord : R -> Z.
Variable set_order : gset Ident -> list Ident.

(** The setter of [position]: [self.rect.center = value]. *)
Definition set_position (self : Ident) (value : Vec) : M World unit :=
  assign self (with_rect_center (rect_coord (fst value), rect_coord (snd value))).

Definition put (self : Ident) (x y : R) : M World unit :=
  set_position self (x, y).

Definition put_relative (self : Ident) (x_relative_position y_relative_position : R)
    (screen : Screen) : M World unit :=
  set_position self (IZR (get_width screen) * x_relative_position / 100,
                     IZR (get_height screen) * y_relative_position / 100).

Definition update_subject_animal (self : Ident) (animal_group : Group)
  : M World unit :=
  assign self (fun a => with_eats (eats a ∩ list_to_set animal_group) a) ;;
  set_subject_animal self None ;;
  w <- get ;;
  if is_dead (w self) then ret tt
  else
    let animals :=
      sort_by (fun x => distance_to (w self) (w x)) (set_order (eats (w self))) in
    match animals with
    | [] => ret tt
    | animal :: _ => set_subject_animal self (Some animal)
    end.

Definition update_position (self : Ident) (time_step : R) : M World unit :=
  w <- get ;;
  let acceleration :=
    div (add (propulsion_force (w self)) (slow_down_force (w self)))
      (mass (w self)) in
  set_velocity self (add (_velocity (w self)) (scale acceleration time_step)) ;;
  w <- get ;;
  set_position self
    (add (of_Z (position (w self))) (scale (_velocity (w self)) time_step)).

(** The first collision found between [animal] and the group. *)
Fixpoint find_collision (w : World) (animal : Ident) (animal_group : Group)
  : option Collision :=
  match animal_group with
  | [] => None
  | other_animal :: rest =>
      if collide_circle (w animal) (w other_animal)
      then Some (mkCollision animal other_animal)
      else find_collision w animal rest
  end.

(** The [while animal_group:] loop of [find_collisions]. *)
Equations? find_collisions_loop (w : World) (animal_group : Group)
    (collisions : list Collision) : list Collision
    by wf (length animal_group) lt :=
  find_collisions_loop w [] collisions := collisions;
  find_collisions_loop w (animal :: rest) collisions
    with find_collision w animal (group_remove (animal :: rest) animal) => {
    | Some collision :=
        find_collisions_loop w
          (group_remove
             (group_remove (group_remove (animal :: rest) animal)
                (animal1 collision))
             (animal2 collision))
          (collisions ++ [collision]);
    | None :=
        find_collisions_loop w (group_remove (animal :: rest) animal)
          collisions }.
Proof.
  all: unfold group_remove;
    assert (Hhead : (length (filter (fun y => y <> animal) (animal :: rest))
                     <= length rest)%nat)
      by (rewrite filter_cons_False by (intros Hne; apply Hne; reflexivity);
          apply length_filter).
  - pose proof (length_filter (fun y => y <> animal2 collision)
      (filter (fun y => y <> animal1 collision)
         (filter (fun y => y <> animal) (animal :: rest)))) as H2.
    pose proof (length_filter (fun y => y <> animal1 collision)
      (filter (fun y => y <> animal) (animal :: rest))) as H1.
    change (length (animal :: rest)) with (S (length rest)) in *. lia.
  - change (length (animal :: rest)) with (S (length rest)) in *. lia.
Qed.

Definition find_collisions (w : World) (animal_group : Group)
  : list Collision :=
  find_collisions_loop w animal_group [].

Definition collide_animal_into_wall (animal : Ident) (wall : Wall.t)
  : M World unit :=
  w <- get ;;
  let distance := Wall.distance_to wall (w animal) in
  (if (distance <? 0)%Z then
     let position :=
       add (of_Z (position (w animal)))
         (scale (Wall.normal wall) (IZR (Z.abs distance))) in
     set_position animal (snap_to_grid_in_direction position (Wall.normal wall))
   else ret tt) ;;
  w <- get ;;
  us <- lift_result
          (collide (Wall.normal wall) (_velocity (w animal)) (0, 0) 1 wall_mass) ;;
  set_velocity animal (fst us).

Definition collide_animals (animal other_animal : Ident) : M World unit :=
  w <- get ;;
  let distance := distance_to (w animal) (w other_animal) in
  if Req_dec_T distance 0 then ret tt
  else
    center_to_center <-
      lift_result (normalized_vector_to (w animal) (w other_animal)) ;;
    (if Rlt_dec distance (IZR (radius (w animal) + radius (w other_animal))) then
       let too_close_by :=
         py_int (IZR (np_ceil
           (IZR (radius (w animal) + radius (w other_animal)) - distance))) in
       let p1 := sub (of_Z (position (w animal)))
                   (div (scale center_to_center (IZR too_close_by)) 2) in
       let p2 := add (of_Z (position (w other_animal)))
                   (div (scale center_to_center (IZR too_close_by)) 2) in
       set_position animal
         (snap_to_grid_in_direction p1 (neg center_to_center)) ;;
       set_position other_animal
         (snap_to_grid_in_direction p2 center_to_center)
     else ret tt) ;;
    w <- get ;;
    us <- lift_result
            (collide center_to_center (_velocity (w animal))
               (_velocity (w other_animal)) (mass (w animal))
               (mass (w other_animal))) ;;
    set_velocity animal (fst us) ;;
    set_velocity other_animal (snd us).

(** *** One iteration of the loop of [Engine.start]

    Drawing, the clock and the event queue are left out. *)

Definition time_step : R := 3 / 10.

Definition collisions_phase : M Sim unit :=
  s <- get ;;
  for_each (find_collisions (heap s) (live_animals (engine s)))
    (fun collision =>
       on_heap (collide_animals (animal1 collision) (animal2 collision)) ;;
       on_heap (injure_animals_if_prey collision) ;;
       s <- get ;;
       if animals_were_injured collision (heap s)
       then delayed_collision_sound else ret tt).

(** [find_wall_collisions] is a generator: the wall of an animal is looked
    up when the loop reaches that animal. *)
Definition wall_collisions_phase (gameboard : GameBoard.t) : M Sim unit :=
  s <- get ;;
  for_each (live_animals (engine s))
    (fun animal =>
       s <- get ;;
       match GameBoard.collided_with_wall gameboard (heap s animal) with
       | Some wall => on_heap (collide_animal_into_wall animal wall)
       | None => ret tt
       end).

(** The body of the loop that starts the death of the animals whose
    health has run out. *)
Definition kill_if_dead (animal : Ident) : M Sim unit :=
  s <- get ;;
  if is_dead (heap s animal) then
    on_heap (set_velocity animal
               (scale (div (_velocity (heap s animal)) (speed (heap s animal)))
                  200)) ;;
    kill_animal animal ;;
    delayed_death_sound
  else ret tt.

Definition death_phase : M Sim unit :=
  s <- get ;;
  for_each (live_animals (engine s)) kill_if_dead.

Definition removal_phase : M Sim unit :=
  s <- get ;;
  for_each (dying_animals (engine s))
    (fun animal =>
       s <- get ;;
       if death_animation_finished (heap s animal)
          || off_screen (heap s animal) (screen (engine s))
       then remove_animal animal else ret tt).

(** The body of the loop that updates every animal. *)
Definition update_animal (animal : Ident) : M Sim unit :=
  s <- get ;;
  on_heap (update_subject_animal animal (live_animals (engine s))) ;;
  on_heap (update_position animal time_step) ;;
  on_heap (assign animal
             (fun a => with_animal_image (AnimalImage.update (animal_image a)) a)).

Definition update_phase : M Sim unit :=
  s <- get ;;
  for_each (all_animals (engine s)) update_animal.

(** Returns whether the simulation is completed and the sounds played. *)
Definition tick : M Sim (bool * (bool * bool)) :=
  s <- get ;;
  let gameboard := GameBoard.init (screen (engine s)) in
  collisions_phase ;;
  wall_collisions_phase gameboard ;;
  death_phase ;;
  removal_phase ;;
  update_phase ;;
  s <- get ;;
  let completed := simulation_completed (heap s) (all_animals (engine s)) in
  sounds <- play_delayed_sounds ;;
  ret (completed, sounds).

End Simulation.

(** * Instances of the parameters, vocabulary and scenarios *)

(** ** The library functions the code calls

    [pygame.sprite.collide_circle], the conversion of a float to a pixel
    coordinate done by [pygame.Rect], and the order in which a Python [set]
    is iterated are not code of this repository: the simulation above takes
    them as parameters.  The following instances are used to run it. *)

(** The circle test of pygame: squared distance of the centres against the
    squared sum of the radii. *)
Definition circles_touch (left right : Animal) : bool :=
  let xdistance := (fst (position left) - fst (position right))%Z in
  let ydistance := (snd (position left) - snd (position right))%Z in
  (xdistance * xdistance + ydistance * ydistance
     <=? (radius left + radius right) * (radius left + radius right))%Z.

(** Truncation of a float coordinate. *)
Definition truncate_coord (r : R) : Z := py_int r.

(** Two iteration orders of a set: by increasing and by decreasing
    identifier. *)
Definition increasing_order (s : gset Ident) : list Ident :=
  merge_sort Nat.le (elements s).
Definition decreasing_order (s : gset Ident) : list Ident :=
  reverse (merge_sort Nat.le (elements s)).

(** ** Construction

    [Animal.__init__], given the size of the rendered shape.  No call in the
    repository passes [eats]: every animal starts with a fresh empty set. *)

Definition Animal_init (shape_width shape_height : Z)
    (max_health max_speed mass exertion_magnitude damage_infliction_magnitude : R)
  : Animal :=
  {| eats := ∅;
     animal_image := AnimalImage.init max_health;
     rect := mkRect (shape_width / 2, shape_height / 2)%Z shape_width shape_height;
     radius := Z.min shape_width shape_height;
     _velocity := (0, 0);
     max_speed := max_speed;
     damage_infliction_magnitude := damage_infliction_magnitude;
     mass := mass;
     propulsion_force_magnitude := exertion_magnitude;
     slow_down_force_magnitude := exertion_magnitude;
     propulsion_force := (0, 0);
     slow_down_force := (0, 0);
     _subject_animal := None |}.

(** A heap in which every cell holds a freshly built animal with a 4x4 shape
    and the default arguments of [__init__], but for [max_health = 2]. *)
Definition fresh_world : World := fun _ => Animal_init 4 4 2 50 1 20 1.

(** ** Vocabulary of the statements *)

(** The sum of a sequence of damage amounts. *)
Definition total (amounts : list R) : R := fold_right Rplus 0 amounts.

(** The maximal health of an animal, and the assignment of its current
    health alone. *)
Definition max_health (self : Animal) : R :=
  HealthBar.max_health (AnimalImage.health_bar (animal_image self)).
Definition with_health (h : R) (a : Animal) : Animal :=
  with_animal_image
    (AnimalImage.with_health_bar (HealthBar.mk (max_health a) h) (animal_image a)) a.

(** The animals named by a list of collisions. *)
Definition collision_animals (collisions : list Collision) : list Ident :=
  flat_map (fun c => [animal1 c; animal2 c]) collisions.

(** The axis along which [collide] exchanges momentum: the unit vector of
    [center_to_center] with the sign of its second coordinate dropped. *)
Definition used_axis (center_to_center : Vec) : Vec :=
  (fst center_to_center / norm center_to_center,
   Rabs (snd center_to_center) / norm center_to_center).

(** The first element of a list among those of least key. *)
Fixpoint first_nearest {A : Type} (key : A -> R) (l : list A) : option A :=
  match l with
  | [] => None
  | x :: l' =>
      match first_nearest key l' with
      | None => Some x
      | Some m => if Rle_dec (key x) (key m) then Some x else Some m
      end
  end.

(** The focus in the words of the specification: none for a dead animal;
    otherwise the nearest member of the prey set present in the population,
    ties broken by the iteration order of the population. *)
Definition focus_by_population_order (w : World) (self : Ident)
    (population : Group) : option Ident :=
  if is_dead (w self) then None
  else first_nearest (fun x => distance_to (w self) (w x))
         (filter (fun x => x ∈ eats (w self)) population).

(** What one method call does to the cell of [self], the rest of the heap
    being untouched. *)
Definition writes_cell (self : Ident) (m : M World unit) (w : World)
    (P : Animal -> Prop) : Prop :=
  exists a', m w = (<[self := a']> w, Ok tt) /\ P a'.

(** The cell of a live animal once the engine has started its death: the
    velocity keeps its direction and is rescaled to 200 (the brake is set by
    the velocity setter as usual). *)
Definition exit_velocity (a : Animal) : Vec :=
  scale (div (_velocity a) (speed a)) 200.
Definition dying_cell (a : Animal) : Animal :=
  with_velocity (exit_velocity a)
    (with_slow_down_force
       (if Rlt_dec (max_speed a) (speed a)
        then scale (div (neg (_velocity a)) (speed a)) (slow_down_force_magnitude a)
        else (0, 0)) a).

(** ** A scenario: a rear-end collision

    The victim (identifier 0, one health point) moves to the right at speed
    20 and runs into the hunter (identifier 1) in front of it, which moves
    to the right at speed 10 and eats the victim.  Both shapes are 4x4, so
    both radii are 4, and the centres are 6 apart. *)
Definition victim : Animal :=
  with_velocity (20, 0)
    (with_rect_center (100, 100)%Z (Animal_init 4 4 1 50 1 20 1)).
Definition hunter : Animal :=
  with_eats {[0%nat]}
    (with_velocity (10, 0)
       (with_rect_center (106, 100)%Z (Animal_init 4 4 10 50 1 20 1))).
Definition rear_end_world : World :=
  <[0%nat := victim]> (<[1%nat := hunter]> fresh_world).
Definition rear_end : Sim :=
  mkSim rear_end_world
    (mkEngine (mkScreen 600 600) [0%nat; 1%nat] [] false false).

(** ** A scenario: an animal shot at the top wall

    As in [test_collide_animal_into_wall]: a default animal with velocity
    [(-10, -10)] and the top wall of a 600x600 board. *)
Definition top_wall : Wall.t := Wall.init (0, 1) (fun pos => snd pos - 35)%Z.
Definition wall_test_world : World :=
  <[0%nat := with_velocity (-10, -10) (Animal_init 4 4 10 50 1 20 1)]> fresh_world.

(** The cells of the two animals after their collision has been resolved:
    pushed apart by one pixel each, velocities exchanged. *)
Definition victim_after_collision : Animal :=
  with_velocity (10, 0)
    (with_slow_down_force (0, 0) (with_rect_center (99, 100)%Z victim)).
Definition hunter_after_collision : Animal :=
  with_velocity (20, 0)
    (with_slow_down_force (0, 0) (with_rect_center (107, 100)%Z hunter)).

(** ** A scenario: two prey at the same distance

    The chaser (identifier 0) at the origin eats the animals 1 and 2, which
    sit at [(3, 4)] and [(4, 3)], both at distance 5. *)
Definition chaser : Animal :=
  with_eats {[1%nat; 2%nat]}
    (with_rect_center (0, 0)%Z (Animal_init 4 4 10 50 1 20 1)).
Definition prey_a : Animal :=
  with_rect_center (3, 4)%Z (Animal_init 4 4 10 50 1 20 1).
Definition prey_b : Animal :=
  with_rect_center (4, 3)%Z (Animal_init 4 4 10 50 1 20 1).
Definition tie_world : World :=
  <[0%nat := chaser]> (<[1%nat := prey_a]> (<[2%nat := prey_b]> fresh_world)).

(** ** A scenario: after the rear-end collision

    The victim has lost its last health point. *)
Definition aftermath_world : World :=
  <[0%nat := with_health 0 victim_after_collision]>
    (<[1%nat := hunter_after_collision]> fresh_world).
(** Before the death phase: both animals are live. *)
Definition before_death : Sim :=
  mkSim aftermath_world
    (mkEngine (mkScreen 600 600) [0%nat; 1%nat] [] false true).
(** After the death phase: the victim is dying. *)
Definition after_death : Sim :=
  mkSim aftermath_world
    (mkEngine (mkScreen 600 600) [1%nat] [0%nat] true true).

(** ** Footprints and the invariant of the engine *)

(** A computation on the heap that writes the cells of the animals in [P]
    only, whether it raises or not. *)
Definition touches {A : Type} (P : Ident -> Prop) (m : M World A) : Prop :=
  forall w i, ~ P i -> fst (m w) i = w i.

(** A computation of the engine that, started with the live group [g],
    keeps both groups and writes the cells of members of [g] only. *)
Definition writes_within {A : Type} (g : Group) (m : M Sim A) : Prop :=
  forall s, live_animals (engine s) = g ->
    live_animals (engine (fst (m s))) = g /\
    dying_animals (engine (fst (m s))) = dying_animals (engine s) /\
    forall i, i ∉ g -> heap (fst (m s)) i = heap s i.

(** Between two ticks the two groups of the engine are disjoint and without
    repetition, and the dying animals are dead. *)
Definition engine_invariant (s : Sim) : Prop :=
  NoDup (live_animals (engine s)) /\
  NoDup (dying_animals (engine s)) /\
  (forall a, a ∈ live_animals (engine s) -> a ∉ dying_animals (engine s)) /\
  (forall d, d ∈ dying_animals (engine s) -> is_dead (heap s d) = true).


(** ** Vocabulary of the further properties *)

(** [self.walls[name]] *)
Fixpoint wall_named (walls : list (string * Wall.t)) (name : string)
  : option Wall.t :=
  match walls with
  | [] => None
  | (n, wall) :: rest =>
      if String.eqb n name then Some wall else wall_named rest name
  end.

(** A heap that differs from [w] by the prey that [R] adds and by nothing
    else. *)
Definition adds_prey (R : Ident -> Ident -> Prop) (w w' : World) : Prop :=
  forall a, w' a = with_eats (eats (w' a)) (w a) /\
            forall x, x ∈ eats (w' a) <-> x ∈ eats (w a) \/ R a x.

(** Two animals that belong to two different groups of the list. *)
Definition in_different_groups (animal_groups : list (list Ident))
    (a x : Ident) : Prop :=
  exists g g', g ∈ animal_groups /\ g' ∈ animal_groups /\ g <> g' /\
               a ∈ g /\ x ∈ g'.

(** ** lint/lint.py: the groups of animals are set against each other *)

Definition pin_groups_against_each_other (animal_groups : list (list Ident))
  : M World unit :=
  for_each animal_groups (fun animal_group =>
    for_each animal_groups (fun other_animal_group =>
      if decide (animal_group = other_animal_group) then ret tt
      else
        for_each animal_group (fun animal =>
          also_likes_to_eat animal other_animal_group))).

(** ** engine.py: the closing text, typed out line by line *)

Module TextLine.

Record t : Type := mk { text : string; text_index : nat; complete : bool }.

Definition init (text : string) : t :=
  {| text := text; text_index := 0; complete := false |}.

(** Returns the text to show and the line object after the call. *)
Definition next (self : t) : string * t :=
  if (text_index self <? String.length (text self))%nat then
    (String.substring 0 (text_index self) (text self),
     {| text := text self;
        text_index := text_index self + 1;
        complete := complete self |})
  else
    (text self,
     {| text := text self; text_index := text_index self; complete := true |}).

Definition is_complete (self : t) : bool := complete self.

End TextLine.

Module EndText.

Definition FONT_SIZE : R := 30.

(** The line objects are held by the list [self.text]; a line object is
    named by its place in that list. *)
Fixpoint complete_lines (i : nat) (text_lines : list TextLine.t) : list nat :=
  match text_lines with
  | [] => []
  | line :: rest =>
      if TextLine.is_complete line then i :: complete_lines (S i) rest
      else complete_lines (S i) rest
  end.

Definition get_lines_to_draw (text_lines : list TextLine.t) : list nat :=
  let lines_to_draw := complete_lines 0 text_lines in
  if (length lines_to_draw <? length text_lines)%nat
  then lines_to_draw ++ [length lines_to_draw]
  else lines_to_draw.

(** One pass of the loop of [update_and_draw]: the line objects, what has
    been drawn (a text and the centre of its rectangle) and [line_height]. *)
Definition draw_line (screen : Screen)
    (state : list TextLine.t * list (string * (R * R)) * R) (line : nat)
  : list TextLine.t * list (string * (R * R)) * R :=
  let '(text, drawn, line_height) := state in
  match text !! line with
  | Some object =>
      let (line_text, object') := TextLine.next object in
      (<[line := object']> text,
       drawn ++ [(line_text, (IZR (get_width screen) / 2,
                              IZR (get_height screen) / 2 + line_height))],
       line_height + FONT_SIZE)
  | None => state
  end.

(** Returns the line objects after the call and what was drawn. *)
Definition update_and_draw (screen : Screen) (text : list TextLine.t)
  : list TextLine.t * list (string * (R * R)) :=
  let lines_to_draw := get_lines_to_draw text in
  fst (fold_left (draw_line screen) lines_to_draw (text, [], 0)).

End EndText.

(** A line that has been typed out, and the lines of a text of which
    [done] are typed out, [k] characters of [current] have been shown and
    [todo] have not been started. *)
Definition typed_line (s : string) : TextLine.t :=
  TextLine.mk s (String.length s) true.
Definition typing (done : list string) (current : string) (k : nat)
    (todo : list string) : list TextLine.t :=
  map typed_line done ++ TextLine.mk current k false :: map TextLine.init todo.

(** The number of calls of [update_and_draw] that a list of lines still
    needs. *)
Definition frames_left (text : list TextLine.t) : nat :=
  fold_right
    (fun line n =>
       (if TextLine.complete line then 0
        else String.length (TextLine.text line) - TextLine.text_index line + 1)
       + n)%nat
    0%nat text.

(** The centres at which the lines of a list are drawn. *)
Definition line_centres (screen : Screen) (n : nat) : list (R * R) :=
  map (fun i => (IZR (get_width screen) / 2,
                 IZR (get_height screen) / 2 + EndText.FONT_SIZE * INR i))
    (seq 0 n).
(** ** Facts about vectors and the rotation of [collide] *)

Lemma norm_nonneg (a : Vec) : 0 <= norm a.
Proof. apply sqrt_pos. Qed.

Lemma norm_sqr (a : Vec) : norm a * norm a = fst a * fst a + snd a * snd a.
Proof. unfold norm. apply sqrt_sqrt. nra. Qed.

Lemma norm_pos (a : Vec) : norm a <> 0 -> 0 < norm a.
Proof. pose proof (norm_nonneg a). lra. Qed.

Lemma norm_zero_iff (a : Vec) : norm a = 0 <-> a = (0, 0).
Proof.
  destruct a as [x y]. split.
  - intros H. pose proof (norm_sqr (x, y)) as Hs. rewrite H in Hs. simpl in Hs.
    assert (x = 0) by nra. assert (y = 0) by nra. subst. reflexivity.
  - intros [= -> ->]. unfold norm. simpl.
    replace (0 * 0 + 0 * 0) with 0 by ring. apply sqrt_0.
Qed.

Lemma cos_axis (c : Vec) :
  norm c <> 0 -> cos (acos (fst c / norm c)) = fst c / norm c.
Proof.
  intros Hn. apply cos_acos.
  pose proof (norm_pos c Hn) as Hp. pose proof (norm_sqr c) as Hs.
  assert (Hle : - norm c <= fst c <= norm c) by (split; nra).
  split.
  - apply Rmult_le_reg_r with (norm c); [exact Hp|].
    unfold Rdiv. rewrite Rmult_assoc, Rinv_l by exact Hn. lra.
  - apply Rmult_le_reg_r with (norm c); [exact Hp|].
    unfold Rdiv. rewrite Rmult_assoc, Rinv_l by exact Hn. lra.
Qed.

(** [arccos] returns an angle of [[0, pi]], whose sine is not negative: the
    sign of the second coordinate of the axis is lost. *)
Lemma sin_axis (c : Vec) :
  norm c <> 0 -> sin (acos (fst c / norm c)) = Rabs (snd c) / norm c.
Proof.
  intros Hn.
  pose proof (norm_pos c Hn) as Hp. pose proof (norm_sqr c) as Hs.
  assert (Hc : cos (acos (fst c / norm c)) = fst c / norm c)
    by (apply cos_axis; exact Hn).
  assert (Hsin : 0 <= sin (acos (fst c / norm c))).
  { apply sin_ge_0; apply acos_bound. }
  assert (Hq : 0 <= Rabs (snd c) / norm c).
  { apply Rmult_le_pos; [apply Rabs_pos | left; apply Rinv_0_lt_compat; exact Hp]. }
  pose proof (sin2_cos2 (acos (fst c / norm c))) as H1.
  unfold Rsqr in H1. rewrite Hc in H1.
  assert (H2 : (Rabs (snd c) / norm c) * (Rabs (snd c) / norm c)
               = 1 - (fst c / norm c) * (fst c / norm c)).
  { assert (Ha : Rabs (snd c) * Rabs (snd c) = snd c * snd c).
    { unfold Rabs. destruct (Rcase_abs (snd c)); ring. }
    field_simplify_eq; [|exact Hn]. nra. }
  nra.
Qed.

Lemma inv_rotation (c s : R) :
  c * c + s * s = 1 ->
  inv ((c, s), (- s, c)) = Ok ((c, - s), (s, c)).
Proof.
  intros H. unfold inv, det. simpl.
  replace (c * c - s * - s) with 1 by lra.
  destruct (Req_dec_T 1 0) as [E|_]; [lra|].
  f_equal. repeat f_equal; field.
Qed.

(** The closed form of [collide]: the axis actually used is
    [(c_x, |c_y|) / |c|]. *)
Lemma collide_closed_form (c v1 v2 : Vec) (m1 m2 : R) :
  norm c <> 0 ->
  let cx := fst c / norm c in
  let sy := Rabs (snd c) / norm c in
  let w1 := dot ((cx, sy), (- sy, cx)) v1 in
  let w2 := dot ((cx, sy), (- sy, cx)) v2 in
  collide c v1 v2 m1 m2 =
    Ok (dot ((cx, - sy), (sy, cx))
          (((m1 - m2) * fst w1 + (m2 + m2) * fst w2) / (m1 + m2), snd w1),
        dot ((cx, - sy), (sy, cx))
          (((m1 + m1) * fst w1 + (m2 - m1) * fst w2) / (m1 + m2), snd w2)).
Proof.
  intros Hn cx sy w1 w2. unfold collide.
  destruct (Req_dec_T (norm c) 0) as [E|_]; [contradiction|].
  cbv zeta. rewrite (cos_axis c Hn), (sin_axis c Hn).
  fold cx sy. rewrite inv_rotation; [reflexivity|].
  subst cx sy. pose proof (norm_sqr c) as Hs.
  assert (Ha : Rabs (snd c) * Rabs (snd c) = snd c * snd c).
  { unfold Rabs. destruct (Rcase_abs (snd c)); ring. }
  field_simplify_eq; [|exact Hn]. nra.
Qed.

(** ** The state and exception monad *)

Lemma for_each_app {S A : Type} (l1 l2 : list A) (body : A -> M S unit) (s : S) :
  for_each (l1 ++ l2) body s =
    match for_each l1 body s with
    | (s', Ok _) => for_each l2 body s'
    | (s', Raise e) => (s', Raise e)
    end.
Proof.
  revert s. induction l1 as [|x l1 IH]; intros s; simpl.
  - reflexivity.
  - unfold bind. destruct (body x s) as [s' [[]|e]]; [apply IH|reflexivity].
Qed.

(** Reading the cell that has just been written. *)
Ltac read_written :=
  repeat match goal with
    | |- context [(<[?i := ?x]> ?f) ?i] => rewrite (fn_lookup_insert f i x)
    end.

Lemma assign_run (self : Ident) (f : Animal -> Animal) (w : World) :
  assign self f w = (<[self := f (w self)]> w, Ok tt).
Proof. reflexivity. Qed.

(** ** also_likes_to_eat *)

Lemma also_likes_to_eat_cons (self animal : Ident) (rest : list Ident) (w : World) :
  also_likes_to_eat self (animal :: rest) w =
    if decide (animal = self)
    then (w, Raise (ValueError "Animals shouldn't want to eat themselves!"))
    else also_likes_to_eat self rest
           (<[self := with_eats (eats (w self) ∪ {[animal]}) (w self)]> w).
Proof.
  unfold also_likes_to_eat. simpl. unfold bind.
  destruct (decide (animal = self)); reflexivity.
Qed.

Lemma also_likes_to_eat_other (self : Ident) (animals : list Ident) (w : World)
    (i : Ident) :
  i <> self -> fst (also_likes_to_eat self animals w) i = w i.
Proof.
  intros Hi. revert w. induction animals as [|a rest IH]; intros w.
  - reflexivity.
  - rewrite also_likes_to_eat_cons. destruct (decide (a = self)); [reflexivity|].
    rewrite IH. apply fn_lookup_insert_ne. congruence.
Qed.

Lemma also_likes_to_eat_ok (self : Ident) (animals : list Ident) (w : World) :
  self ∉ animals ->
  snd (also_likes_to_eat self animals w) = Ok tt /\
  fst (also_likes_to_eat self animals w) self
    = with_eats (eats (w self) ∪ list_to_set animals) (w self).
Proof.
  revert w. induction animals as [|a rest IH]; intros w Hnot.
  - split; [reflexivity|]. simpl.
    replace (eats (w self) ∪ ∅) with (eats (w self)) by set_solver.
    destruct (w self); reflexivity.
  - rewrite also_likes_to_eat_cons.
    destruct (decide (a = self)) as [->|Hne]; [set_solver|].
    destruct (IH (<[self := with_eats (eats (w self) ∪ {[a]}) (w self)]> w))
      as [Hok Hst]; [set_solver|].
    split; [exact Hok|]. rewrite Hst, fn_lookup_insert. simpl.
    unfold with_eats. simpl. f_equal. set_solver.
Qed.

Lemma also_likes_to_eat_raise (self : Ident) (pre post : list Ident) (w : World) :
  self ∉ pre ->
  snd (also_likes_to_eat self (pre ++ self :: post) w)
    = Raise (ValueError "Animals shouldn't want to eat themselves!") /\
  fst (also_likes_to_eat self (pre ++ self :: post) w) self
    = with_eats (eats (w self) ∪ list_to_set pre) (w self).
Proof.
  intros Hnot. destruct (also_likes_to_eat_ok self pre w Hnot) as [Hok Hst].
  unfold also_likes_to_eat in *. rewrite for_each_app.
  destruct (for_each pre _ w) as [w' r] eqn:E. simpl in Hok, Hst. subst r.
  fold (also_likes_to_eat self (self :: post) w').
  rewrite also_likes_to_eat_cons.
  destruct (decide (self = self)); [|contradiction].
  split; [reflexivity|exact Hst].
Qed.

(** C9. Adding an animal to its own prey set always raises the
    [ValueError] "Animals shouldn't want to eat themselves!", and
    [also_likes_to_eat] never makes an animal a member of its own prey set,
    whether it raises or not. *)
Theorem also_likes_to_eat_rejects_self (w : World) (self : Ident)
    (animals : list Ident) :
  (self ∈ animals ->
   snd (also_likes_to_eat self animals w)
     = Raise (ValueError "Animals shouldn't want to eat themselves!")) /\
  (self ∉ eats (w self) ->
   self ∉ eats (fst (also_likes_to_eat self animals w) self)).
Proof.
  split.
  - intros Hin. apply list_elem_of_split_l in Hin as (pre & post & -> & Hpre).
    apply also_likes_to_eat_raise; exact Hpre.
  - intros Hfresh. destruct (decide (self ∈ animals)) as [Hin|Hnot].
    + apply list_elem_of_split_l in Hin as (pre & post & -> & Hpre).
      destruct (also_likes_to_eat_raise self pre post w Hpre) as [_ ->].
      simpl. set_solver.
    + destruct (also_likes_to_eat_ok self animals w Hnot) as [_ ->].
      simpl. set_solver.
Qed.

(** C10. [also_likes_to_eat] is not atomic: called with a sequence in which
    the animal itself appears, it raises, and the animals listed before the
    first self-reference have been added to the prey set and stay there. *)
Theorem also_likes_to_eat_not_atomic (w : World) (self : Ident)
    (pre post : list Ident) :
  self ∉ pre ->
  snd (also_likes_to_eat self (pre ++ self :: post) w)
    = Raise (ValueError "Animals shouldn't want to eat themselves!") /\
  eats (fst (also_likes_to_eat self (pre ++ self :: post) w) self)
    = eats (w self) ∪ list_to_set pre /\
  (forall p, p ∈ pre ->
     p ∈ eats (fst (also_likes_to_eat self (pre ++ self :: post) w) self)).
Proof.
  intros Hpre.
  destruct (also_likes_to_eat_raise self pre post w Hpre) as [Hr Hst].
  split; [exact Hr|]. rewrite Hst. simpl. split; [reflexivity|]. set_solver.
Qed.

(** ** reduce_health *)

Lemma reduce_health_run (self : Ident) (amount : R) (w : World) :
  reduce_health self amount w
    = (<[self := with_health (health (w self) - amount) (w self)]> w, Ok tt).
Proof. reflexivity. Qed.

Lemma with_health_id (a : Animal) : with_health (health a) a = a.
Proof. destruct a as [? [[? ?] ? ?] ? ? ? ? ? ? ? ? ? ? ?]. reflexivity. Qed.

Lemma with_health_twice (h1 h2 : R) (a : Animal) :
  with_health h2 (with_health h1 a) = with_health h2 a.
Proof. reflexivity. Qed.

Lemma health_with_health (h : R) (a : Animal) : health (with_health h a) = h.
Proof. reflexivity. Qed.

Lemma reduce_health_sequence (self : Ident) (amounts : list R) (w : World) :
  snd (for_each amounts (reduce_health self) w) = Ok tt /\
  forall i, fst (for_each amounts (reduce_health self) w) i
            = if decide (i = self)
              then with_health (health (w self) - total amounts) (w self)
              else w i.
Proof.
  revert w. induction amounts as [|amount rest IH]; intros w.
  - split; [reflexivity|]. intros i. simpl.
    destruct (decide (i = self)) as [->|]; [|reflexivity].
    rewrite Rminus_0_r, with_health_id. reflexivity.
  - simpl. unfold bind. rewrite reduce_health_run.
    destruct (IH (<[self := with_health (health (w self) - amount) (w self)]> w))
      as [Hok Hst].
    split; [exact Hok|]. intros i. rewrite Hst.
    destruct (decide (i = self)) as [->|Hne].
    + rewrite fn_lookup_insert, with_health_twice, health_with_health.
      f_equal. lra.
    + apply fn_lookup_insert_ne. congruence.
Qed.

Lemma total_nonneg (amounts : list R) :
  Forall (fun amount => 0 <= amount) amounts -> 0 <= total amounts.
Proof.
  induction 1 as [|amount rest Ha _ IH]; simpl; lra.
Qed.

Lemma is_dead_iff (a : Animal) : is_dead a = true <-> health a <= 0.
Proof.
  unfold is_dead, HealthBar.is_dead, health, Rleb.
  destruct (Rle_dec _ 0); split; intros; try reflexivity; try assumption;
    try discriminate; contradiction.
Qed.

(** C1, as the code has it. [reduce_health] subtracts the amount from the
    current health and does not clamp at zero.  After any sequence of damage
    applications with amounts that are not negative, the health is the
    initial health minus the sum of the amounts, the bound
    [current_health <= max_health] still holds, the animal is dead exactly
    when its health is at most zero, and nothing but the current health of
    that animal has changed. *)
Theorem reduce_health_subtracts (w : World) (self : Ident) (amounts : list R) :
  Forall (fun amount => 0 <= amount) amounts ->
  health (w self) <= max_health (w self) ->
  let w' := fst (for_each amounts (reduce_health self) w) in
  snd (for_each amounts (reduce_health self) w) = Ok tt /\
  health (w' self) = health (w self) - total amounts /\
  health (w' self) <= max_health (w' self) /\
  (is_dead (w' self) = true <-> health (w self) <= total amounts) /\
  (forall i, w' i = if decide (i = self)
                    then with_health (health (w self) - total amounts) (w self)
                    else w i).
Proof.
  intros Hpos Hinv w'.
  destruct (reduce_health_sequence self amounts w) as [Hok Hst].
  pose proof (total_nonneg amounts Hpos) as Ht.
  assert (Hself : w' self = with_health (health (w self) - total amounts) (w self)).
  { subst w'. rewrite Hst. destruct (decide (self = self)); [reflexivity|contradiction]. }
  split; [exact Hok|]. rewrite Hself.
  split; [reflexivity|]. split; [|split].
  - rewrite health_with_health. change (max_health (with_health _ (w self)))
      with (max_health (w self)). lra.
  - rewrite is_dead_iff, health_with_health. lra.
  - intros i. subst w'. rewrite Hst.
    destruct (decide (i = self)) as [->|]; [|reflexivity].
    reflexivity.
Qed.

(** ** The velocity setter *)

Lemma set_velocity_run (self : Ident) (v : Vec) (w : World) :
  set_velocity self v w =
    (<[self := with_velocity v
         (with_slow_down_force
            (if Rlt_dec (max_speed (w self)) (speed (w self))
             then scale (div (neg (_velocity (w self))) (speed (w self)))
                    (slow_down_force_magnitude (w self))
             else (0, 0)) (w self))]> w, Ok tt).
Proof.
  unfold set_velocity, bind, get. simpl.
  destruct (Rlt_dec (max_speed (w self)) (speed (w self)));
    rewrite !assign_run; simpl; rewrite !fn_lookup_insert;
    f_equal; apply functional_extensionality; intros i;
    unfold insert, fn_insert; destruct (decide (self = i)); reflexivity.
Qed.

Lemma norm_div_self (v : Vec) : 0 < norm v -> norm (div v (norm v)) = 1.
Proof.
  intros Hp. pose proof (norm_sqr v) as Hs.
  unfold div. unfold norm at 1. simpl.
  replace (fst v / norm v * (fst v / norm v) + snd v / norm v * (snd v / norm v))
    with 1; [apply sqrt_1|].
  field_simplify_eq; [lra|lra].
Qed.

Lemma norm_neg (v : Vec) : norm (neg v) = norm v.
Proof. unfold norm, neg. simpl. f_equal. ring. Qed.

(** C8. The velocity setter decides the brake by the speed held before the
    assignment: above [max_speed] the brake is the unit vector opposite the
    old velocity scaled by the brake magnitude (the old speed, by which the
    code divides, being not zero), otherwise it is zero; the new velocity is
    stored in both cases. *)
Theorem set_velocity_brake (w : World) (self : Ident) (v : Vec) :
  let old := w self in
  let w' := fst (set_velocity self v w) in
  snd (set_velocity self v w) = Ok tt /\
  _velocity (w' self) = v /\
  (max_speed old < speed old -> speed old <> 0 ->
   slow_down_force (w' self)
     = scale (neg (div (_velocity old) (speed old))) (slow_down_force_magnitude old)
   /\ norm (neg (div (_velocity old) (speed old))) = 1) /\
  (speed old <= max_speed old -> slow_down_force (w' self) = (0, 0)).
Proof.
  intros old w'. subst w'. rewrite set_velocity_run. simpl.
  rewrite fn_lookup_insert. fold old. simpl.
  split; [reflexivity|]. split; [reflexivity|]. split.
  - intros Hfast Hne.
    destruct (Rlt_dec (max_speed old) (speed old)); [|contradiction].
    split.
    + unfold scale, neg, div. simpl. f_equal; unfold Rdiv; ring.
    + rewrite norm_neg. apply norm_div_self. apply norm_pos. exact Hne.
  - intros Hslow. destruct (Rlt_dec (max_speed old) (speed old)); [lra|reflexivity].
Qed.

(** ** The elastic collision along the axis it uses *)

Lemma used_axis_unit (c : Vec) :
  norm c <> 0 -> inner (used_axis c) (used_axis c) = 1.
Proof.
  intros Hn. pose proof (norm_sqr c) as Hs. unfold inner, used_axis. simpl.
  assert (Ha : Rabs (snd c) * Rabs (snd c) = snd c * snd c).
  { unfold Rabs. destruct (Rcase_abs (snd c)); ring. }
  field_simplify_eq; [|exact Hn]. nra.
Qed.

Lemma rotate_back_axis (a s x y : R) :
  inner (dot ((a, - s), (s, a)) (x, y)) (a, s) = x * (a * a + s * s).
Proof. unfold inner, dot. simpl. ring. Qed.

Lemma rotate_back_perp (a s x y : R) :
  inner (dot ((a, - s), (s, a)) (x, y)) (perp (a, s)) = y * (a * a + s * s).
Proof. unfold inner, dot, perp. simpl. ring. Qed.

(** In an orthonormal frame a scalar product is the sum of the products of
    the coordinates. *)
Lemma inner_in_frame (a u d : Vec) :
  inner a a = 1 ->
  inner u d = inner u a * inner d a + inner u (perp a) * inner d (perp a).
Proof.
  destruct a as [a s], u as [ux uy], d as [dx dy]. unfold inner, perp. simpl.
  intros H.
  replace (ux * dx + uy * dy) with ((ux * dx + uy * dy) * (a * a + s * s))
    by (rewrite H; ring).
  ring.
Qed.

(** [collide] applies the one-dimensional elastic collision formula along
    [used_axis] and keeps the components at a right angle to it. *)
Lemma collide_used_axis (c v1 v2 : Vec) (m1 m2 : R) :
  norm c <> 0 ->
  exists u1 u2,
    collide c v1 v2 m1 m2 = Ok (u1, u2) /\
    inner u1 (used_axis c)
      = ((m1 - m2) * inner v1 (used_axis c) + (m2 + m2) * inner v2 (used_axis c))
        / (m1 + m2) /\
    inner u2 (used_axis c)
      = ((m1 + m1) * inner v1 (used_axis c) + (m2 - m1) * inner v2 (used_axis c))
        / (m1 + m2) /\
    inner u1 (perp (used_axis c)) = inner v1 (perp (used_axis c)) /\
    inner u2 (perp (used_axis c)) = inner v2 (perp (used_axis c)).
Proof.
  intros Hn. pose proof (used_axis_unit c Hn) as Hu.
  rewrite (collide_closed_form c v1 v2 m1 m2 Hn). cbv zeta.
  unfold used_axis in *. unfold inner in Hu. simpl in Hu.
  set (a := fst c / norm c) in *. set (s := Rabs (snd c) / norm c) in *.
  eexists _, _. split; [reflexivity|].
  rewrite !rotate_back_axis, !rotate_back_perp, Hu, !Rmult_1_r.
  destruct v1 as [v1x v1y], v2 as [v2x v2y].
  unfold inner, dot, perp. simpl.
  clearbody a s. unfold Rdiv. repeat split; ring.
Qed.

(** The momentum part of C2: total momentum is conserved along every
    direction, in particular along [center_to_center]. *)
Lemma collide_conserves_momentum (c v1 v2 u1 u2 d : Vec) (m1 m2 : R) :
  norm c <> 0 -> m1 + m2 <> 0 ->
  collide c v1 v2 m1 m2 = Ok (u1, u2) ->
  m1 * inner u1 d + m2 * inner u2 d = m1 * inner v1 d + m2 * inner v2 d.
Proof.
  intros Hn Hm Hc.
  destruct (collide_used_axis c v1 v2 m1 m2 Hn)
    as (u1' & u2' & Hc' & H1 & H2 & H3 & H4).
  rewrite Hc in Hc'. injection Hc' as <- <-.
  pose proof (used_axis_unit c Hn) as Hu.
  rewrite (inner_in_frame (used_axis c) u1 d Hu),
    (inner_in_frame (used_axis c) u2 d Hu),
    (inner_in_frame (used_axis c) v1 d Hu),
    (inner_in_frame (used_axis c) v2 d Hu), H1, H2, H3, H4.
  field. exact Hm.
Qed.

Lemma used_axis_upper (c : Vec) :
  0 <= snd c -> used_axis c = div c (norm c).
Proof.
  intros H. unfold used_axis, div. rewrite Rabs_pos_eq by exact H. reflexivity.
Qed.

Lemma used_axis_vertical (c : Vec) :
  fst c = 0 -> snd c <= 0 -> used_axis c = neg (div c (norm c)).
Proof.
  intros H0 H. unfold used_axis, div, neg. simpl. rewrite H0.
  rewrite Rabs_left1 by exact H. f_equal; unfold Rdiv; ring.
Qed.

Lemma inner_div_r (u c : Vec) (k : R) : inner u (div c k) = inner u c / k.
Proof. unfold inner, div. simpl. unfold Rdiv. ring. Qed.

Lemma inner_perp_div_r (u c : Vec) (k : R) :
  inner u (perp (div c k)) = inner u (perp c) / k.
Proof. unfold inner, div, perp. simpl. unfold Rdiv. ring. Qed.

Lemma inner_neg_r (u c : Vec) : inner u (neg c) = - inner u c.
Proof. unfold inner, neg. simpl. ring. Qed.

Lemma inner_perp_neg_r (u c : Vec) : inner u (perp (neg c)) = - inner u (perp c).
Proof. unfold inner, neg, perp. simpl. ring. Qed.

Lemma div_cancel (x y n : R) : n <> 0 -> x / n = y -> x = y * n.
Proof. intros Hn <-. field. exact Hn. Qed.

(** When the axis points into the upper half plane or is vertical, the axis
    used is the given one up to its sign, and [collide] is the elastic
    collision along [center_to_center]. *)
Lemma collide_along_axis (c v1 v2 : Vec) (m1 m2 : R) :
  norm c <> 0 -> 0 <= snd c \/ fst c = 0 ->
  exists u1 u2,
    collide c v1 v2 m1 m2 = Ok (u1, u2) /\
    inner u1 c
      = ((m1 - m2) * inner v1 c + (m2 + m2) * inner v2 c) / (m1 + m2) /\
    inner u2 c
      = ((m1 + m1) * inner v1 c + (m2 - m1) * inner v2 c) / (m1 + m2) /\
    inner u1 (perp c) = inner v1 (perp c) /\
    inner u2 (perp c) = inner v2 (perp c).
Proof.
  intros Hn Hside. pose proof (norm_pos c Hn) as Hp.
  destruct (collide_used_axis c v1 v2 m1 m2 Hn)
    as (u1 & u2 & Hc & H1 & H2 & H3 & H4).
  exists u1, u2. split; [exact Hc|].
  assert (Hcase : used_axis c = div c (norm c) \/ used_axis c = neg (div c (norm c))).
  { destruct Hside as [Hup|Hvert].
    - left. apply used_axis_upper; exact Hup.
    - destruct (Rle_dec 0 (snd c)).
      + left. apply used_axis_upper; assumption.
      + right. apply used_axis_vertical; [exact Hvert|lra]. }
  destruct Hcase as [E|E]; rewrite E in H1, H2, H3, H4.
  - rewrite !inner_div_r in H1, H2. rewrite !inner_perp_div_r in H3, H4.
    apply (div_cancel _ _ _ Hn) in H1, H2, H3, H4.
    rewrite H1, H2, H3, H4. unfold Rdiv. set (q := / (m1 + m2)).
    repeat split; field; exact Hn.
  - rewrite !inner_neg_r, !inner_div_r in H1, H2.
    rewrite !inner_perp_neg_r, !inner_perp_div_r in H3, H4.
    assert (H1' : inner u1 c / norm c
                  = - (((m1 - m2) * - (inner v1 c / norm c)
                        + (m2 + m2) * - (inner v2 c / norm c)) / (m1 + m2))) by lra.
    assert (H2' : inner u2 c / norm c
                  = - (((m1 + m1) * - (inner v1 c / norm c)
                        + (m2 - m1) * - (inner v2 c / norm c)) / (m1 + m2))) by lra.
    assert (H3' : inner u1 (perp c) / norm c = inner v1 (perp c) / norm c) by lra.
    assert (H4' : inner u2 (perp c) / norm c = inner v2 (perp c) / norm c) by lra.
    apply (div_cancel _ _ _ Hn) in H1', H2', H3', H4'.
    rewrite H1', H2', H3', H4'. unfold Rdiv. set (q := / (m1 + m2)).
    repeat split; field; exact Hn.
Qed.

(** ** The input on which [collide] uses the wrong axis *)

Lemma norm_3_4 : norm (3, -4) = 5.
Proof.
  unfold norm. simpl. replace (3 * 3 + -4 * -4) with (5 * 5) by lra.
  apply sqrt_square. lra.
Qed.

(** C2, at the failing input.  The axis [(3, -4)] points into the lower half
    plane; [collide] exchanges momentum along [(3, 4)] instead: the first
    body, moving along [(3, 4)], is stopped and the second takes its
    velocity, so that the component of the first velocity at a right angle
    to the collision axis changes from [24] (on the scale of the axis) to
    [0]. *)
Theorem collide_lower_axis_mirrored :
  collide (3, -4) (3, 4) (0, 0) 1 1 = Ok ((0, 0), (3, 4)) /\
  inner (3, 4) (perp (3, -4)) = 24 /\
  inner (0, 0) (perp (3, -4)) = 0.
Proof.
  split; [|split; unfold inner, perp; simpl; lra].
  rewrite collide_closed_form by (rewrite norm_3_4; lra).
  cbv zeta. simpl fst. simpl snd. rewrite norm_3_4.
  replace (Rabs (-4)) with 4 by (rewrite Rabs_left; lra).
  unfold dot. simpl. f_equal. f_equal; f_equal; field.
Qed.

(** ** Stable sorting and the nearest element *)

Lemma head_insert_by {A : Type} (key : A -> R) (x : A) (l : list A) :
  head (insert_by key x l) =
    match head l with
    | None => Some x
    | Some y => if Rle_dec (key x) (key y) then Some x else Some y
    end.
Proof.
  destruct l as [|y l']; simpl; [reflexivity|].
  destruct (Rle_dec (key x) (key y)); reflexivity.
Qed.

Lemma head_sort_by {A : Type} (key : A -> R) (l : list A) :
  head (sort_by key l) = first_nearest key l.
Proof.
  induction l as [|x l' IH]; simpl; [reflexivity|].
  rewrite head_insert_by, IH. reflexivity.
Qed.

(** [first_nearest] returns an element of least key, and each element before
    it in the list has a strictly greater key. *)
Lemma first_nearest_spec {A : Type} (key : A -> R) (l : list A) (m : A) :
  first_nearest key l = Some m ->
  exists before after,
    l = before ++ m :: after /\
    (forall b, b ∈ before -> key m < key b) /\
    (forall b, b ∈ after -> key m <= key b).
Proof.
  revert m. induction l as [|x l' IH]; intros m; simpl; [discriminate|].
  destruct (first_nearest key l') as [m'|] eqn:E.
  - destruct (IH m' eq_refl) as (before & after & -> & Hb & Ha).
    destruct (Rle_dec (key x) (key m')) as [Hle|Hgt]; intros [= <-].
    + exists [], (before ++ m' :: after). split; [reflexivity|].
      split; [intros b Hin; apply elem_of_nil in Hin; contradiction|].
      intros b Hin. apply elem_of_app in Hin as [Hin|Hin].
      * specialize (Hb b Hin). lra.
      * apply elem_of_cons in Hin as [->|Hin]; [exact Hle|].
        specialize (Ha b Hin). lra.
    + exists (x :: before), after. split; [reflexivity|]. split; [|exact Ha].
      intros b Hin. apply elem_of_cons in Hin as [->|Hin]; [lra|].
      exact (Hb b Hin).
  - intros [= <-]. destruct l' as [|y l'']; simpl in E.
    + exists [], []. split; [reflexivity|].
      split; intros b Hin; apply elem_of_nil in Hin; contradiction.
    + destruct (first_nearest key l''); [destruct (Rle_dec _ _)|]; discriminate.
Qed.

Lemma first_nearest_None {A : Type} (key : A -> R) (l : list A) :
  first_nearest key l = None -> l = [].
Proof.
  destruct l as [|x l']; simpl; [reflexivity|].
  destruct (first_nearest key l'); [destruct (Rle_dec _ _)|]; discriminate.
Qed.

(** ** Distances and the focus setter *)

Lemma fn_insert_insert (w : World) (i : Ident) (a b : Animal) :
  <[i := b]> (<[i := a]> w) = <[i := b]> w.
Proof.
  apply functional_extensionality. intros j. unfold insert, fn_insert.
  destruct (decide (i = j)); reflexivity.
Qed.

Lemma distance_to_position (a a' b b' : Animal) :
  position a = position a' -> position b = position b' ->
  distance_to a b = distance_to a' b'.
Proof. unfold distance_to, vector_to. intros -> ->. reflexivity. Qed.

Lemma on_top_position (a a' b b' : Animal) :
  position a = position a' -> position b = position b' ->
  on_top a b = on_top a' b'.
Proof. unfold on_top. intros -> ->. reflexivity. Qed.

Lemma distance_to_zero (a b : Animal) :
  distance_to a b = 0 -> position a = position b.
Proof.
  unfold distance_to, vector_to. intros H. apply norm_zero_iff in H.
  unfold of_Z in H. simpl in H. injection H as Hx Hy.
  apply eq_IZR_R0 in Hx, Hy.
  destruct (position a) as [ax ay], (position b) as [bx by']. simpl in *.
  f_equal; lia.
Qed.

Lemma normalized_vector_to_Ok (a b : Animal) :
  on_top a b = false -> exists d, normalized_vector_to a b = Ok d.
Proof.
  intros Hnot. unfold normalized_vector_to.
  destruct (Req_dec_T (distance_to a b) 0) as [Hz|_]; [|eexists; reflexivity].
  apply distance_to_zero in Hz. unfold on_top in Hnot.
  rewrite bool_decide_eq_false in Hnot. contradiction.
Qed.

Lemma set_subject_animal_None (self : Ident) (w : World) :
  set_subject_animal self None w
    = (<[self := with_propulsion_force (0, 0)
                   (with_subject_animal None (w self))]> w, Ok tt).
Proof.
  unfold set_subject_animal, bind, get.
  repeat (rewrite assign_run; cbn beta iota). read_written.
  rewrite fn_insert_insert. reflexivity.
Qed.

(** Setting the focus to a member of the prey set does not raise. *)
Lemma set_subject_animal_prey (self animal : Ident) (w : World) :
  animal ∈ eats (w self) ->
  exists force,
    set_subject_animal self (Some animal) w
      = (<[self := with_propulsion_force force
                     (with_subject_animal (Some animal) (w self))]> w, Ok tt).
Proof.
  intros Hprey. unfold set_subject_animal, bind, get. rewrite assign_run.
  cbn beta iota. set (w1 := <[self := _]> w).
  assert (Hself : w1 self = with_subject_animal (Some animal) (w self))
    by (subst w1; apply fn_lookup_insert).
  destruct (on_top (w1 self) (w1 animal)) eqn:Etop.
  - rewrite assign_run, Hself. subst w1. rewrite fn_insert_insert.
    eexists. reflexivity.
  - assert (Hw : wants_to_eat (w1 self) animal = true).
    { unfold wants_to_eat. rewrite Hself. apply bool_decide_eq_true. exact Hprey. }
    rewrite Hw. destruct (normalized_vector_to_Ok _ _ Etop) as [d Hd].
    unfold lift_result. rewrite Hd. cbn beta iota.
    rewrite assign_run, Hself. subst w1. rewrite fn_insert_insert.
    eexists. reflexivity.
Qed.

(** The focus setter leaves every prey set as it is, whether it raises or
    not. *)
Lemma set_subject_animal_eats (self : Ident) (animal : option Ident) (w : World)
    (i : Ident) :
  eats (fst (set_subject_animal self animal w) i) = eats (w i).
Proof.
  assert (Hcell : forall (f : Animal -> Animal) (w0 : World),
            (forall a, eats (f a) = eats a) ->
            eats ((<[self := f (w0 self)]> w0) i) = eats (w0 i)).
  { intros f w0 Hf. unfold insert, fn_insert.
    destruct (decide (self = i)) as [->|]; [apply Hf|reflexivity]. }
  unfold set_subject_animal, bind, get. rewrite assign_run. cbn beta iota.
  set (w1 := <[self := _]> w).
  assert (H1 : eats (w1 i) = eats (w i)) by (apply Hcell; reflexivity).
  destruct animal as [animal|].
  - destruct (on_top (w1 self) (w1 animal)).
    + rewrite assign_run. cbn [fst]. rewrite Hcell by reflexivity. exact H1.
    + destruct (wants_to_eat (w1 self) animal).
      * unfold lift_result.
        destruct (normalized_vector_to (w1 self) (w1 animal)); cbn beta iota.
        -- rewrite assign_run. cbn [fst]. rewrite Hcell by reflexivity. exact H1.
        -- exact H1.
      * destruct (wants_to_eat (w1 animal) self).
        -- unfold lift_result.
           destruct (normalized_vector_to (w1 self) (w1 animal)); cbn beta iota.
           ++ rewrite assign_run. cbn [fst]. rewrite Hcell by reflexivity. exact H1.
           ++ exact H1.
        -- exact H1.
  - rewrite assign_run. cbn [fst]. rewrite Hcell by reflexivity. exact H1.
Qed.

(** A freshly built animal is not in its own prey set. *)
Lemma Animal_init_eats (self : Ident) (shape_width shape_height : Z)
    (max_health max_speed mass exertion damage : R) :
  self ∉ eats (Animal_init shape_width shape_height max_health max_speed mass
                 exertion damage).
Proof. apply not_elem_of_empty. Qed.

(** ** Rounding of integers *)

Lemma up_IZR (z : Z) : up (IZR z) = (z + 1)%Z.
Proof.
  symmetry. apply tech_up; rewrite plus_IZR; lra.
Qed.

Lemma np_floor_IZR (z : Z) : np_floor (IZR z) = z.
Proof. unfold np_floor. rewrite up_IZR. lia. Qed.

Lemma np_ceil_IZR (z : Z) : np_ceil (IZR z) = z.
Proof. unfold np_ceil. rewrite <- opp_IZR, np_floor_IZR. lia. Qed.

Lemma py_int_IZR (z : Z) : py_int (IZR z) = z.
Proof.
  unfold py_int. destruct (Rle_dec 0 (IZR z)); [apply np_floor_IZR|apply np_ceil_IZR].
Qed.

Lemma norm_x_axis (x : R) : 0 <= x -> norm (x, 0) = x.
Proof.
  intros H. unfold norm. simpl. replace (x * x + 0 * 0) with (x * x) by ring.
  apply sqrt_square. exact H.
Qed.

(** ** Footprints of the methods *)

Lemma bind_Ok_inv {S A B : Type} (m : M S A) (k : A -> M S B) (s s' : S) (b : B) :
  bind m k s = (s', Ok b) ->
  exists s1 a, m s = (s1, Ok a) /\ k a s1 = (s', Ok b).
Proof.
  unfold bind. destruct (m s) as [s1 [a|e]]; intros H.
  - exists s1, a. split; [reflexivity|exact H].
  - discriminate.
Qed.

Lemma touches_ret {A : Type} (P : Ident -> Prop) (a : A) : touches P (ret a).
Proof. intros w i _. reflexivity. Qed.

Lemma touches_raise {A : Type} (P : Ident -> Prop) (e : Exn) :
  touches P (@raise World A e).
Proof. intros w i _. reflexivity. Qed.

Lemma touches_get (P : Ident -> Prop) : touches P get.
Proof. intros w i _. reflexivity. Qed.

Lemma touches_lift_result {A : Type} (P : Ident -> Prop) (r : result A) :
  touches P (lift_result r).
Proof. intros w i _. reflexivity. Qed.

Lemma touches_bind {A B : Type} (P : Ident -> Prop) (m : M World A)
    (k : A -> M World B) :
  touches P m -> (forall a, touches P (k a)) -> touches P (bind m k).
Proof.
  intros Hm Hk w i Hi. unfold bind. specialize (Hm w i Hi).
  destruct (m w) as [w1 [a|e]]; simpl in *.
  - rewrite (Hk a w1 i Hi). exact Hm.
  - exact Hm.
Qed.

Lemma touches_assign (P : Ident -> Prop) (self : Ident) (f : Animal -> Animal) :
  P self -> touches P (assign self f).
Proof.
  intros Hself w i Hi. rewrite assign_run. simpl.
  apply fn_lookup_insert_ne. intros ->. contradiction.
Qed.

Lemma touches_for_each {A : Type} (P : Ident -> Prop) (l : list A)
    (body : A -> M World unit) :
  (forall x, x ∈ l -> touches P (body x)) -> touches P (for_each l body).
Proof.
  induction l as [|x l IH]; intros Hbody; simpl.
  - apply touches_ret.
  - apply touches_bind.
    + apply Hbody. left.
    + intros _. apply IH. intros y Hy. apply Hbody. right. exact Hy.
Qed.

(** The composition rules above, applied as far as they go. *)
Ltac footprint :=
  repeat first
    [ apply touches_ret | apply touches_raise | apply touches_get
    | apply touches_lift_result
    | apply touches_assign
    | apply touches_bind; [|intros ?]
    | match goal with
      | |- touches _ (if ?b then _ else _) => destruct b
      | |- touches _ (match ?o with Some _ => _ | None => _ end) => destruct o
      end ].

Lemma touches_reduce_health (P : Ident -> Prop) (self : Ident) (amount : R) :
  P self -> touches P (reduce_health self amount).
Proof. intros H. unfold reduce_health. footprint. exact H. Qed.

Lemma touches_inflict_damage (P : Ident -> Prop) (self animal : Ident) :
  P animal -> touches P (inflict_damage self animal).
Proof.
  intros H. unfold inflict_damage. footprint. exact H.
Qed.

Lemma touches_injure (P : Ident -> Prop) (c : Collision) :
  P (animal1 c) -> P (animal2 c) -> touches P (injure_animals_if_prey c).
Proof.
  intros H1 H2. unfold injure_animals_if_prey. footprint;
    try (apply touches_inflict_damage); assumption.
Qed.

Lemma touches_set_velocity (P : Ident -> Prop) (self : Ident) (v : Vec) :
  P self -> touches P (set_velocity self v).
Proof. intros H. unfold set_velocity. footprint; exact H. Qed.

Lemma touches_set_subject_animal (P : Ident -> Prop) (self : Ident)
    (animal : option Ident) :
  P self -> touches P (set_subject_animal self animal).
Proof. intros H. unfold set_subject_animal. footprint; exact H. Qed.

(** * Further properties of the code *)

(** ** movement.py: [collide] *)

Lemma rotate_back_inner (a s x y : R) :
  inner (dot ((a, - s), (s, a)) (x, y)) (dot ((a, - s), (s, a)) (x, y))
    = (x * x + y * y) * (a * a + s * s).
Proof. unfold inner, dot. simpl. ring. Qed.

Lemma rotate_inner (a s : R) (v : Vec) :
  inner (dot ((a, s), (- s, a)) v) (dot ((a, s), (- s, a)) v)
    = inner v v * (a * a + s * s).
Proof. unfold inner, dot. simpl. ring. Qed.

Lemma axis_unit (c : Vec) :
  norm c <> 0 ->
  fst c / norm c * (fst c / norm c)
    + Rabs (snd c) / norm c * (Rabs (snd c) / norm c) = 1.
Proof. intros Hn. exact (used_axis_unit c Hn). Qed.

Lemma norm_inner (v : Vec) : norm v = sqrt (inner v v).
Proof. reflexivity. Qed.

Lemma inner_sub_l (u v d : Vec) : inner (sub u v) d = inner u d - inner v d.
Proof. unfold inner, sub. simpl. ring. Qed.

(** X1. [collide] raises exactly when the axis is the zero vector, and then
    it is the [ValueError] of its first lines: the rotation matrix is always
    invertible, so [np.linalg.inv] never raises [LinAlgError], whatever the
    velocities and the masses are. *)
Theorem collide_raises_iff_zero_axis (c v1 v2 : Vec) (m1 m2 : R) :
  ((exists e, collide c v1 v2 m1 m2 = Raise e) <-> c = (0, 0)) /\
  (forall e, collide c v1 v2 m1 m2 = Raise e -> exists msg, e = ValueError msg) /\
  ((exists u1 u2, collide c v1 v2 m1 m2 = Ok (u1, u2)) <-> c <> (0, 0)).
Proof.
  assert (Hzero : c = (0, 0) ->
            exists msg, collide c v1 v2 m1 m2 = Raise (ValueError msg)).
  { intros ->. unfold collide.
    destruct (Req_dec_T (norm (0, 0)) 0) as [_|Hn].
    - eexists. reflexivity.
    - exfalso. apply Hn. apply norm_zero_iff. reflexivity. }
  assert (Hok : c <> (0, 0) -> exists u1 u2, collide c v1 v2 m1 m2 = Ok (u1, u2)).
  { intros Hc. assert (Hn : norm c <> 0).
    { intros Hn. apply Hc. apply norm_zero_iff. exact Hn. }
    destruct (collide_used_axis c v1 v2 m1 m2 Hn) as (u1 & u2 & H & _).
    exists u1, u2. exact H. }
  destruct (Req_dec_T (norm c) 0) as [Hc|Hc];
    [apply norm_zero_iff in Hc
    |assert (Hc' : c <> (0, 0)) by (intros E; apply Hc, norm_zero_iff, E);
     clear Hc; rename Hc' into Hc].
  - destruct (Hzero Hc) as [msg Hr]. split; [|split].
    + split; [intros _; exact Hc|intros _; eexists; exact Hr].
    + intros e He. rewrite Hr in He. injection He as <-. exists msg. reflexivity.
    + split; [|contradiction]. intros (u1 & u2 & H). rewrite Hr in H. discriminate.
  - destruct (Hok Hc) as (u1 & u2 & H). split; [|split].
    + split; [|contradiction]. intros [e He]. rewrite H in He. discriminate.
    + intros e He. rewrite H in He. discriminate.
    + split; [intros _; exact Hc|intros _; exists u1, u2; exact H].
Qed.

Lemma collide_conserves_energy (c v1 v2 u1 u2 : Vec) (m1 m2 : R) :
  norm c <> 0 -> m1 + m2 <> 0 ->
  collide c v1 v2 m1 m2 = Ok (u1, u2) ->
  m1 * inner u1 u1 + m2 * inner u2 u2 = m1 * inner v1 v1 + m2 * inner v2 v2.
Proof.
  intros Hn Hm Hrun.
  pose proof (collide_closed_form c v1 v2 m1 m2 Hn) as Hcf. cbv zeta in Hcf.
  pose proof (axis_unit c Hn) as Hunit.
  set (a := fst c / norm c) in *. set (s := Rabs (snd c) / norm c) in *.
  rewrite Hcf in Hrun. injection Hrun as <- <-.
  rewrite !rotate_back_inner. rewrite Hunit, !Rmult_1_r.
  pose proof (rotate_inner a s v1) as H1. pose proof (rotate_inner a s v2) as H2.
  rewrite Hunit, Rmult_1_r in H1, H2. rewrite <- H1, <- H2.
  unfold inner, dot. cbn [fst snd]. field. exact Hm.
Qed.

Lemma collide_momentum_vector (c v1 v2 u1 u2 : Vec) (m1 m2 : R) :
  norm c <> 0 -> m1 + m2 <> 0 ->
  collide c v1 v2 m1 m2 = Ok (u1, u2) ->
  add (scale u1 m1) (scale u2 m2) = add (scale v1 m1) (scale v2 m2).
Proof.
  intros Hn Hm Hrun.
  pose proof (collide_conserves_momentum c v1 v2 _ _ (1, 0) m1 m2 Hn Hm Hrun) as Hx.
  pose proof (collide_conserves_momentum c v1 v2 _ _ (0, 1) m1 m2 Hn Hm Hrun) as Hy.
  unfold inner in Hx, Hy. cbn [fst snd] in Hx, Hy.
  unfold add, scale. cbn [fst snd]. f_equal; lra.
Qed.

Lemma collide_relative_velocity (c v1 v2 u1 u2 : Vec) (m1 m2 : R) :
  norm c <> 0 -> m1 + m2 <> 0 ->
  collide c v1 v2 m1 m2 = Ok (u1, u2) ->
  inner (sub u1 u2) (used_axis c) = - inner (sub v1 v2) (used_axis c) /\
  inner (sub u1 u2) (perp (used_axis c)) = inner (sub v1 v2) (perp (used_axis c)) /\
  norm (sub u1 u2) = norm (sub v1 v2).
Proof.
  intros Hn Hm Hrun.
  destruct (collide_used_axis c v1 v2 m1 m2 Hn)
    as (u1' & u2' & H & Ha1 & Ha2 & Hp1 & Hp2).
  rewrite Hrun in H. injection H as <- <-.
  assert (Halong : inner (sub u1 u2) (used_axis c)
                   = - inner (sub v1 v2) (used_axis c)).
  { rewrite !inner_sub_l, Ha1, Ha2. field. exact Hm. }
  assert (Hacross : inner (sub u1 u2) (perp (used_axis c))
                    = inner (sub v1 v2) (perp (used_axis c))).
  { rewrite !inner_sub_l, Hp1, Hp2. reflexivity. }
  split; [exact Halong|]. split; [exact Hacross|].
  rewrite !norm_inner. f_equal.
  rewrite (inner_in_frame (used_axis c) (sub u1 u2) (sub u1 u2) (used_axis_unit c Hn)).
  rewrite (inner_in_frame (used_axis c) (sub v1 v2) (sub v1 v2) (used_axis_unit c Hn)).
  rewrite Halong, Hacross. ring.
Qed.

Lemma collide_returns (c v1 v2 : Vec) (m1 m2 : R) :
  c <> (0, 0) ->
  norm c <> 0 /\ exists u1 u2, collide c v1 v2 m1 m2 = Ok (u1, u2).
Proof.
  intros Hc. assert (Hn : norm c <> 0).
  { intros Hn. apply Hc. apply norm_zero_iff. exact Hn. }
  split; [exact Hn|].
  destruct (collide_used_axis c v1 v2 m1 m2 Hn) as (u1 & u2 & H & _).
  exists u1, u2. exact H.
Qed.

(** X2. [collide] is an elastic collision whatever the axis is: the total
    momentum (as a vector) and the total kinetic energy of the two bodies
    are the same before and after. *)
Theorem collide_conserves_momentum_and_energy (c v1 v2 : Vec) (m1 m2 : R) :
  c <> (0, 0) -> m1 + m2 <> 0 ->
  exists u1 u2,
    collide c v1 v2 m1 m2 = Ok (u1, u2) /\
    add (scale u1 m1) (scale u2 m2) = add (scale v1 m1) (scale v2 m2) /\
    m1 * inner u1 u1 + m2 * inner u2 u2 = m1 * inner v1 v1 + m2 * inner v2 v2.
Proof.
  intros Hc Hm.
  destruct (collide_returns c v1 v2 m1 m2 Hc) as (Hn & u1 & u2 & Hrun).
  exists u1, u2. split; [exact Hrun|]. split.
  - exact (collide_momentum_vector c v1 v2 u1 u2 m1 m2 Hn Hm Hrun).
  - exact (collide_conserves_energy c v1 v2 u1 u2 m1 m2 Hn Hm Hrun).
Qed.

(** X3. The coefficient of restitution of [collide] is one: along the axis
    it uses the relative velocity of the two bodies is reversed, across it
    is kept, and so the relative speed is the same before and after. *)
Theorem collide_reverses_relative_velocity (c v1 v2 : Vec) (m1 m2 : R) :
  c <> (0, 0) -> m1 + m2 <> 0 ->
  exists u1 u2,
    collide c v1 v2 m1 m2 = Ok (u1, u2) /\
    inner (sub u1 u2) (used_axis c) = - inner (sub v1 v2) (used_axis c) /\
    inner (sub u1 u2) (perp (used_axis c)) = inner (sub v1 v2) (perp (used_axis c)) /\
    norm (sub u1 u2) = norm (sub v1 v2).
Proof.
  intros Hc Hm.
  destruct (collide_returns c v1 v2 m1 m2 Hc) as (Hn & u1 & u2 & Hrun).
  exists u1, u2. split; [exact Hrun|].
  exact (collide_relative_velocity c v1 v2 u1 u2 m1 m2 Hn Hm Hrun).
Qed.

(** ** movement.py: [snap_to_grid_in_direction] *)

Lemma np_floor_bounds (r : R) : IZR (np_floor r) <= r < IZR (np_floor r) + 1.
Proof.
  unfold np_floor. rewrite minus_IZR. destruct (archimed r) as [H1 H2]. lra.
Qed.

Lemma np_ceil_bounds (r : R) : r <= IZR (np_ceil r) < r + 1.
Proof.
  unfold np_ceil. rewrite opp_IZR. pose proof (np_floor_bounds (- r)). lra.
Qed.

(** X4. [snap_to_grid_in_direction] returns a grid point less than one pixel
    away from [p1] in each coordinate, and never moves a coordinate against
    [direction]: up where the direction is positive, down otherwise.  A
    grid point is left where it is. *)
Theorem snap_to_grid_in_direction_spec (p1 direction : Vec) :
  let q := snap_to_grid_in_direction p1 direction in
  (exists z : Z * Z, q = of_Z z) /\
  Rabs (fst q - fst p1) < 1 /\ Rabs (snd q - snd p1) < 1 /\
  (0 < fst direction -> fst p1 <= fst q) /\
  (fst direction <= 0 -> fst q <= fst p1) /\
  (0 < snd direction -> snd p1 <= snd q) /\
  (snd direction <= 0 -> snd q <= snd p1) /\
  (forall z : Z * Z, p1 = of_Z z -> q = p1).
Proof.
  unfold snap_to_grid_in_direction. cbv zeta. cbn [fst snd].
  pose proof (np_floor_bounds (fst p1)) as Hfx.
  pose proof (np_ceil_bounds (fst p1)) as Hcx.
  pose proof (np_floor_bounds (snd p1)) as Hfy.
  pose proof (np_ceil_bounds (snd p1)) as Hcy.
  split; [eexists (_, _); reflexivity|].
  repeat split.
  - destruct (Rlt_dec 0 (fst direction)); apply Rabs_def1; lra.
  - destruct (Rlt_dec 0 (snd direction)); apply Rabs_def1; lra.
  - intros H. destruct (Rlt_dec 0 (fst direction)); lra.
  - intros H. destruct (Rlt_dec 0 (fst direction)); lra.
  - intros H. destruct (Rlt_dec 0 (snd direction)); lra.
  - intros H. destruct (Rlt_dec 0 (snd direction)); lra.
  - intros [zx zy] ->. unfold of_Z. cbn [fst snd].
    rewrite !np_floor_IZR, !np_ceil_IZR.
    destruct (Rlt_dec 0 (fst direction)), (Rlt_dec 0 (snd direction)); reflexivity.
Qed.

(** ** animal.py: distances and directions *)

Lemma of_Z_vector_to_swap (a b : Animal) :
  of_Z (vector_to b a) = neg (of_Z (vector_to a b)).
Proof.
  unfold of_Z, vector_to, neg. cbn [fst snd]. rewrite !minus_IZR. f_equal; ring.
Qed.

Lemma distance_to_sym (a b : Animal) : distance_to a b = distance_to b a.
Proof.
  unfold distance_to. rewrite (of_Z_vector_to_swap a b). symmetry. apply norm_neg.
Qed.

Lemma distance_to_same (a b : Animal) :
  position a = position b -> distance_to a b = 0.
Proof.
  intros H. unfold distance_to. apply norm_zero_iff.
  unfold of_Z, vector_to. rewrite H. cbn [fst snd]. rewrite !Z.sub_diag.
  reflexivity.
Qed.

Lemma distance_to_zero_iff (a b : Animal) :
  distance_to a b = 0 <-> position a = position b.
Proof. split; [apply distance_to_zero|apply distance_to_same]. Qed.

Lemma norm_add_le (u v : Vec) : norm (add u v) <= norm u + norm v.
Proof.
  pose proof (norm_nonneg u) as Hu. pose proof (norm_nonneg v) as Hv.
  pose proof (norm_nonneg (add u v)) as Huv.
  pose proof (norm_sqr u) as Su. pose proof (norm_sqr v) as Sv.
  pose proof (norm_sqr (add u v)) as Suv.
  destruct u as [ux uy], v as [vx vy].
  change (fst (add (ux, uy) (vx, vy))) with (ux + vx) in Suv.
  change (snd (add (ux, uy) (vx, vy))) with (uy + vy) in Suv.
  cbn [fst snd] in Su, Sv.
  generalize dependent (norm (add (ux, uy) (vx, vy))). intros n Hn Sn.
  generalize dependent (norm (ux, uy)). intros nu Hnu Snu.
  generalize dependent (norm (vx, vy)). intros nv Hnv Snv.
  pose proof (Rmult_le_pos nu nv Hnu Hnv) as Hprod.
  assert (Hcs : ux * vx + uy * vy <= nu * nv).
  { apply Rsqr_incr_0_var; [|exact Hprod]. unfold Rsqr.
    replace (nu * nv * (nu * nv)) with ((nu * nu) * (nv * nv)) by ring.
    rewrite Snu, Snv.
    pose proof (Rle_0_sqr (ux * vy - uy * vx)) as Hsq. unfold Rsqr in Hsq.
    lra. }
  apply Rsqr_incr_0_var; [|lra]. unfold Rsqr.
  replace ((nu + nv) * (nu + nv)) with (nu * nu + nv * nv + 2 * (nu * nv)) by ring.
  rewrite Sn, Snu, Snv. lra.
Qed.

(** X5. [distance_to] is a distance between the centres: symmetric, never
    negative, subject to the triangle inequality, its square is the integer
    [dx^2 + dy^2], and it is zero exactly when [on_top] holds, so the test
    [distance == 0] of [collide_animals] and the test [on_top] of the
    focus setter agree. *)
Theorem distance_to_is_a_distance (a b c : Animal) :
  0 <= distance_to a b /\
  distance_to a b = distance_to b a /\
  (distance_to a b = 0 <-> on_top a b = true) /\
  distance_to a b * distance_to a b
    = IZR ((fst (position b) - fst (position a)) ^ 2
           + (snd (position b) - snd (position a)) ^ 2) /\
  distance_to a c <= distance_to a b + distance_to b c.
Proof.
  split; [apply norm_nonneg|]. split; [apply distance_to_sym|]. split; [|split].
  - rewrite distance_to_zero_iff. unfold on_top.
    split; [intros H; apply bool_decide_eq_true; exact H
           |intros H; apply bool_decide_eq_true in H; exact H].
  - unfold distance_to. rewrite norm_sqr. unfold of_Z, vector_to. cbn [fst snd].
    rewrite plus_IZR, !Z.pow_2_r, !mult_IZR. reflexivity.
  - unfold distance_to.
    replace (of_Z (vector_to a c))
      with (add (of_Z (vector_to a b)) (of_Z (vector_to b c))).
    + apply norm_add_le.
    + unfold add, of_Z, vector_to. cbn [fst snd]. rewrite !minus_IZR.
      f_equal; ring.
Qed.

Lemma norm_scale (v : Vec) (k : R) : norm (scale v k) = norm v * Rabs k.
Proof.
  unfold norm, scale. cbn [fst snd].
  replace (fst v * k * (fst v * k) + snd v * k * (snd v * k))
    with ((fst v * fst v + snd v * snd v) * (k * k)) by ring.
  rewrite sqrt_mult_alt.
  - f_equal. fold (Rsqr k). apply sqrt_Rsqr_abs.
  - nra.
Qed.

Lemma normalized_vector_to_cases (a b : Animal) :
  (position a = position b ->
   exists msg, normalized_vector_to a b = Raise (ValueError msg)) /\
  (position a <> position b ->
   exists d,
     normalized_vector_to a b = Ok d /\
     norm d = 1 /\
     scale d (distance_to a b) = of_Z (vector_to a b) /\
     normalized_vector_to b a = Ok (neg d)).
Proof.
  split.
  - intros H. unfold normalized_vector_to.
    destruct (Req_dec_T (distance_to a b) 0) as [_|Hn].
    + eexists. reflexivity.
    + exfalso. apply Hn, distance_to_same, H.
  - intros H. assert (Hd : distance_to a b <> 0).
    { intros E. apply H, distance_to_zero, E. }
    assert (Hpos : 0 < distance_to a b) by (apply norm_pos; exact Hd).
    unfold normalized_vector_to.
    destruct (Req_dec_T (distance_to a b) 0) as [E|_]; [contradiction|].
    destruct (Req_dec_T (distance_to b a) 0) as [E|_];
      [rewrite distance_to_sym in E; contradiction|].
    eexists. split; [reflexivity|]. split; [|split].
    + unfold distance_to in *. apply norm_div_self. exact Hpos.
    + unfold scale, div. cbn [fst snd].
      destruct (of_Z (vector_to a b)) as [x y]. cbn [fst snd].
      f_equal; field; exact Hd.
    + rewrite (distance_to_sym b a), (of_Z_vector_to_swap a b).
      f_equal. unfold div, neg. cbn [fst snd]. f_equal; field; exact Hd.
Qed.

(** X6. [normalized_vector_to] raises its [ValueError] exactly when the two
    animals have the same position; otherwise it returns the unit vector
    that points from [self] to the other animal, and the opposite vector
    when the roles are exchanged. *)
Theorem normalized_vector_to_spec (a b : Animal) :
  (position a = position b ->
   exists msg, normalized_vector_to a b = Raise (ValueError msg)) /\
  (position a <> position b ->
   exists d,
     normalized_vector_to a b = Ok d /\
     norm d = 1 /\
     scale d (distance_to a b) = of_Z (vector_to a b) /\
     normalized_vector_to b a = Ok (neg d)).
Proof. exact (normalized_vector_to_cases a b). Qed.

(** ** animal.py: the setter of [subject_animal] *)

Lemma subject_cell_position (w : World) (self : Ident) (o : option Ident)
    (i : Ident) :
  position ((<[self := with_subject_animal o (w self)]> w) i) = position (w i).
Proof.
  destruct (decide (i = self)) as [->|Hne].
  - rewrite fn_lookup_insert. reflexivity.
  - rewrite fn_lookup_insert_ne by congruence. reflexivity.
Qed.

Lemma subject_cell_eats (w : World) (self : Ident) (o : option Ident)
    (i : Ident) :
  eats ((<[self := with_subject_animal o (w self)]> w) i) = eats (w i).
Proof.
  destruct (decide (i = self)) as [->|Hne].
  - rewrite fn_lookup_insert. reflexivity.
  - rewrite fn_lookup_insert_ne by congruence. reflexivity.
Qed.

Lemma normalized_vector_to_position (a a' b b' : Animal) :
  position a = position a' -> position b = position b' ->
  normalized_vector_to a b = normalized_vector_to a' b'.
Proof.
  intros Ha Hb. unfold normalized_vector_to.
  rewrite (distance_to_position a a' b b' Ha Hb).
  unfold vector_to. rewrite Ha, Hb. reflexivity.
Qed.

Lemma set_subject_animal_Some_run (self animal : Ident) (w : World) :
  let cell := with_subject_animal (Some animal) (w self) in
  let magnitude := propulsion_force_magnitude (w self) in
  set_subject_animal self (Some animal) w =
    if on_top (w self) (w animal) then
      (<[self := with_propulsion_force (0, 0) cell]> w, Ok tt)
    else if wants_to_eat (w self) animal then
      match normalized_vector_to (w self) (w animal) with
      | Ok d => (<[self := with_propulsion_force (scale d magnitude) cell]> w, Ok tt)
      | Raise e => (<[self := cell]> w, Raise e)
      end
    else if wants_to_eat (w animal) self then
      match normalized_vector_to (w self) (w animal) with
      | Ok d =>
          (<[self := with_propulsion_force (scale (neg d) magnitude) cell]> w, Ok tt)
      | Raise e => (<[self := cell]> w, Raise e)
      end
    else
      (<[self := cell]> w,
       Raise (ValueError "The given subject animal is neither prey nor hunter, this is probably a bug.")).
Proof.
  cbv zeta. unfold set_subject_animal.
  unfold bind at 1. rewrite assign_run. unfold bind at 1, get. cbn beta iota.
  set (w1 := <[self := with_subject_animal (Some animal) (w self)]> w).
  assert (Hself : w1 self = with_subject_animal (Some animal) (w self))
    by (unfold w1; apply fn_lookup_insert).
  rewrite (on_top_position (w1 self) (w self) (w1 animal) (w animal))
    by apply subject_cell_position.
  rewrite (normalized_vector_to_position (w1 self) (w self) (w1 animal) (w animal))
    by apply subject_cell_position.
  assert (Heats : forall i, eats (w1 i) = eats (w i))
    by (intros i; apply subject_cell_eats).
  unfold wants_to_eat. rewrite !Heats.
  destruct (on_top (w self) (w animal)).
  { rewrite assign_run, Hself. unfold w1. rewrite fn_insert_insert. reflexivity. }
  destruct (bool_decide (animal ∈ eats (w self))).
  { unfold bind, lift_result.
    destruct (normalized_vector_to (w self) (w animal)) as [d|e]; [|reflexivity].
    rewrite assign_run, Hself. unfold w1. rewrite fn_insert_insert. reflexivity. }
  destruct (bool_decide (self ∈ eats (w animal))).
  { unfold bind, lift_result.
    destruct (normalized_vector_to (w self) (w animal)) as [d|e]; [|reflexivity].
    rewrite assign_run, Hself. unfold w1. rewrite fn_insert_insert. reflexivity. }
  reflexivity.
Qed.

(** X7. What the setter of the focus does with an animal.  The focus is
    stored first, and only the cell of [self] is written.  On top of the
    focus the animal gets no propulsion; a prey is chased with a force of
    the animal's propulsion magnitude along the line of the centres; an
    animal that is only a hunter is fled from with the opposite force; a
    prey that is also a hunter is chased.  With an animal that is neither,
    the setter raises, and the object keeps the new focus together with its
    old force. *)
Theorem subject_animal_setter_policy (w : World) (self animal : Ident) :
  let w' := fst (set_subject_animal self (Some animal) w) in
  let outcome := snd (set_subject_animal self (Some animal) w) in
  let pull := scale (of_Z (vector_to (w self) (w animal)))
                (propulsion_force_magnitude (w self)
                 / distance_to (w self) (w animal)) in
  (forall i, i <> self -> w' i = w i) /\
  _subject_animal (w' self) = Some animal /\
  (position (w self) = position (w animal) ->
   outcome = Ok tt /\ propulsion_force (w' self) = (0, 0)) /\
  (position (w self) <> position (w animal) -> animal ∈ eats (w self) ->
   outcome = Ok tt /\ propulsion_force (w' self) = pull /\
   norm (propulsion_force (w' self)) = Rabs (propulsion_force_magnitude (w self))) /\
  (position (w self) <> position (w animal) -> animal ∉ eats (w self) ->
   self ∈ eats (w animal) ->
   outcome = Ok tt /\ propulsion_force (w' self) = neg pull /\
   norm (propulsion_force (w' self)) = Rabs (propulsion_force_magnitude (w self))) /\
  (position (w self) <> position (w animal) -> animal ∉ eats (w self) ->
   self ∉ eats (w animal) ->
   (exists msg, outcome = Raise (ValueError msg)) /\
   w' self = with_subject_animal (Some animal) (w self)).
Proof.
  cbv zeta. rewrite set_subject_animal_Some_run. cbv zeta.
  unfold on_top, wants_to_eat.
  destruct (normalized_vector_to_cases (w self) (w animal)) as [_ Hdir].
  assert (Hpull : forall d,
    position (w self) <> position (w animal) ->
    scale d (distance_to (w self) (w animal)) = of_Z (vector_to (w self) (w animal)) ->
    scale d (propulsion_force_magnitude (w self))
      = scale (of_Z (vector_to (w self) (w animal)))
          (propulsion_force_magnitude (w self) / distance_to (w self) (w animal))).
  { intros d Hne <-. assert (Hd : distance_to (w self) (w animal) <> 0).
    { intros E. apply Hne, distance_to_zero, E. }
    unfold scale. cbn [fst snd]. f_equal; field; exact Hd. }
  assert (Hneg : forall d k, scale (neg d) k = neg (scale d k)).
  { intros d k. unfold scale, neg. cbn [fst snd]. f_equal; ring. }
  destruct (decide (position (w self) = position (w animal))) as [Hpos|Hpos].
  - rewrite (bool_decide_eq_true_2 _ Hpos). cbn [fst snd].
    split; [intros i Hi; apply fn_lookup_insert_ne; congruence|].
    rewrite fn_lookup_insert. split; [reflexivity|].
    split; [intros _; split; reflexivity|].
    repeat split; intros; contradiction.
  - rewrite (bool_decide_eq_false_2 _ Hpos).
    destruct (Hdir Hpos) as (d & Hd & Hunit & Hscale & _). rewrite Hd.
    destruct (decide (animal ∈ eats (w self))) as [Hprey|Hprey].
    + rewrite (bool_decide_eq_true_2 _ Hprey). cbn [fst snd].
      split; [intros i Hi; apply fn_lookup_insert_ne; congruence|].
      rewrite fn_lookup_insert. split; [reflexivity|].
      split; [intros E; contradiction|].
      split; [|split; intros; contradiction].
      intros _ _. split; [reflexivity|]. unfold with_propulsion_force. cbn [propulsion_force].
      split; [apply Hpull; assumption|].
      rewrite norm_scale, Hunit. ring.
    + rewrite (bool_decide_eq_false_2 _ Hprey).
      destruct (decide (self ∈ eats (w animal))) as [Hhunter|Hhunter].
      * rewrite (bool_decide_eq_true_2 _ Hhunter). cbn [fst snd].
        split; [intros i Hi; apply fn_lookup_insert_ne; congruence|].
        rewrite fn_lookup_insert. split; [reflexivity|].
        split; [intros E; contradiction|].
        split; [intros; contradiction|].
        split; [|intros; contradiction].
        intros _ _ _. split; [reflexivity|]. unfold with_propulsion_force. cbn [propulsion_force].
        split; [rewrite Hneg; f_equal; apply Hpull; assumption|].
        rewrite norm_scale, norm_neg, Hunit. ring.
      * rewrite (bool_decide_eq_false_2 _ Hhunter). cbn [fst snd].
        split; [intros i Hi; apply fn_lookup_insert_ne; congruence|].
        rewrite fn_lookup_insert. split; [reflexivity|].
        split; [intros E; contradiction|].
        split; [intros; contradiction|].
        split; [intros; contradiction|].
        intros _ _ _. split; [eexists; reflexivity|reflexivity].
Qed.

(** ** collision.py: [injure_animals_if_prey] *)

Lemma inflict_damage_run (self animal : Ident) (w : World) :
  inflict_damage self animal w
    = (<[animal := with_health
                     (health (w animal) - damage_infliction_magnitude (w self))
                     (w animal)]> w, Ok tt).
Proof. unfold inflict_damage, bind, get. apply reduce_health_run. Qed.

Lemma with_health_same (a : Animal) : with_health (health a - 0) a = a.
Proof. rewrite Rminus_0_r. apply with_health_id. Qed.

Lemma injure_animals_if_prey_run (c : Collision) (w : World) :
  injure_animals_if_prey c w =
    let w1 := if wants_to_eat (w (animal1 c)) (animal2 c)
              then fst (inflict_damage (animal1 c) (animal2 c) w) else w in
    let w2 := if wants_to_eat (w1 (animal2 c)) (animal1 c)
              then fst (inflict_damage (animal2 c) (animal1 c) w1) else w1 in
    (w2, Ok tt).
Proof.
  unfold injure_animals_if_prey. unfold bind at 1, get. cbn beta iota.
  unfold bind at 1.
  destruct (wants_to_eat (w (animal1 c)) (animal2 c)).
  - rewrite inflict_damage_run. cbn [fst]. unfold bind, get. cbn beta iota.
    match goal with |- context [wants_to_eat ?x ?y] =>
      destruct (wants_to_eat x y) end.
    + rewrite inflict_damage_run. reflexivity.
    + reflexivity.
  - unfold ret at 1. cbn beta iota. unfold bind, get. cbn beta iota.
    destruct (wants_to_eat (w (animal2 c)) (animal1 c)).
    + rewrite inflict_damage_run. reflexivity.
    + reflexivity.
Qed.

(** X8. A collision hurts an animal exactly when the other one wants to eat
    it: the health of each of the two distinct animals drops by the damage
    magnitude of the other one if that one eats it, and by nothing
    otherwise; two animals that eat each other are both hurt.  Nothing else
    in the heap changes, and [animals_were_injured] gives the same answer
    after the call as before. *)
Theorem injure_animals_if_prey_effect (w : World) (c : Collision) :
  animal1 c <> animal2 c ->
  let w' := fst (injure_animals_if_prey c w) in
  let bite (hunter prey : Ident) : R :=
    if wants_to_eat (w hunter) prey
    then damage_infliction_magnitude (w hunter) else 0 in
  snd (injure_animals_if_prey c w) = Ok tt /\
  w' (animal1 c)
    = with_health (health (w (animal1 c)) - bite (animal2 c) (animal1 c))
        (w (animal1 c)) /\
  w' (animal2 c)
    = with_health (health (w (animal2 c)) - bite (animal1 c) (animal2 c))
        (w (animal2 c)) /\
  (forall i, i <> animal1 c -> i <> animal2 c -> w' i = w i) /\
  animals_were_injured c w' = animals_were_injured c w.
Proof.
  destruct c as [a b]. cbn [animal1 animal2]. intros Hne. cbv zeta.
  rewrite injure_animals_if_prey_run. cbv zeta. cbn [animal1 animal2 fst snd].
  unfold animals_were_injured. cbn [animal1 animal2].
  split; [reflexivity|].
  destruct (wants_to_eat (w a) b) eqn:Eab.
  - rewrite inflict_damage_run. cbn [fst].
    set (w1 := <[b := _]> w).
    assert (Ha1 : w1 a = w a) by (unfold w1; apply fn_lookup_insert_ne; congruence).
    assert (Hb1 : w1 b = with_health (health (w b) - damage_infliction_magnitude (w a)) (w b))
      by (unfold w1; apply fn_lookup_insert).
    assert (Eba1 : wants_to_eat (w1 b) a = wants_to_eat (w b) a)
      by (rewrite Hb1; reflexivity).
    rewrite Eba1. destruct (wants_to_eat (w b) a) eqn:Eba.
    + rewrite inflict_damage_run. cbn [fst]. rewrite Ha1, Hb1.
      split; [apply fn_lookup_insert|]. split.
      { rewrite fn_lookup_insert_ne by congruence. exact Hb1. }
      split.
      { intros i Hia Hib. rewrite fn_lookup_insert_ne by congruence.
        unfold w1. apply fn_lookup_insert_ne. congruence. }
      rewrite fn_lookup_insert, fn_lookup_insert_ne, Hb1 by congruence.
      unfold wants_to_eat in *. cbn. rewrite Eab. reflexivity.
    + rewrite Ha1, Hb1.
      split; [symmetry; apply with_health_same|].
      split; [reflexivity|]. split.
      { intros i Hia Hib. unfold w1. apply fn_lookup_insert_ne. congruence. }
      unfold wants_to_eat in *. cbn. rewrite Eab. reflexivity.
  - destruct (wants_to_eat (w b) a) eqn:Eba.
    + rewrite inflict_damage_run. cbn [fst].
      split; [apply fn_lookup_insert|]. split.
      { rewrite fn_lookup_insert_ne by congruence. symmetry. apply with_health_same. }
      split.
      { intros i Hia Hib. apply fn_lookup_insert_ne. congruence. }
      rewrite fn_lookup_insert, fn_lookup_insert_ne by congruence.
      unfold wants_to_eat in *. cbn. rewrite Eba.
      rewrite orb_true_r. reflexivity.
    + split; [symmetry; apply with_health_same|].
      split; [symmetry; apply with_health_same|].
      split; [reflexivity|]. rewrite Eab, Eba. reflexivity.
Qed.

(** ** animal.py: the death animation of [AnimalImage] *)

Lemma AnimalImage_update_dead (i : AnimalImage.t) :
  HealthBar.is_dead (AnimalImage.health_bar i) = true ->
  AnimalImage.update i
    = AnimalImage.mk (AnimalImage.health_bar i) (AnimalImage.num_death_frames i)
        (AnimalImage.death_frames_executed i + 1).
Proof. intros H. unfold AnimalImage.update. rewrite H. reflexivity. Qed.

Lemma AnimalImage_update_alive (i : AnimalImage.t) :
  HealthBar.is_dead (AnimalImage.health_bar i) = false -> AnimalImage.update i = i.
Proof. intros H. unfold AnimalImage.update. rewrite H. reflexivity. Qed.

Lemma AnimalImage_update_keeps (i : AnimalImage.t) :
  AnimalImage.health_bar (AnimalImage.update i) = AnimalImage.health_bar i.
Proof.
  unfold AnimalImage.update.
  destruct (HealthBar.is_dead (AnimalImage.health_bar i)); reflexivity.
Qed.

Lemma AnimalImage_update_keeps_num (i : AnimalImage.t) :
  AnimalImage.num_death_frames (AnimalImage.update i)
    = AnimalImage.num_death_frames i.
Proof.
  unfold AnimalImage.update.
  destruct (HealthBar.is_dead (AnimalImage.health_bar i)); reflexivity.
Qed.

(** X9. The death animation.  [update] leaves the image of a live animal as
    it is.  On the image of a dead one every [update] counts one more
    frame, turns the picture by ten more degrees, zooms it by one more
    tenth and lowers [alpha] by [256 / num_death_frames]; the animation is
    finished once the count exceeds
    [num_death_frames], which for an image that has not started takes
    [num_death_frames + 1] updates.  The health bar is never changed. *)
Theorem death_animation_progress (i : AnimalImage.t) (n : nat) :
  let i' := Nat.iter n AnimalImage.update i in
  AnimalImage.health_bar i' = AnimalImage.health_bar i /\
  AnimalImage.num_death_frames i' = AnimalImage.num_death_frames i /\
  (HealthBar.is_dead (AnimalImage.health_bar i) = false -> i' = i) /\
  (HealthBar.is_dead (AnimalImage.health_bar i) = true ->
   AnimalImage.death_frames_executed i'
     = (AnimalImage.death_frames_executed i + Z.of_nat n)%Z /\
   AnimalImage.angle i' = (AnimalImage.angle i + 10 * Z.of_nat n)%Z /\
   AnimalImage.scale i' = AnimalImage.scale i + INR n / 10 /\
   (AnimalImage.num_death_frames i <> 0%Z ->
    AnimalImage.alpha i'
      = AnimalImage.alpha i
        - INR n / IZR (AnimalImage.num_death_frames i) * 256) /\
   (AnimalImage.death_frames_executed i = 0%Z ->
    (0 <= AnimalImage.num_death_frames i)%Z ->
    (AnimalImage.death_animation_finished i' = true
     <-> (Z.to_nat (AnimalImage.num_death_frames i) + 1 <= n)%nat))).
Proof.
  cbv zeta.
  assert (Hbar : forall k, AnimalImage.health_bar (Nat.iter k AnimalImage.update i)
                           = AnimalImage.health_bar i).
  { induction k as [|k IH]; [reflexivity|]. rewrite Nat.iter_succ.
    rewrite AnimalImage_update_keeps. exact IH. }
  assert (Hnum : forall k, AnimalImage.num_death_frames (Nat.iter k AnimalImage.update i)
                           = AnimalImage.num_death_frames i).
  { induction k as [|k IH]; [reflexivity|]. rewrite Nat.iter_succ.
    rewrite AnimalImage_update_keeps_num. exact IH. }
  split; [apply Hbar|]. split; [apply Hnum|]. split.
  - intros Halive. induction n as [|k IH]; [reflexivity|]. rewrite Nat.iter_succ.
    rewrite IH. apply AnimalImage_update_alive. exact Halive.
  - intros Hdead.
    assert (Hframes : forall k,
      AnimalImage.death_frames_executed (Nat.iter k AnimalImage.update i)
        = (AnimalImage.death_frames_executed i + Z.of_nat k)%Z).
    { induction k as [|k IH]; [cbn; lia|]. rewrite Nat.iter_succ.
      rewrite AnimalImage_update_dead by (rewrite Hbar; exact Hdead).
      cbn [AnimalImage.death_frames_executed]. rewrite IH. lia. }
    split; [apply Hframes|]. split; [|split; [|split]].
    + unfold AnimalImage.angle. rewrite Hframes. lia.
    + unfold AnimalImage.scale. rewrite Hframes, plus_IZR, <- INR_IZR_INZ. field.
    + intros Hnz. unfold AnimalImage.alpha.
      rewrite Hnum, Hframes, plus_IZR, <- INR_IZR_INZ. field.
      apply not_0_IZR. exact Hnz.
    + intros Hstart Hpos. unfold AnimalImage.death_animation_finished.
      rewrite Hnum, Hframes, Hstart. rewrite Z.ltb_lt. lia.
Qed.

(** ** engine.py: the walls of the game board *)

Lemma collided_with_wall_run (screen : Screen) (animal : Animal) :
  let x := (fst (position animal) + radius animal)%Z in
  let y := (snd (position animal) + radius animal)%Z in
  let walls := GameBoard.walls (GameBoard.init screen) in
  GameBoard.collided_with_wall (GameBoard.init screen) animal =
    if (y - 35 <? 0)%Z then wall_named walls "top"
    else if (x - 30 <? 0)%Z then wall_named walls "left"
    else if (get_height screen - y - 4 <? 0)%Z then wall_named walls "bottom"
    else if (get_width screen - x - 30 <? 0)%Z then wall_named walls "right"
    else None.
Proof. reflexivity. Qed.

Lemma collided_with_wall_None_iff (screen : Screen) (animal : Animal) :
  let x := (fst (position animal) + radius animal)%Z in
  let y := (snd (position animal) + radius animal)%Z in
  GameBoard.collided_with_wall (GameBoard.init screen) animal = None <->
  (35 <= y /\ 30 <= x /\ y <= get_height screen - 4 /\ x <= get_width screen - 30)%Z.
Proof.
  cbv zeta. rewrite collided_with_wall_run. cbv zeta.
  repeat match goal with
    | |- context [(?a <? 0)%Z] => destruct (Z.ltb_spec a 0)
    end;
    split; intros Hgoal; try (cbn in Hgoal; discriminate); try reflexivity; lia.
Qed.

(** X10. The playing field.  [collided_with_wall] finds no wall exactly
    when the point [position + radius] (the radius added to both
    coordinates) lies in the rectangle from [(30, 35)] to
    [(width - 30, height - 4)].  Otherwise it returns one wall, a breached
    one, and the walls are tried in the order top, left, bottom, right: an
    animal beyond two walls at a corner is given the first of them. *)
Theorem collided_with_wall_field (screen : Screen) (animal : Animal) :
  let x := (fst (position animal) + radius animal)%Z in
  let y := (snd (position animal) + radius animal)%Z in
  let walls := GameBoard.walls (GameBoard.init screen) in
  let hit := GameBoard.collided_with_wall (GameBoard.init screen) animal in
  (hit = None <->
   (35 <= y /\ 30 <= x /\ y <= get_height screen - 4 /\ x <= get_width screen - 30)%Z) /\
  (forall wall, hit = Some wall -> (Wall.distance_to wall animal < 0)%Z) /\
  ((y < 35)%Z -> hit = wall_named walls "top") /\
  ((35 <= y)%Z -> (x < 30)%Z -> hit = wall_named walls "left") /\
  ((35 <= y)%Z -> (30 <= x)%Z -> (get_height screen - 4 < y)%Z ->
   hit = wall_named walls "bottom") /\
  ((35 <= y)%Z -> (30 <= x)%Z -> (y <= get_height screen - 4)%Z ->
   (get_width screen - 30 < x)%Z -> hit = wall_named walls "right").
Proof.
  cbv zeta. split; [apply collided_with_wall_None_iff|].
  rewrite collided_with_wall_run. cbv zeta.
  repeat match goal with
    | |- context [(?a <? 0)%Z] => destruct (Z.ltb_spec a 0)
    end;
    (split;
     [intros wall Hw; cbn in Hw; try discriminate; injection Hw as <-;
      unfold Wall.distance_to; cbn; lia
     |repeat split; intros; try reflexivity; lia]).
Qed.

(** X11. The walls lie inside the region that counts as on screen: an
    animal that breaches no wall, and whose radius is at most its width
    and its height (as [__init__] sets it), is not [off_screen]. *)
Theorem inside_walls_on_screen (screen : Screen) (animal : Animal) :
  (0 <= radius animal)%Z ->
  (radius animal <= width (rect animal))%Z ->
  (radius animal <= height (rect animal))%Z ->
  GameBoard.collided_with_wall (GameBoard.init screen) animal = None ->
  off_screen animal screen = false.
Proof.
  intros Hr Hw Hh Hnone. apply collided_with_wall_None_iff in Hnone.
  cbv zeta in Hnone. unfold off_screen.
  repeat (apply orb_false_intro); apply Z.ltb_ge; lia.
Qed.

(** ** lint/lint.py: [pin_groups_against_each_other] *)

Lemma with_eats_same (a : Animal) : with_eats (eats a) a = a.
Proof. destruct a. reflexivity. Qed.

Lemma adds_prey_refl (R : Ident -> Ident -> Prop) (w : World) :
  (forall a x, ~ R a x) -> adds_prey R w w.
Proof.
  intros HR a. split; [symmetry; apply with_eats_same|].
  intros x. split; [tauto|]. intros [H|H]; [exact H|]. exfalso. exact (HR a x H).
Qed.

Lemma adds_prey_equiv (R R' : Ident -> Ident -> Prop) (w w' : World) :
  (forall a x, R a x <-> R' a x) -> adds_prey R w w' -> adds_prey R' w w'.
Proof.
  intros HR H a. destruct (H a) as [Hcell Heats]. split; [exact Hcell|].
  intros x. rewrite Heats, HR. reflexivity.
Qed.

Lemma adds_prey_trans (R1 R2 : Ident -> Ident -> Prop) (w w1 w2 : World) :
  adds_prey R1 w w1 -> adds_prey R2 w1 w2 ->
  adds_prey (fun a x => R1 a x \/ R2 a x) w w2.
Proof.
  intros H1 H2 a. destruct (H1 a) as [Hc1 He1]. destruct (H2 a) as [Hc2 He2].
  split.
  - rewrite Hc2 at 1. rewrite Hc1. reflexivity.
  - intros x. rewrite He2, He1. tauto.
Qed.

Lemma for_each_adds_prey {A : Type} (l : list A) (body : A -> M World unit)
    (R : A -> Ident -> Ident -> Prop) :
  (forall x, x ∈ l -> forall w, exists w',
     body x w = (w', Ok tt) /\ adds_prey (R x) w w') ->
  forall w, exists w',
    for_each l body w = (w', Ok tt) /\
    adds_prey (fun a y => exists x, x ∈ l /\ R x a y) w w'.
Proof.
  induction l as [|x l IH]; intros Hbody w.
  - exists w. split; [reflexivity|]. apply adds_prey_refl.
    intros a y (x & Hx & _). apply elem_of_nil in Hx. exact Hx.
  - destruct (Hbody x ltac:(left) w) as (w1 & Hrun1 & Hadd1).
    destruct (IH (fun y Hy => Hbody y ltac:(right; exact Hy)) w1)
      as (w2 & Hrun2 & Hadd2).
    exists w2. split; [simpl; unfold bind; rewrite Hrun1; exact Hrun2|].
    eapply adds_prey_equiv; [|exact (adds_prey_trans _ _ _ _ _ Hadd1 Hadd2)].
    intros a y. cbn beta. split.
    + intros [H|(z & Hz & H)]; [exists x; split; [left|exact H]|].
      exists z. split; [right; exact Hz|exact H].
    + intros (z & Hz & H). apply elem_of_cons in Hz as [->|Hz]; [left; exact H|].
      right. exists z. split; assumption.
Qed.

Lemma also_likes_to_eat_adds (self : Ident) (animals : list Ident) (w : World) :
  self ∉ animals ->
  exists w',
    also_likes_to_eat self animals w = (w', Ok tt) /\
    adds_prey (fun a x => a = self /\ x ∈ animals) w w'.
Proof.
  intros Hself. destruct (also_likes_to_eat_ok self animals w Hself) as [Hok Hcell].
  pose proof (also_likes_to_eat_other self animals w) as Hother.
  destruct (also_likes_to_eat self animals w) as [w' r]. cbn [fst snd] in *.
  subst r. exists w'. split; [reflexivity|]. intros a.
  destruct (decide (a = self)) as [->|Hne].
  - rewrite Hcell. split; [reflexivity|]. intros x. cbn [eats with_eats].
    rewrite elem_of_union, elem_of_list_to_set. tauto.
  - rewrite (Hother a Hne). split; [symmetry; apply with_eats_same|].
    intros x. split; [tauto|]. intros [H|[H _]]; [exact H|contradiction].
Qed.

Lemma also_likes_to_eat_self_raises (self : Ident) (animals : list Ident)
    (w : World) :
  self ∈ animals -> snd (also_likes_to_eat self animals w) <> Ok tt.
Proof.
  intros Hin. apply list_elem_of_split_l in Hin as (pre & post & -> & Hpre).
  destruct (also_likes_to_eat_raise self pre post w Hpre) as [Hr _].
  rewrite Hr. discriminate.
Qed.

Lemma for_each_Ok_inv {S A : Type} (l : list A) (body : A -> M S unit)
    (s s' : S) (x : A) :
  for_each l body s = (s', Ok tt) -> x ∈ l ->
  exists s1 s2, body x s1 = (s2, Ok tt).
Proof.
  revert s. induction l as [|y l IH]; intros s Hrun Hx.
  - apply elem_of_nil in Hx. contradiction.
  - simpl in Hrun. unfold bind in Hrun.
    destruct (body y s) as [s1 [[]|e]] eqn:Ey; [|discriminate].
    apply elem_of_cons in Hx as [->|Hx].
    + exists s, s1. exact Ey.
    + exact (IH s1 Hrun Hx).
Qed.

(** X23. The linter sets the groups of animals against each other.  When no
    animal belongs to two different groups, [pin_groups_against_each_other]
    does not raise, and afterwards every animal eats, besides its old prey,
    exactly the animals of the groups other than its own; nothing else is
    written.  The predation it adds is symmetric, which is what
    [update_subject_animal] relies on ("if a given animal is the prey of
    another, the other animal must also be the prey of this one").  When
    an animal does belong to two different groups, the call raises. *)
Theorem pin_groups_makes_mutual_enemies (animal_groups : list (list Ident))
    (w : World) :
  let w' := fst (pin_groups_against_each_other animal_groups w) in
  let disjoint := forall a x, in_different_groups animal_groups a x -> a <> x in
  (snd (pin_groups_against_each_other animal_groups w) = Ok tt <-> disjoint) /\
  (disjoint ->
   adds_prey (in_different_groups animal_groups) w w' /\
   ((forall a, eats (w a) = ∅) ->
    forall a x, x ∈ eats (w' a) <-> a ∈ eats (w' x))).
Proof.
  cbv zeta.
  assert (Hgood : (forall a x, in_different_groups animal_groups a x -> a <> x) ->
    exists w', pin_groups_against_each_other animal_groups w = (w', Ok tt) /\
               adds_prey (in_different_groups animal_groups) w w').
  { intros Hdis. unfold pin_groups_against_each_other.
    destruct (for_each_adds_prey animal_groups
      (fun animal_group =>
         for_each animal_groups (fun other_animal_group =>
           if decide (animal_group = other_animal_group) then ret tt
           else for_each animal_group (fun animal =>
                  also_likes_to_eat animal other_animal_group)))
      (fun g a x => exists g', g' ∈ animal_groups /\ g <> g' /\ a ∈ g /\ x ∈ g'))
      with (w := w) as (w' & Hrun & Hadd).
    - intros g Hg w0.
      destruct (for_each_adds_prey animal_groups
        (fun other_animal_group =>
           if decide (g = other_animal_group) then ret tt
           else for_each g (fun animal =>
                  also_likes_to_eat animal other_animal_group))
        (fun g' a x => g <> g' /\ a ∈ g /\ x ∈ g')) with (w := w0)
        as (w1 & Hrun1 & Hadd1).
      + intros g' Hg' w2. destruct (decide (g = g')) as [->|Hne].
        * exists w2. split; [reflexivity|]. apply adds_prey_refl.
          intros a x (Hc & _). apply Hc. reflexivity.
        * destruct (for_each_adds_prey g
            (fun animal => also_likes_to_eat animal g')
            (fun animal a x => a = animal /\ x ∈ g')) with (w := w2)
            as (w3 & Hrun3 & Hadd3).
          -- intros animal Ha w4. apply also_likes_to_eat_adds.
             intros Hin. apply (Hdis animal animal); [|reflexivity].
             exists g, g'. repeat split; assumption.
          -- exists w3. split; [exact Hrun3|].
             eapply adds_prey_equiv; [|exact Hadd3]. intros a x. cbn beta. split.
             ++ intros (animal & Ha & -> & Hx). repeat split; assumption.
             ++ intros (_ & Ha & Hx). exists a. repeat split; assumption.
      + exists w1. split; [exact Hrun1|].
        eapply adds_prey_equiv; [|exact Hadd1]. intros a x. cbn beta. split.
        * intros (g' & Hg' & Hne & Ha & Hx). exists g'. repeat split; assumption.
        * intros (g' & Hg' & Hne & Ha & Hx). exists g'. repeat split; assumption.
    - exists w'. split; [exact Hrun|].
      eapply adds_prey_equiv; [|exact Hadd]. intros a x. cbn beta.
      unfold in_different_groups. split.
      + intros (g & Hg & g' & Hg' & Hne & Ha & Hx). exists g, g'.
        repeat split; assumption.
      + intros (g & g' & Hg & Hg' & Hne & Ha & Hx). exists g. split; [exact Hg|].
        exists g'. repeat split; assumption. }
  split; [split|].
  - intros Hok a x (g & g' & Hg & Hg' & Hne & Ha & Hx) ->.
    destruct (pin_groups_against_each_other animal_groups w) as [w' r] eqn:Hrun.
    cbn [snd] in Hok. subst r. unfold pin_groups_against_each_other in Hrun.
    destruct (for_each_Ok_inv _ _ _ _ g Hrun Hg) as (w1 & w2 & Hrun1).
    destruct (for_each_Ok_inv _ _ _ _ g' Hrun1 Hg') as (w3 & w4 & Hrun2).
    destruct (decide (g = g')) as [E|_]; [contradiction|].
    destruct (for_each_Ok_inv _ _ _ _ x Hrun2 Ha) as (w5 & w6 & Hrun3).
    apply (also_likes_to_eat_self_raises x g' w5 Hx). rewrite Hrun3. reflexivity.
  - intros Hdis. destruct (Hgood Hdis) as (w' & Hrun & _). rewrite Hrun. reflexivity.
  - intros Hdis. destruct (Hgood Hdis) as (w' & Hrun & Hadd). rewrite Hrun.
    cbn [fst]. split; [exact Hadd|]. intros Hempty a x.
    destruct (Hadd a) as [_ Ha]. destruct (Hadd x) as [_ Hx].
    rewrite Ha, Hx, !Hempty. unfold in_different_groups. split.
    + intros [H|(g & g' & Hg & Hg' & Hne & Hag & Hxg)];
        [apply not_elem_of_empty in H; contradiction|].
      right. exists g', g. repeat split; try assumption. congruence.
    + intros [H|(g & g' & Hg & Hg' & Hne & Hag & Hxg)];
        [apply not_elem_of_empty in H; contradiction|].
      right. exists g', g. repeat split; try assumption. congruence.
Qed.

(** ** engine.py: [TextLine] and [EndText] *)

Lemma next_typed_line (s : string) :
  TextLine.next (typed_line s) = (s, typed_line s).
Proof.
  unfold TextLine.next, typed_line. cbn [TextLine.text TextLine.text_index].
  rewrite Nat.ltb_irrefl. reflexivity.
Qed.

Lemma complete_lines_typed (i : nat) (done : list string)
    (rest : list TextLine.t) :
  EndText.complete_lines i (map typed_line done ++ rest)
    = seq i (length done) ++ EndText.complete_lines (i + length done) rest.
Proof.
  revert i. induction done as [|s done IH]; intros i.
  - cbn [map app length seq]. rewrite Nat.add_0_r. reflexivity.
  - cbn [map app length seq EndText.complete_lines].
    cbn [TextLine.is_complete typed_line TextLine.complete].
    rewrite IH. rewrite Nat.add_succ_comm. reflexivity.
Qed.

Lemma complete_lines_fresh (i : nat) (todo : list string) :
  EndText.complete_lines i (map TextLine.init todo) = [].
Proof.
  revert i. induction todo as [|s todo IH]; intros i; [reflexivity|].
  cbn [map EndText.complete_lines TextLine.is_complete TextLine.init
       TextLine.complete]. apply IH.
Qed.

Lemma line_centres_S (screen : Screen) (n : nat) :
  line_centres screen (S n)
    = line_centres screen n
      ++ [(IZR (get_width screen) / 2,
           IZR (get_height screen) / 2 + EndText.FONT_SIZE * INR n)].
Proof. unfold line_centres. rewrite seq_S, map_app. reflexivity. Qed.

Lemma draw_line_step (screen : Screen) (text : list TextLine.t)
    (drawn : list (string * (R * R))) (h : R) (i : nat) (object : TextLine.t) :
  text !! i = Some object ->
  h = EndText.FONT_SIZE * INR (length drawn) ->
  map snd drawn = line_centres screen (length drawn) ->
  exists drawn',
    EndText.draw_line screen (text, drawn, h) i
      = (<[i := snd (TextLine.next object)]> text, drawn',
         EndText.FONT_SIZE * INR (length drawn')) /\
    map fst drawn' = map fst drawn ++ [fst (TextLine.next object)] /\
    map snd drawn' = line_centres screen (length drawn').
Proof.
  intros Hi Hh Hc. unfold EndText.draw_line. rewrite Hi.
  destruct (TextLine.next object) as [line_text object'].
  eexists. split; [|split].
  - f_equal. rewrite length_app. cbn [length]. rewrite Nat.add_1_r, S_INR, Hh.
    ring.
  - rewrite map_app. reflexivity.
  - rewrite map_app, length_app. cbn [length map snd]. rewrite Nat.add_1_r.
    rewrite line_centres_S, Hc, Hh. reflexivity.
Qed.

Lemma draw_typed_lines (screen : Screen) (done : list string)
    (pre rest : list TextLine.t) (drawn : list (string * (R * R))) :
  map snd drawn = line_centres screen (length drawn) ->
  exists drawn',
    fold_left (EndText.draw_line screen) (seq (length pre) (length done))
      (pre ++ map typed_line done ++ rest, drawn,
       EndText.FONT_SIZE * INR (length drawn))
      = (pre ++ map typed_line done ++ rest, drawn',
         EndText.FONT_SIZE * INR (length drawn')) /\
    map fst drawn' = map fst drawn ++ done /\
    map snd drawn' = line_centres screen (length drawn').
Proof.
  revert pre drawn. induction done as [|s done IH]; intros pre drawn Hc.
  - exists drawn. split; [reflexivity|]. split; [|exact Hc].
    rewrite app_nil_r. reflexivity.
  - cbn [length seq fold_left map].
    assert (Hi : (pre ++ typed_line s :: map typed_line done ++ rest)
                 !! length pre = Some (typed_line s))
      by (apply list_lookup_middle; reflexivity).
    destruct (draw_line_step screen _ drawn _ (length pre) _ Hi eq_refl Hc)
      as (drawn1 & Hrun & Hf & Hs).
    cbn [app] in Hrun |- *. rewrite Hrun. rewrite next_typed_line in Hrun, Hf |- *.
    cbn [fst snd] in *. rewrite (list_insert_id _ _ _ Hi).
    specialize (IH (pre ++ [typed_line s]) drawn1 Hs).
    rewrite length_app in IH. cbn [length] in IH. rewrite Nat.add_1_r in IH.
    rewrite <- !app_assoc in IH. cbn [app] in IH.
    destruct IH as (drawn' & Hfold & Hf' & Hs').
    exists drawn'. split; [exact Hfold|]. split; [|exact Hs'].
    rewrite Hf', Hf, <- app_assoc. reflexivity.
Qed.

Lemma update_and_draw_typing (screen : Screen) (done : list string)
    (current : string) (k : nat) (todo : list string) :
  (k <= String.length current)%nat ->
  let shown := if (k <? String.length current)%nat
               then String.substring 0 k current else current in
  let text' := if (k <? String.length current)%nat
               then typing done current (S k) todo
               else map typed_line (done ++ [current]) ++ map TextLine.init todo in
  exists drawn,
    EndText.update_and_draw screen (typing done current k todo) = (text', drawn) /\
    map fst drawn = done ++ [shown] /\
    map snd drawn = line_centres screen (S (length done)).
Proof.
  intros Hk. cbv zeta.
  assert (Hlines : EndText.get_lines_to_draw (typing done current k todo)
                   = seq 0 (length done) ++ [length done]).
  { unfold EndText.get_lines_to_draw, typing. rewrite complete_lines_typed.
    cbn [EndText.complete_lines TextLine.is_complete TextLine.complete].
    rewrite complete_lines_fresh, app_nil_r, length_seq.
    assert (Hlt : (length done
                   <? length (map typed_line done
                              ++ TextLine.mk current k false
                                 :: map TextLine.init todo))%nat = true).
    { apply Nat.ltb_lt. rewrite length_app, length_map. cbn [length]. lia. }
    rewrite Hlt. reflexivity. }
  unfold EndText.update_and_draw. rewrite Hlines. unfold typing at 1.
  rewrite fold_left_app.
  destruct (draw_typed_lines screen done []
              (TextLine.mk current k false :: map TextLine.init todo) [] eq_refl)
    as (drawn1 & Hfold & Hf & Hs).
  cbn [app length INR] in Hfold. cbn [map app] in Hf.
  replace (EndText.FONT_SIZE * 0) with 0 in Hfold by ring.
  rewrite Hfold. cbn [fold_left].
  assert (Hlen : length drawn1 = length done).
  { rewrite <- (length_map fst), Hf. reflexivity. }
  assert (Hi : (map typed_line done
                ++ TextLine.mk current k false :: map TextLine.init todo)
               !! length done = Some (TextLine.mk current k false))
    by (apply list_lookup_middle; rewrite length_map; reflexivity).
  destruct (draw_line_step screen _ drawn1 _ (length done) _ Hi eq_refl Hs)
    as (drawn2 & Hrun & Hf2 & Hs2).
  rewrite Hrun. cbn [fst]. exists drawn2.
  assert (Hlen2 : length drawn2 = S (length done)).
  { rewrite <- (length_map fst), Hf2, length_app, Hf. cbn [app length]. lia. }
  split; [|split].
  - f_equal. rewrite insert_app_r_alt by (rewrite length_map; lia).
    rewrite length_map, Nat.sub_diag. cbn [insert list_insert].
    unfold TextLine.next. cbn [TextLine.text TextLine.text_index TextLine.complete].
    destruct (k <? String.length current)%nat eqn:Ek; cbn [snd].
    + rewrite Nat.add_1_r. reflexivity.
    + apply Nat.ltb_ge in Ek. assert (k = String.length current) by lia. subst k.
      rewrite map_app, <- app_assoc. reflexivity.
  - rewrite Hf2, Hf. cbn [app]. f_equal. f_equal.
    unfold TextLine.next. cbn [TextLine.text TextLine.text_index].
    destruct (k <? String.length current)%nat; reflexivity.
  - rewrite Hs2, Hlen2. reflexivity.
Qed.

Lemma update_and_draw_typed (screen : Screen) (all : list string) :
  exists drawn,
    EndText.update_and_draw screen (map typed_line all)
      = (map typed_line all, drawn) /\
    map fst drawn = all /\
    map snd drawn = line_centres screen (length all).
Proof.
  assert (Hlines : EndText.get_lines_to_draw (map typed_line all)
                   = seq 0 (length all)).
  { unfold EndText.get_lines_to_draw.
    pose proof (complete_lines_typed 0 all []) as Hc. rewrite app_nil_r in Hc.
    rewrite Hc. cbn [EndText.complete_lines]. rewrite app_nil_r, length_seq.
    rewrite length_map, Nat.ltb_irrefl. reflexivity. }
  unfold EndText.update_and_draw. rewrite Hlines.
  destruct (draw_typed_lines screen all [] [] [] eq_refl)
    as (drawn & Hfold & Hf & Hs).
  cbn [app length INR] in Hfold. rewrite app_nil_r in Hfold.
  cbn [map app] in Hf.
  replace (EndText.FONT_SIZE * 0) with 0 in Hfold by ring.
  rewrite Hfold. cbn [fst]. exists drawn. split; [reflexivity|].
  split; [exact Hf|]. rewrite Hs. f_equal.
  rewrite <- (length_map fst), Hf. reflexivity.
Qed.

Lemma substring_full (s : string) : String.substring 0 (String.length s) s = s.
Proof. induction s as [|c s IH]; [reflexivity|]. simpl. rewrite IH. reflexivity. Qed.

(** X24. A line is typed out one character per call.  The call number
    [n + 1] of [next] on a line returns the first [n] characters of its
    text, and the whole text once [n] has reached its length; the line is
    complete after one call more than its text has characters, and not
    before. *)
Theorem text_line_typewriter (s : string) (n : nat) :
  let line := Nat.iter n (fun l => snd (TextLine.next l)) (TextLine.init s) in
  fst (TextLine.next line)
    = String.substring 0 (Nat.min n (String.length s)) s /\
  TextLine.text line = s /\
  TextLine.text_index line = Nat.min n (String.length s) /\
  TextLine.is_complete line = (String.length s <? n)%nat.
Proof.
  cbv zeta.
  assert (Hstate : Nat.iter n (fun l => snd (TextLine.next l)) (TextLine.init s)
                   = TextLine.mk s (Nat.min n (String.length s))
                       (String.length s <? n)%nat).
  { induction n as [|n IH]; [reflexivity|].
    rewrite Nat.iter_succ, IH. unfold TextLine.next.
    cbn [TextLine.text TextLine.text_index TextLine.complete].
    destruct (Nat.min n (String.length s) <? String.length s)%nat eqn:E; cbn [snd].
    - apply Nat.ltb_lt in E. f_equal; [lia|].
      assert (H1 : (String.length s <? n)%nat = false) by (apply Nat.ltb_ge; lia).
      assert (H2 : (String.length s <? S n)%nat = false) by (apply Nat.ltb_ge; lia).
      rewrite H1, H2. reflexivity.
    - apply Nat.ltb_ge in E. f_equal; [lia|].
      symmetry. apply Nat.ltb_lt. lia. }
  rewrite Hstate. cbn [TextLine.text TextLine.text_index TextLine.is_complete
                       TextLine.complete].
  split; [|repeat split]. unfold TextLine.next.
  cbn [TextLine.text TextLine.text_index].
  destruct (Nat.min n (String.length s) <? String.length s)%nat eqn:E; cbn [fst].
  - reflexivity.
  - apply Nat.ltb_ge in E.
    replace (Nat.min n (String.length s)) with (String.length s) by lia.
    symmetry. apply substring_full.
Qed.

Lemma frames_left_app (l1 l2 : list TextLine.t) :
  frames_left (l1 ++ l2) = (frames_left l1 + frames_left l2)%nat.
Proof.
  induction l1 as [|x l1 IH]; [reflexivity|].
  cbn [app frames_left fold_right]. fold (frames_left (l1 ++ l2)).
  fold (frames_left l1). rewrite IH. lia.
Qed.

Lemma frames_left_typed (all : list string) : frames_left (map typed_line all) = 0%nat.
Proof.
  induction all as [|s all IH]; [reflexivity|].
  cbn [map frames_left fold_right typed_line TextLine.complete].
  fold (frames_left (map typed_line all)). rewrite IH. reflexivity.
Qed.

Lemma frames_left_typing (done : list string) (current : string) (k : nat)
    (todo : list string) :
  frames_left (typing done current k todo)
    = (String.length current - k + 1 + frames_left (map TextLine.init todo))%nat.
Proof.
  unfold typing. rewrite frames_left_app, frames_left_typed.
  cbn [frames_left fold_right TextLine.complete TextLine.text TextLine.text_index].
  reflexivity.
Qed.

Lemma typing_frame (screen : Screen) (texts : list string)
    (text : list TextLine.t) :
  text = map typed_line texts \/
  (exists done current k todo,
     texts = done ++ current :: todo /\ (k <= String.length current)%nat /\
     text = typing done current k todo) ->
  let text' := fst (EndText.update_and_draw screen text) in
  (text' = map typed_line texts \/
   (exists done current k todo,
      texts = done ++ current :: todo /\ (k <= String.length current)%nat /\
      text' = typing done current k todo)) /\
  frames_left text' = (frames_left text - 1)%nat.
Proof.
  cbv zeta. intros [->|(done & current & k & todo & -> & Hk & ->)].
  - destruct (update_and_draw_typed screen texts) as (drawn & Hrun & _).
    rewrite Hrun. cbn [fst]. split; [left; reflexivity|].
    rewrite frames_left_typed. reflexivity.
  - pose proof (update_and_draw_typing screen done current k todo Hk) as Hstep.
    cbv zeta in Hstep. destruct Hstep as (drawn & Hrun & _). rewrite Hrun.
    cbn [fst]. rewrite frames_left_typing.
    destruct (k <? String.length current)%nat eqn:Ek.
    + apply Nat.ltb_lt in Ek. split.
      * right. exists done, current, (S k), todo.
        split; [reflexivity|]. split; [lia|reflexivity].
      * rewrite frames_left_typing. lia.
    + apply Nat.ltb_ge in Ek. split.
      * destruct todo as [|t todo].
        -- left. cbn [map]. rewrite app_nil_r. reflexivity.
        -- right. exists (done ++ [current]), t, 0%nat, todo.
           split; [rewrite <- app_assoc; reflexivity|]. split; [lia|reflexivity].
      * rewrite frames_left_app, frames_left_typed. lia.
Qed.

(** X25. The closing text is typed out line by line.  Every call of
    [update_and_draw] draws the lines that are typed out in full and, below
    them, the line in progress with one character more than in the call
    before; a line is not started before the line above it is complete;
    the lines are drawn [FONT_SIZE] apart, from the middle of the screen
    downwards.  A text whose lines have [l1, ..., lm] characters is complete
    after [(l1 + 1) + ... + (lm + 1)] calls and not before, and from then on
    every call draws all of it. *)
Theorem end_text_types_line_by_line (screen : Screen) (texts : list string)
    (n : nat) :
  let frame := fun text => fst (EndText.update_and_draw screen text) in
  let text := Nat.iter n frame (map TextLine.init texts) in
  let drawn := snd (EndText.update_and_draw screen text) in
  let needed := fold_right (fun s m => String.length s + 1 + m)%nat 0%nat texts in
  frames_left text = (needed - n)%nat /\
  (Forall (fun line => TextLine.is_complete line = true) text
   <-> (needed <= n)%nat) /\
  map snd drawn = line_centres screen (length drawn) /\
  ((needed <= n)%nat -> text = map typed_line texts /\ map fst drawn = texts) /\
  ((n < needed)%nat ->
   exists done current k todo,
     texts = done ++ current :: todo /\ (k <= String.length current)%nat /\
     text = typing done current k todo /\
     map fst drawn
       = done ++ [if (k <? String.length current)%nat
                  then String.substring 0 k current else current]).
Proof.
  cbv zeta.
  set (frame := fun text => fst (EndText.update_and_draw screen text)).
  assert (Hneeded : frames_left (map TextLine.init texts)
                    = fold_right (fun s m => String.length s + 1 + m)%nat 0%nat texts).
  { induction texts as [|s texts IH]; [reflexivity|].
    cbn [map frames_left fold_right TextLine.init TextLine.complete
         TextLine.text TextLine.text_index].
    fold (frames_left (map TextLine.init texts)). rewrite IH. lia. }
  rewrite <- Hneeded.
  assert (Hstart : map TextLine.init texts = map typed_line texts \/
    (exists done current k todo,
       texts = done ++ current :: todo /\ (k <= String.length current)%nat /\
       map TextLine.init texts = typing done current k todo)).
  { destruct texts as [|s texts]; [left; reflexivity|].
    right. exists [], s, 0%nat, texts. split; [reflexivity|].
    split; [lia|reflexivity]. }
  assert (Hiter : forall m,
    (Nat.iter m frame (map TextLine.init texts) = map typed_line texts \/
     (exists done current k todo,
        texts = done ++ current :: todo /\ (k <= String.length current)%nat /\
        Nat.iter m frame (map TextLine.init texts) = typing done current k todo)) /\
    frames_left (Nat.iter m frame (map TextLine.init texts))
      = (frames_left (map TextLine.init texts) - m)%nat).
  { induction m as [|m [IHwf IHleft]].
    - split; [exact Hstart|]. rewrite Nat.sub_0_r. reflexivity.
    - rewrite Nat.iter_succ.
      pose proof (typing_frame screen texts _ IHwf) as Hstep. cbv zeta in Hstep.
      destruct Hstep as [Hwf Hleft]. split; [exact Hwf|].
      unfold frame at 1. rewrite Hleft, IHleft. lia. }
  destruct (Hiter n) as [Hwf Hleft].
  set (text := Nat.iter n frame (map TextLine.init texts)) in *.
  split; [exact Hleft|].
  destruct Hwf as [Hdone|(done & current & k & todo & Htexts & Hk & Htyping)].
  - destruct (update_and_draw_typed screen texts) as (drawn & Hrun & Hf & Hs).
    rewrite Hdone in *. rewrite frames_left_typed in Hleft.
    rewrite Hrun. cbn [snd].
    assert (Hlen : length drawn = length texts)
      by (rewrite <- (length_map fst), Hf; reflexivity).
    split; [|split; [rewrite Hs, Hlen; reflexivity|split]].
    + split; [intros _; lia|]. intros _. apply Forall_forall.
      intros line Hin. apply list_elem_of_fmap in Hin as (s & -> & _). reflexivity.
    + intros _. split; [reflexivity|exact Hf].
    + intros Hlt. lia.
  - pose proof (update_and_draw_typing screen done current k todo Hk) as Hstep.
    cbv zeta in Hstep. destruct Hstep as (drawn & Hrun & Hf & Hs).
    rewrite Htyping in *. rewrite frames_left_typing in Hleft.
    rewrite Hrun. cbn [snd].
    assert (Hlen : length drawn = S (length done)).
    { rewrite <- (length_map fst), Hf, length_app. cbn [length]. lia. }
    split; [|split; [rewrite Hs, Hlen; reflexivity|split]].
    + split; [|intros Hle; lia]. intros Hall. exfalso.
      rewrite Forall_forall in Hall.
      specialize (Hall (TextLine.mk current k false)).
      assert (Hin : TextLine.mk current k false ∈ typing done current k todo).
      { unfold typing. apply elem_of_app. right. left. }
      specialize (Hall Hin). discriminate.
    + intros Hle. lia.
    + intros _. exists done, current, k, todo.
      split; [exact Htexts|]. split; [exact Hk|]. split; [reflexivity|exact Hf].
Qed.
(** * Facts about movement and the simulation loop *)

Section Facts.

Variable collide_circle : Animal -> Animal -> bool.
Variable rect_coord : R -> Z.
Variable set_order : gset Ident -> list Ident.

(** ** Collision with a wall *)

Lemma norm_unit_x (s : R) : s * s = 1 -> norm (s, 0) = 1.
Proof.
  intros H. unfold norm. simpl. replace (s * s + 0 * 0) with 1 by lra.
  apply sqrt_1.
Qed.

Lemma norm_unit_y (s : R) : s * s = 1 -> norm (0, s) = 1.
Proof.
  intros H. unfold norm. simpl. replace (0 * 0 + s * s) with 1 by lra.
  apply sqrt_1.
Qed.

Lemma gameboard_walls (screen : Screen) (name : string) (wall : Wall.t) :
  (name, wall) ∈ GameBoard.walls (GameBoard.init screen) ->
  (name = "top"%string /\ Wall.normal wall = (0, 1)) \/
  (name = "left"%string /\ Wall.normal wall = (1, 0)) \/
  (name = "bottom"%string /\ Wall.normal wall = (0, -1)) \/
  (name = "right"%string /\ Wall.normal wall = (-1, 0)).
Proof.
  simpl. rewrite !elem_of_cons, elem_of_nil.
  intros [H|[H|[H|[H|[]]]]]; injection H as -> ->; simpl.
  - left. split; [reflexivity|].
    rewrite norm_unit_y by lra. unfold div. simpl. f_equal; field.
  - right; left. split; [reflexivity|].
    rewrite norm_unit_x by lra. unfold div. simpl. f_equal; field.
  - right; right; left. split; [reflexivity|].
    rewrite norm_unit_y by lra. unfold div. simpl. f_equal; field.
  - right; right; right. split; [reflexivity|].
    rewrite norm_unit_x by lra. unfold div. simpl. f_equal; field.
Qed.

Lemma gameboard_normal_axis (screen : Screen) (name : string) (wall : Wall.t) :
  (name, wall) ∈ GameBoard.walls (GameBoard.init screen) ->
  norm (Wall.normal wall) = 1 /\
  (0 <= snd (Wall.normal wall) \/ fst (Wall.normal wall) = 0).
Proof.
  intros H. apply gameboard_walls in H.
  destruct H as [[_ ->]|[[_ ->]|[[_ ->]|[_ ->]]]]; simpl.
  - split; [apply norm_unit_y; lra|left; lra].
  - split; [apply norm_unit_x; lra|left; lra].
  - split; [apply norm_unit_y; lra|right; reflexivity].
  - split; [apply norm_unit_x; lra|left; lra].
Qed.

Lemma wall_mass_value : wall_mass = 1000000000000000.
Proof. unfold wall_mass. simpl. lra. Qed.

Lemma set_position_run (self : Ident) (value : Vec) (w : World) :
  set_position rect_coord self value w
    = (<[self := with_rect_center (rect_coord (fst value), rect_coord (snd value))
                   (w self)]> w, Ok tt).
Proof. reflexivity. Qed.

(** The velocity that [collide_animal_into_wall] assigns is the first result
    of [collide], whatever the correction of the position was. *)
Lemma collide_animal_into_wall_velocity (animal : Ident) (wall : Wall.t)
    (w : World) (u1 u2 : Vec) :
  collide (Wall.normal wall) (_velocity (w animal)) (0, 0) 1 wall_mass
    = Ok (u1, u2) ->
  snd (collide_animal_into_wall rect_coord animal wall w) = Ok tt /\
  _velocity (fst (collide_animal_into_wall rect_coord animal wall w) animal) = u1.
Proof.
  intros Hc. unfold collide_animal_into_wall, bind, get, lift_result.
  set (fix_position := if (_ <? 0)%Z then _ else _).
  assert (Hfix : exists w1, fix_position w = (w1, Ok tt) /\
                            _velocity (w1 animal) = _velocity (w animal)).
  { subst fix_position. destruct (_ <? 0)%Z.
    - rewrite set_position_run. eexists. split; [reflexivity|].
      read_written. reflexivity.
    - exists w. split; reflexivity. }
  destruct Hfix as (w1 & -> & Hv). rewrite Hv, Hc. cbn beta iota.
  rewrite set_velocity_run. cbn [fst snd]. read_written.
  split; reflexivity.
Qed.

(** C4. Against each of the four walls of the game board, a wall of mass
    [10^15] at rest, [collide_animal_into_wall] does not raise and turns the
    component of the velocity along the wall normal into its negation scaled
    by [(10^15 - 1) / (10^15 + 1)], that is the negation up to a relative
    error of [2 / 10^15]; the tangential component is unchanged.  Velocity
    [(-10, -10)] against the top wall becomes [(-10, 10)] up to [10^-13]. *)
Theorem wall_reflection (screen : Screen) (name : string) (wall : Wall.t)
    (animal : Ident) (w : World) :
  (name, wall) ∈ GameBoard.walls (GameBoard.init screen) ->
  let w' := fst (collide_animal_into_wall rect_coord animal wall w) in
  let n := Wall.normal wall in
  let v := _velocity (w animal) in
  let v' := _velocity (w' animal) in
  snd (collide_animal_into_wall rect_coord animal wall w) = Ok tt /\
  inner v' n = - ((wall_mass - 1) / (wall_mass + 1)) * inner v n /\
  Rabs (inner v' n - - inner v n) <= 2 / 10 ^ 15 * Rabs (inner v n) /\
  inner v' (perp n) = inner v (perp n) /\
  (name = "top"%string -> v = (-10, -10) ->
   fst v' = -10 /\ Rabs (snd v' - 10) <= 1 / 10 ^ 13).
Proof.
  intros Hwall w' n v v'.
  destruct (gameboard_normal_axis screen name wall Hwall) as [Hnorm Hside].
  assert (Hn : norm n <> 0) by (subst n; rewrite Hnorm; lra).
  destruct (collide_along_axis n v (0, 0) 1 wall_mass Hn Hside)
    as (u1 & u2 & Hc & H1 & _ & H3 & _).
  destruct (collide_animal_into_wall_velocity animal wall w u1 u2 Hc) as [Hok Hv].
  fold w' in Hv. fold v' in Hv. rewrite Hv.
  pose proof wall_mass_value as HM.
  assert (Hzero : inner (0, 0) n = 0) by (unfold inner; simpl; ring).
  rewrite Hzero in H1.
  assert (Hk : inner u1 n = - ((wall_mass - 1) / (wall_mass + 1)) * inner v n).
  { rewrite H1. field. lra. }
  split; [exact Hok|]. split; [exact Hk|]. split; [|split; [exact H3|]].
  - rewrite Hk.
    replace (- ((wall_mass - 1) / (wall_mass + 1)) * inner v n - - inner v n)
      with (2 / (wall_mass + 1) * inner v n) by (field; lra).
    rewrite Rabs_mult. apply Rmult_le_compat_r; [apply Rabs_pos|].
    rewrite Rabs_pos_eq.
    + rewrite HM. simpl. lra.
    + rewrite HM. lra.
  - intros -> Hvel.
    apply gameboard_walls in Hwall.
    destruct Hwall as [[_ Htop]|[[Hf _]|[[Hf _]|[Hf _]]]]; try discriminate Hf.
    subst n. rewrite Htop in Hk, H3. rewrite Hvel in Hk, H3.
    unfold inner, perp in Hk, H3. simpl in Hk, H3.
    split; [lra|].
    assert (Hs : snd u1 = 10 * ((wall_mass - 1) / (wall_mass + 1))) by lra.
    rewrite Hs, HM.
    replace (10 * ((1000000000000000 - 1) / (1000000000000000 + 1)) - 10)
      with (- (20 / 1000000000000001)) by (field; lra).
    rewrite Rabs_Ropp, Rabs_pos_eq by lra. simpl. lra.
Qed.

(** ** Detection of the collisions between animals *)

Lemma elem_of_group_remove (g : Group) (x y : Ident) :
  y ∈ group_remove g x <-> y ∈ g /\ y <> x.
Proof. unfold group_remove. rewrite list_elem_of_filter. tauto. Qed.

Lemma find_collision_Some (w : World) (animal : Ident) (g : Group) (c : Collision) :
  find_collision collide_circle w animal g = Some c ->
  animal1 c = animal /\ animal2 c ∈ g /\
  collide_circle (w (animal1 c)) (w (animal2 c)) = true.
Proof.
  induction g as [|other rest IH]; simpl; [discriminate|].
  destruct (collide_circle (w animal) (w other)) eqn:E.
  - intros [= <-]. simpl. split; [reflexivity|]. split; [left|exact E].
  - intros H. destruct (IH H) as (H1 & H2 & H3).
    split; [exact H1|]. split; [right; exact H2|exact H3].
Qed.

Lemma collision_animals_snoc (cs : list Collision) (c : Collision) :
  collision_animals (cs ++ [c]) = collision_animals cs ++ [animal1 c; animal2 c].
Proof. unfold collision_animals. rewrite flat_map_app. simpl. reflexivity. Qed.

(** The invariant of the loop: the animals already paired are pairwise
    distinct and none of them is left in the working group. *)
Lemma find_collisions_loop_disjoint (w : World) (g : Group) (cs : list Collision) :
  NoDup (collision_animals cs) ->
  (forall x, x ∈ collision_animals cs -> x ∉ g) ->
  NoDup (collision_animals (find_collisions_loop collide_circle w g cs)).
Proof.
  funelim (find_collisions_loop collide_circle w g cs); intros Hnd Hdis.
  - exact Hnd.
  - match goal with Hf : find_collision collide_circle _ _ _ = Some _ |- _ =>
      destruct (find_collision_Some _ _ _ _ Hf) as (H1 & H2 & _) end.
    apply elem_of_group_remove in H2 as [H2 Hne]. 
    match goal with IH : _ -> _ -> _ |- NoDup _ => apply IH end.
    + rewrite collision_animals_snoc. apply NoDup_app. split; [exact Hnd|].
      split.
      * intros x Hx Hin. apply (Hdis x Hx).
        apply elem_of_cons in Hin as [->|Hin].
        -- rewrite H1. left.
        -- apply elem_of_cons in Hin as [->|Hin]; [exact H2|].
           apply elem_of_nil in Hin. contradiction.
      * apply NoDup_cons. split.
        -- rewrite H1. intros Hin. apply elem_of_cons in Hin as [E|Hin];
             [congruence|]. apply elem_of_nil in Hin. contradiction.
        -- apply NoDup_singleton.
    + intros x Hx Hin.
      apply elem_of_group_remove in Hin as [Hin Hx2].
      apply elem_of_group_remove in Hin as [Hin Hx1].
      apply elem_of_group_remove in Hin as [Hin _].
      rewrite collision_animals_snoc in Hx. apply elem_of_app in Hx as [Hx|Hx].
      * exact (Hdis x Hx Hin).
      * apply elem_of_cons in Hx as [->|Hx]; [contradiction|].
        apply elem_of_cons in Hx as [->|Hx]; [contradiction|].
        apply elem_of_nil in Hx. contradiction.
  - match goal with IH : _ -> _ -> _ |- NoDup _ => apply IH end.
    + exact Hnd.
    + intros x Hx Hin. apply elem_of_group_remove in Hin as [Hin _].
      exact (Hdis x Hx Hin).
Qed.

(** Every collision reported is between two members of the working group or
    was reported before. *)
Lemma find_collisions_loop_sound (w : World) (g : Group) (cs : list Collision)
    (P : Collision -> Prop) :
  (forall c, animal1 c ∈ g -> animal2 c ∈ g ->
     collide_circle (w (animal1 c)) (w (animal2 c)) = true -> P c) ->
  Forall P cs ->
  Forall P (find_collisions_loop collide_circle w g cs).
Proof.
  funelim (find_collisions_loop collide_circle w g cs); intros HP Hcs.
  - exact Hcs.
  - match goal with Hf : find_collision collide_circle _ _ _ = Some _ |- _ =>
      destruct (find_collision_Some _ _ _ _ Hf) as (H1 & H2 & H3) end.
    apply elem_of_group_remove in H2 as [H2 _].
    match goal with IH : _ -> _ -> _ |- Forall _ _ => apply IH end.
    + intros c Hc1 Hc2.
      apply elem_of_group_remove in Hc1 as [Hc1 _].
      apply elem_of_group_remove in Hc1 as [Hc1 _].
      apply elem_of_group_remove in Hc1 as [Hc1 _].
      apply elem_of_group_remove in Hc2 as [Hc2 _].
      apply elem_of_group_remove in Hc2 as [Hc2 _].
      apply elem_of_group_remove in Hc2 as [Hc2 _].
      apply HP; assumption.
    + apply Forall_app. split; [exact Hcs|]. apply Forall_singleton.
      apply HP; [rewrite H1; left|exact H2|exact H3].
  - match goal with IH : _ -> _ -> _ |- Forall _ _ => apply IH end; [|exact Hcs].
    intros c H1 H2. apply elem_of_group_remove in H1 as [H1 _].
    apply elem_of_group_remove in H2 as [H2 _]. apply HP; assumption.
Qed.

(** C3. The collisions returned by [find_collisions] name pairwise distinct
    animals: no animal is in two pairs (nor twice in one), so that each
    animal takes part in at most one collision per tick; each pair consists
    of members of the group whose circles collide. *)
Theorem find_collisions_no_shared_animal (w : World) (animal_group : Group) :
  NoDup (collision_animals (find_collisions collide_circle w animal_group)) /\
  Forall (fun c => animal1 c ∈ animal_group /\ animal2 c ∈ animal_group /\
                   collide_circle (w (animal1 c)) (w (animal2 c)) = true)
    (find_collisions collide_circle w animal_group).
Proof.
  unfold find_collisions. split.
  - apply find_collisions_loop_disjoint.
    + apply NoDup_nil. exact I.
    + intros x Hx. apply elem_of_nil in Hx. contradiction.
  - apply find_collisions_loop_sound; [tauto|apply Forall_nil; exact I].
Qed.

(** ** Targeting *)

Lemma update_subject_animal_run (self : Ident) (group : Group) (w : World) :
  let pruned := eats (w self) ∩ list_to_set group in
  let w2 := <[self := with_propulsion_force (0, 0)
                        (with_subject_animal None (with_eats pruned (w self)))]> w in
  update_subject_animal set_order self group w =
    if is_dead (w self) then (w2, Ok tt)
    else match first_nearest (fun x => distance_to (w self) (w x))
                 (set_order pruned) with
         | None => (w2, Ok tt)
         | Some animal => set_subject_animal self (Some animal) w2
         end.
Proof.
  intros pruned w2. unfold update_subject_animal, bind.
  rewrite assign_run. cbn beta iota. rewrite set_subject_animal_None.
  cbn beta iota. read_written. rewrite fn_insert_insert. fold pruned. fold w2.
  unfold get. cbn beta iota.
  assert (Hself : w2 self = with_propulsion_force (0, 0)
                    (with_subject_animal None (with_eats pruned (w self))))
    by (subst w2; apply fn_lookup_insert).
  rewrite Hself.
  change (is_dead (with_propulsion_force _ _)) with (is_dead (w self)).
  destruct (is_dead (w self)); [reflexivity|].
  change (eats (with_propulsion_force _ _)) with pruned.
  assert (Hkey : (fun x => distance_to
                    (with_propulsion_force (0, 0)
                       (with_subject_animal None (with_eats pruned (w self))))
                    (w2 x))
                 = (fun x => distance_to (w self) (w x))).
  { apply functional_extensionality. intros x. apply distance_to_position.
    - reflexivity.
    - subst w2. unfold insert, fn_insert.
      destruct (decide (self = x)) as [->|]; reflexivity. }
  rewrite Hkey. rewrite <- head_sort_by.
  destruct (sort_by _ (set_order pruned)); reflexivity.
Qed.

(** Targeting prunes the prey set and nothing else adds to it: an animal
    that is not in its own prey set stays out of it. *)
Lemma update_subject_animal_eats (self : Ident) (group : Group) (w : World) :
  eats (fst (update_subject_animal set_order self group w) self)
    = eats (w self) ∩ list_to_set group.
Proof.
  rewrite update_subject_animal_run. cbv zeta.
  destruct (is_dead (w self)).
  - cbn [fst]. rewrite fn_lookup_insert. reflexivity.
  - destruct (first_nearest _ _) as [focus|].
    + rewrite set_subject_animal_eats, fn_lookup_insert. reflexivity.
    + cbn [fst]. rewrite fn_lookup_insert. reflexivity.
Qed.

(** C5, as the code has it.  After [update_subject_animal] the prey set is
    its intersection with the group.  A dead animal, and an animal whose
    pruned prey set is empty, has no focus and a zero propulsion force.
    Otherwise the focus is a member of the pruned prey set at the least
    Euclidean distance, and ties are broken by the order in which the pruned
    prey set (a Python set) is iterated: every member that the set yields
    before the focus is strictly farther. *)
Theorem update_subject_animal_focus (w : World) (self : Ident) (group : Group) :
  (forall s, set_order s ≡ₚ elements s) ->
  let w' := fst (update_subject_animal set_order self group w) in
  let pruned := eats (w self) ∩ list_to_set group in
  let distance := fun x => distance_to (w self) (w x) in
  snd (update_subject_animal set_order self group w) = Ok tt /\
  eats (w' self) = pruned /\
  (is_dead (w self) = true \/ pruned = ∅ ->
   _subject_animal (w' self) = None /\ propulsion_force (w' self) = (0, 0)) /\
  (is_dead (w self) = false -> pruned <> ∅ ->
   exists focus before after,
     _subject_animal (w' self) = Some focus /\
     set_order pruned = before ++ focus :: after /\
     focus ∈ pruned /\
     (forall b, b ∈ pruned -> distance focus <= distance b) /\
     (forall b, b ∈ before -> distance focus < distance b)).
Proof.
  intros Hord w' pruned distance.
  assert (Hmem : forall x, x ∈ set_order pruned <-> x ∈ pruned).
  { intros x. rewrite (Hord pruned). apply elem_of_elements. }
  subst w'. rewrite update_subject_animal_run. fold pruned. fold distance.
  set (w2 := <[self := _]> w).
  assert (Hself : w2 self = with_propulsion_force (0, 0)
                    (with_subject_animal None (with_eats pruned (w self))))
    by (subst w2; apply fn_lookup_insert).
  destruct (is_dead (w self)) eqn:Edead.
  - cbn [fst snd]. rewrite Hself. split; [reflexivity|]. split; [reflexivity|].
    split; [intros _; split; reflexivity|discriminate].
  - destruct (first_nearest distance (set_order pruned)) as [focus|] eqn:Efocus.
    + destruct (first_nearest_spec _ _ _ Efocus) as (before & after & Hsplit & Hb & Ha).
      assert (Hin : focus ∈ pruned).
      { apply Hmem. rewrite Hsplit. apply elem_of_app. right. left. }
      destruct (set_subject_animal_prey self focus w2) as [force Hrun].
      { rewrite Hself. exact Hin. }
      rewrite Hrun. cbn [fst snd]. read_written. rewrite Hself.
      split; [reflexivity|]. split; [reflexivity|]. split.
      * intros [Hd|He]; [discriminate|]. rewrite He in Hin.
        apply not_elem_of_empty in Hin. contradiction.
      * intros _ _. exists focus, before, after.
        split; [reflexivity|]. split; [exact Hsplit|]. split; [exact Hin|].
        split; [|exact Hb].
        intros b Hbin. apply Hmem in Hbin. rewrite Hsplit in Hbin.
        apply elem_of_app in Hbin as [Hbin|Hbin].
        -- specialize (Hb b Hbin). lra.
        -- apply elem_of_cons in Hbin as [->|Hbin]; [lra|exact (Ha b Hbin)].
    + apply first_nearest_None in Efocus.
      cbn [fst snd]. rewrite Hself. split; [reflexivity|]. split; [reflexivity|].
      split; [intros _; split; reflexivity|].
      intros _ Hne. exfalso. apply Hne. apply set_eq. intros x.
      rewrite <- Hmem, Efocus. split; intros Hx.
      * apply elem_of_nil in Hx. contradiction.
      * apply not_elem_of_empty in Hx. contradiction.
Qed.

(** ** The termination predicate *)

Lemma no_subject_animal_iff (w : World) (animals : list Ident) :
  no_subject_animal w animals = true <->
  forall a, a ∈ animals -> _subject_animal (w a) = None.
Proof.
  induction animals as [|x rest IH]; simpl.
  - split; [|reflexivity]. intros _ a Ha. apply elem_of_nil in Ha. contradiction.
  - destruct (_subject_animal (w x)) eqn:E.
    + split; [discriminate|]. intros H.
      assert (Hx : x ∈ x :: rest) by left. specialize (H x Hx). congruence.
    + rewrite IH. split.
      * intros H a Ha. apply elem_of_cons in Ha as [->|Ha]; [exact E|exact (H a Ha)].
      * intros H a Ha. apply H. right. exact Ha.
Qed.

Lemma simulation_completed_iff (w : World) (animals : Group) :
  simulation_completed w animals = true <->
  forall a, a ∈ animals -> _subject_animal (w a) = None.
Proof.
  unfold simulation_completed. destruct animals as [|x rest].
  - simpl. split; [|reflexivity]. intros _ a Ha. apply elem_of_nil in Ha.
    contradiction.
  - change (length (x :: rest) =? 0)%nat with false. cbn iota.
    apply no_subject_animal_iff.
Qed.

Lemma elem_of_group_add (g : Group) (x y : Ident) :
  y ∈ group_add g x <-> y ∈ g \/ y = x.
Proof.
  unfold group_add. destruct (decide (x ∈ g)) as [Hin|Hnot].
  - split; [tauto|]. intros [H| ->]; assumption.
  - rewrite elem_of_app, list_elem_of_singleton. tauto.
Qed.

Lemma elem_of_fold_group_add (l acc : Group) (y : Ident) :
  y ∈ fold_left group_add l acc <-> y ∈ acc \/ y ∈ l.
Proof.
  revert acc. induction l as [|x l IH]; intros acc; simpl.
  - rewrite elem_of_nil. tauto.
  - rewrite IH, elem_of_group_add, elem_of_cons. tauto.
Qed.

Lemma elem_of_all_animals (e : Engine) (y : Ident) :
  y ∈ all_animals e <-> y ∈ live_animals e \/ y ∈ dying_animals e.
Proof.
  unfold all_animals. rewrite !elem_of_fold_group_add, elem_of_nil. tauto.
Qed.

Lemma AnimalImage_update_health_bar (i : AnimalImage.t) :
  AnimalImage.health_bar (AnimalImage.update i) = AnimalImage.health_bar i.
Proof.
  unfold AnimalImage.update. destruct (HealthBar.is_dead _); reflexivity.
Qed.

Lemma update_subject_animal_cell (self : Ident) (group : Group) (w : World) :
  (forall s, set_order s ≡ₚ elements s) ->
  writes_cell self (update_subject_animal set_order self group) w
    (fun a' => animal_image a' = animal_image (w self) /\
               (is_dead (w self) = true -> _subject_animal a' = None)).
Proof.
  intros Hord. unfold writes_cell. rewrite update_subject_animal_run.
  set (pruned := eats (w self) ∩ list_to_set group).
  destruct (is_dead (w self)) eqn:Edead.
  - eexists. split; [reflexivity|]. split; [reflexivity|]. intros _. reflexivity.
  - destruct (first_nearest _ (set_order pruned)) as [focus|] eqn:Efocus.
    + destruct (first_nearest_spec _ _ _ Efocus) as (before & after & Hsplit & _).
      assert (Hin : focus ∈ pruned).
      { rewrite <- elem_of_elements, <- (Hord pruned), Hsplit.
        apply elem_of_app. right. left. }
      set (w2 := <[self := _]> w).
      destruct (set_subject_animal_prey self focus w2) as [force Hrun].
      { subst w2. read_written. exact Hin. }
      rewrite Hrun. subst w2. read_written. rewrite fn_insert_insert.
      eexists. split; [reflexivity|]. split; [reflexivity|]. discriminate.
    + eexists. split; [reflexivity|]. split; [reflexivity|]. discriminate.
Qed.

Lemma update_position_cell (self : Ident) (dt : R) (w : World) :
  writes_cell self (update_position rect_coord self dt) w
    (fun a' => animal_image a' = animal_image (w self) /\
               _subject_animal a' = _subject_animal (w self)).
Proof.
  unfold writes_cell, update_position, bind, get. cbn beta iota.
  rewrite set_velocity_run. cbn beta iota. rewrite set_position_run.
  read_written. rewrite fn_insert_insert.
  eexists. split; [reflexivity|]. split; reflexivity.
Qed.

Lemma on_heap_run {A : Type} (m : M World A) (s : Sim) (w' : World) (r : result A) :
  m (heap s) = (w', r) -> on_heap m s = (mkSim w' (engine s), r).
Proof. intros H. unfold on_heap. rewrite H. reflexivity. Qed.

(** Updating an animal writes its own cell only, leaves the engine as it is
    and does not raise; it keeps the health, and a dead animal ends without
    focus. *)
Lemma update_animal_cell (animal : Ident) (s : Sim) :
  (forall s, set_order s ≡ₚ elements s) ->
  exists a',
    update_animal rect_coord set_order animal s
      = (mkSim (<[animal := a']> (heap s)) (engine s), Ok tt) /\
    is_dead a' = is_dead (heap s animal) /\
    (is_dead (heap s animal) = true -> _subject_animal a' = None).
Proof.
  intros Hord. unfold update_animal, bind, get. cbn beta iota.
  destruct (update_subject_animal_cell animal (live_animals (engine s)) (heap s) Hord)
    as (a1 & Hrun1 & Himg1 & Hsub1).
  rewrite (on_heap_run _ _ _ _ Hrun1). cbn beta iota.
  destruct (update_position_cell animal time_step (<[animal := a1]> (heap s)))
    as (a2 & Hrun2 & Himg2 & Hsub2).
  rewrite (on_heap_run _ (mkSim _ _) _ _ Hrun2). cbn beta iota.
  rewrite (on_heap_run _ (mkSim _ _) _ _ (assign_run _ _ _)). cbn [heap engine].
  rewrite !fn_insert_insert. read_written.
  rewrite fn_lookup_insert in Himg2, Hsub2.
  eexists. split; [reflexivity|]. split.
  - unfold is_dead. cbn [animal_image with_animal_image].
    rewrite AnimalImage_update_health_bar, Himg2, Himg1. reflexivity.
  - intros Hdead. cbn. rewrite Hsub2. apply Hsub1. exact Hdead.
Qed.

(** The loop over the animals keeps the engine and the health of every
    animal; each dead animal it visits ends without focus, and a dead animal
    without focus stays so. *)
Lemma update_loop (l : Group) (s : Sim) :
  (forall s, set_order s ≡ₚ elements s) ->
  exists w',
    for_each l (update_animal rect_coord set_order) s = (mkSim w' (engine s), Ok tt) /\
    (forall i, is_dead (w' i) = is_dead (heap s i)) /\
    (forall i, is_dead (heap s i) = true ->
       i ∈ l \/ _subject_animal (heap s i) = None ->
       _subject_animal (w' i) = None).
Proof.
  intros Hord. revert s. induction l as [|x rest IH]; intros s.
  - exists (heap s). split; [destruct s; reflexivity|]. split; [reflexivity|].
    intros i _ [Hin|Hnone]; [apply elem_of_nil in Hin; contradiction|exact Hnone].
  - destruct (update_animal_cell x s Hord) as (a' & Hrun & Hdead & Hsub).
    destruct (IH (mkSim (<[x := a']> (heap s)) (engine s))) as (w' & Hloop & Hd & Hs).
    exists w'. cbn [heap engine] in *.
    split; [simpl; unfold bind; rewrite Hrun; exact Hloop|].
    assert (Hcell : forall i, is_dead ((<[x := a']> (heap s)) i) = is_dead (heap s i)).
    { intros i. unfold insert, fn_insert.
      destruct (decide (x = i)) as [->|]; [exact Hdead|reflexivity]. }
    split.
    + intros i. rewrite Hd. apply Hcell.
    + intros i Hi Hor. apply Hs; [rewrite Hcell; exact Hi|].
      destruct (decide (x = i)) as [->|Hne].
      * right. rewrite fn_lookup_insert. apply Hsub. exact Hi.
      * rewrite fn_lookup_insert_ne by exact Hne.
        destruct Hor as [Hin|Hnone]; [|right; exact Hnone].
        apply elem_of_cons in Hin as [->|Hin]; [contradiction|left; exact Hin].
Qed.

(** ** The start of the death of an animal *)

Lemma kill_if_dead_run (animal : Ident) (s : Sim) :
  kill_if_dead animal s =
    if is_dead (heap s animal) then
      (mkSim (<[animal := dying_cell (heap s animal)]> (heap s))
         (mkEngine (screen (engine s))
            (group_remove (live_animals (engine s)) animal)
            (group_add (dying_animals (engine s)) animal)
            true (_play_collision_sound (engine s))), Ok tt)
    else (s, Ok tt).
Proof.
  unfold kill_if_dead, bind, get. cbn beta iota.
  destruct (is_dead (heap s animal)); [|reflexivity].
  rewrite (on_heap_run _ _ _ _ (set_velocity_run _ _ _)). reflexivity.
Qed.

Lemma exit_velocity_norm (a : Animal) :
  speed a <> 0 -> norm (exit_velocity a) = 200.
Proof.
  intros Hs. unfold exit_velocity, speed in *.
  pose proof (norm_pos _ Hs) as Hp. pose proof (norm_sqr (_velocity a)) as Hq.
  unfold norm at 1. unfold scale, div. simpl.
  replace (fst (_velocity a) / norm (_velocity a) * 200
           * (fst (_velocity a) / norm (_velocity a) * 200)
           + snd (_velocity a) / norm (_velocity a) * 200
             * (snd (_velocity a) / norm (_velocity a) * 200))
    with (200 * 200).
  - apply sqrt_square. lra.
  - field_simplify_eq; [|lra]. nra.
Qed.

Lemma exit_velocity_direction (a : Animal) :
  exit_velocity a = scale (_velocity a) (200 / speed a).
Proof. unfold exit_velocity, scale, div. simpl. f_equal; unfold Rdiv; ring. Qed.

(** The loop of the death phase over a part [l] of the live animals. *)
Lemma death_loop (l : Group) (s : Sim) :
  NoDup l ->
  exists s',
    for_each l kill_if_dead s = (s', Ok tt) /\
    (forall i, heap s' i =
       if decide (i ∈ l /\ is_dead (heap s i) = true)
       then dying_cell (heap s i) else heap s i) /\
    (forall i, i ∈ live_animals (engine s') <->
       i ∈ live_animals (engine s) /\ ~ (i ∈ l /\ is_dead (heap s i) = true)) /\
    (forall i, i ∈ dying_animals (engine s') <->
       i ∈ dying_animals (engine s) \/ (i ∈ l /\ is_dead (heap s i) = true)).
Proof.
  intros Hnd. revert s. induction Hnd as [|x rest Hx Hnd IH]; intros s.
  - exists s. split; [reflexivity|]. split; [|split].
    + intros i. destruct (decide _) as [[Hin _]|_]; [|reflexivity].
      apply elem_of_nil in Hin. contradiction.
    + intros i. rewrite elem_of_nil. tauto.
    + intros i. rewrite elem_of_nil. tauto.
  - simpl. unfold bind. rewrite kill_if_dead_run.
    destruct (is_dead (heap s x)) eqn:Edead.
    + set (s1 := mkSim _ _). destruct (IH s1) as (s' & Hrun & Hheap & Hlive & Hdying).
      exists s'. split; [exact Hrun|].
      assert (Hother : forall i, i ∈ rest -> heap s1 i = heap s i).
      { intros i Hi. subst s1. cbn [heap]. apply fn_lookup_insert_ne.
        intros ->. contradiction. }
      split; [|split].
      * intros i. rewrite Hheap.
        destruct (decide (i ∈ rest /\ is_dead (heap s1 i) = true)) as [[Hi Hd]|Hn].
        -- rewrite (Hother i Hi) in *.
           destruct (decide _) as [_|Hn]; [reflexivity|].
           exfalso. apply Hn. split; [right; exact Hi|exact Hd].
        -- destruct (decide (i = x)) as [->|Hne].
           ++ subst s1. cbn [heap]. rewrite fn_lookup_insert.
              destruct (decide _) as [_|Hn']; [reflexivity|].
              exfalso. apply Hn'. split; [left|exact Edead].
           ++ assert (Hsame : heap s1 i = heap s i).
              { subst s1. cbn [heap]. apply fn_lookup_insert_ne. congruence. }
              rewrite Hsame in *.
              destruct (decide _) as [[Hi Hd]|_]; [|reflexivity].
              exfalso. apply Hn. split; [|exact Hd].
              apply elem_of_cons in Hi as [->|Hi]; [contradiction|exact Hi].
      * intros i. rewrite Hlive. subst s1. cbn [heap engine live_animals].
        rewrite elem_of_group_remove, elem_of_cons.
        destruct (decide (i = x)) as [->|Hne].
        -- rewrite fn_lookup_insert. tauto.
        -- rewrite fn_lookup_insert_ne by congruence. tauto.
      * intros i. rewrite Hdying. subst s1. cbn [heap engine dying_animals].
        rewrite elem_of_group_add, elem_of_cons.
        destruct (decide (i = x)) as [->|Hne].
        -- rewrite fn_lookup_insert. tauto.
        -- rewrite fn_lookup_insert_ne by congruence. tauto.
    + destruct (IH s) as (s' & Hrun & Hheap & Hlive & Hdying).
      exists s'. split; [exact Hrun|]. split; [|split].
      * intros i. rewrite Hheap.
        destruct (decide (i ∈ rest /\ _)) as [[Hi Hd]|Hn];
          destruct (decide (i ∈ x :: rest /\ _)) as [[Hi' Hd']|Hn'];
          try reflexivity.
        -- exfalso. apply Hn'. split; [right; exact Hi|exact Hd].
        -- exfalso. apply elem_of_cons in Hi' as [->|Hi']; [congruence|].
           apply Hn. split; assumption.
      * intros i. rewrite Hlive.
        split; intros [H1 H2]; (split; [exact H1|]); intros [H3 H4]; apply H2.
        -- apply elem_of_cons in H3 as [->|H3]; [congruence|]. split; assumption.
        -- split; [right; exact H3|exact H4].
      * intros i. rewrite Hdying.
        split; (intros [H1|[H3 H4]]; [left; exact H1|right]).
        -- split; [right; exact H3|exact H4].
        -- apply elem_of_cons in H3 as [->|H3]; [congruence|]. split; assumption.
Qed.

(** C6, as the code has it.  In the death phase of a tick every live animal
    whose health is at most zero, and no other, is moved from the live to
    the dying animals.  Its speed being not zero, its velocity keeps its
    direction, whatever the last collision was, and is rescaled by
    [200 / speed], which gives it the magnitude 200.  A live animal whose
    health is positive stays live and is not touched. *)
Theorem death_phase_transition (s : Sim) :
  NoDup (live_animals (engine s)) ->
  exists s',
    death_phase s = (s', Ok tt) /\
    (forall a, a ∈ live_animals (engine s) -> health (heap s a) <= 0 ->
       (a ∉ live_animals (engine s')) /\ a ∈ dying_animals (engine s') /\
       (speed (heap s a) <> 0 ->
        _velocity (heap s' a)
          = scale (_velocity (heap s a)) (200 / speed (heap s a)) /\
        0 < 200 / speed (heap s a) /\
        norm (_velocity (heap s' a)) = 200)) /\
    (forall a, a ∈ live_animals (engine s) -> 0 < health (heap s a) ->
       a ∈ live_animals (engine s') /\ heap s' a = heap s a /\
       (a ∈ dying_animals (engine s') <-> a ∈ dying_animals (engine s))).
Proof.
  intros Hnd.
  destruct (death_loop (live_animals (engine s)) s Hnd)
    as (s' & Hrun & Hheap & Hlive & Hdying).
  exists s'. split; [exact Hrun|]. split.
  - intros a Ha Hhealth. apply is_dead_iff in Hhealth.
    assert (Hcell : heap s' a = dying_cell (heap s a)).
    { rewrite Hheap. destruct (decide _) as [_|Hn]; [reflexivity|].
      exfalso. apply Hn. split; assumption. }
    split; [|split].
    + rewrite Hlive. intros [_ Hn]. apply Hn. split; assumption.
    + apply Hdying. right. split; assumption.
    + intros Hs. rewrite Hcell. split; [apply exit_velocity_direction|].
      split; [|apply exit_velocity_norm; exact Hs].
      apply Rdiv_lt_0_compat; [lra|]. apply norm_pos. exact Hs.
  - intros a Ha Hhealth.
    assert (Halive : is_dead (heap s a) = false).
    { destruct (is_dead (heap s a)) eqn:E; [|reflexivity].
      apply is_dead_iff in E. lra. }
    split; [|split].
    + apply Hlive. split; [exact Ha|]. intros [_ Hd]. congruence.
    + rewrite Hheap. destruct (decide _) as [[_ Hd]|_]; [congruence|reflexivity].
    + rewrite Hdying. split; [|tauto]. intros [H|[_ Hd]]; [exact H|congruence].
Qed.

(** ** Footprints of the movement functions and of the phases *)

Lemma touches_collide_animals (animal other_animal : Ident) :
  touches (fun i => i = animal \/ i = other_animal)
    (collide_animals rect_coord animal other_animal).
Proof. unfold collide_animals, set_position. footprint; auto. Qed.

Lemma touches_collide_animal_into_wall (animal : Ident) (wall : Wall.t) :
  touches (fun i => i = animal) (collide_animal_into_wall rect_coord animal wall).
Proof. unfold collide_animal_into_wall, set_position. footprint; auto. Qed.

Lemma writes_within_ret {A : Type} (g : Group) (a : A) : writes_within g (ret a).
Proof. intros s Hs. simpl. auto. Qed.

Lemma writes_within_bind {A B : Type} (g : Group) (m : M Sim A) (k : A -> M Sim B) :
  writes_within g m -> (forall a, writes_within g (k a)) ->
  writes_within g (bind m k).
Proof.
  intros Hm Hk s Hs. destruct (Hm s Hs) as (H1 & H2 & H3). unfold bind.
  destruct (m s) as [s1 [a|e]]; simpl in *.
  - destruct (Hk a s1 H1) as (K1 & K2 & K3).
    split; [exact K1|]. split; [congruence|].
    intros i Hi. rewrite (K3 i Hi). apply H3. exact Hi.
  - auto.
Qed.

Lemma writes_within_get {B : Type} (g : Group) (k : Sim -> M Sim B) :
  (forall s0, live_animals (engine s0) = g -> writes_within g (k s0)) ->
  writes_within g (bind get k).
Proof. intros H s Hs. unfold bind, get. exact (H s Hs s Hs). Qed.

Lemma writes_within_for_each {A : Type} (g : Group) (l : list A)
    (body : A -> M Sim unit) :
  (forall x, x ∈ l -> writes_within g (body x)) ->
  writes_within g (for_each l body).
Proof.
  induction l as [|x l IH]; intros Hbody; simpl.
  - apply writes_within_ret.
  - apply writes_within_bind.
    + apply Hbody. left.
    + intros _. apply IH. intros y Hy. apply Hbody. right. exact Hy.
Qed.

Lemma writes_within_on_heap {A : Type} (g : Group) (P : Ident -> Prop)
    (m : M World A) :
  touches P m -> (forall i, P i -> i ∈ g) -> writes_within g (on_heap m).
Proof.
  intros Hm HP s Hs. unfold on_heap. specialize (Hm (heap s)).
  destruct (m (heap s)) as [w' r]; simpl in *.
  split; [exact Hs|]. split; [reflexivity|].
  intros i Hi. apply Hm. intros HPi. apply Hi, HP, HPi.
Qed.

Lemma writes_within_collision_sound (g : Group) :
  writes_within g delayed_collision_sound.
Proof. intros s Hs. simpl. auto. Qed.

Lemma find_collisions_members (w : World) (g : Group) (c : Collision) :
  c ∈ find_collisions collide_circle w g -> animal1 c ∈ g /\ animal2 c ∈ g.
Proof.
  intros Hc.
  assert (H : Forall (fun c => animal1 c ∈ g /\ animal2 c ∈ g)
                (find_collisions collide_circle w g)).
  { apply find_collisions_loop_sound; [tauto|apply Forall_nil; exact I]. }
  rewrite Forall_forall in H. exact (H c Hc).
Qed.

Lemma writes_within_collisions_phase (g : Group) :
  writes_within g (collisions_phase collide_circle rect_coord).
Proof.
  unfold collisions_phase. apply writes_within_get. intros s0 Hs0.
  rewrite Hs0. apply writes_within_for_each. intros c Hc.
  apply find_collisions_members in Hc as [H1 H2].
  apply writes_within_bind.
  { apply (writes_within_on_heap g _ _ (touches_collide_animals _ _)).
    intros i [->| ->]; assumption. }
  intros _. apply writes_within_bind.
  { apply (writes_within_on_heap g (fun i => i ∈ g)); [|auto].
    apply touches_injure; assumption. }
  intros _. apply writes_within_get. intros s1 _.
  destruct (animals_were_injured c (heap s1)).
  - apply writes_within_collision_sound.
  - apply writes_within_ret.
Qed.

Lemma writes_within_wall_collisions_phase (g : Group) (gameboard : GameBoard.t) :
  writes_within g (wall_collisions_phase rect_coord gameboard).
Proof.
  unfold wall_collisions_phase. apply writes_within_get. intros s0 Hs0.
  rewrite Hs0. apply writes_within_for_each. intros animal Ha.
  apply writes_within_get. intros s1 _.
  destruct (GameBoard.collided_with_wall gameboard (heap s1 animal)) as [wall|].
  - apply (writes_within_on_heap g _ _ (touches_collide_animal_into_wall _ _)).
    intros i ->. exact Ha.
  - apply writes_within_ret.
Qed.

(** ** The invariant of the engine through a tick *)

Lemma writes_within_invariant {A : Type} (m : M Sim A) (s : Sim) :
  writes_within (live_animals (engine s)) m ->
  engine_invariant s -> engine_invariant (fst (m s)).
Proof.
  intros Hm (Hl & Hd & Hdis & Hdead). destruct (Hm s eq_refl) as (H1 & H2 & H3).
  unfold engine_invariant. rewrite H1, H2.
  split; [exact Hl|]. split; [exact Hd|]. split; [exact Hdis|].
  intros d Hin. rewrite H3; [apply Hdead; exact Hin|].
  intros Hlive. exact (Hdis d Hlive Hin).
Qed.

Lemma NoDup_group_remove (g : Group) (x : Ident) :
  NoDup g -> NoDup (group_remove g x).
Proof. apply NoDup_filter. Qed.

Lemma NoDup_group_add (g : Group) (x : Ident) :
  NoDup g -> NoDup (group_add g x).
Proof.
  intros H. unfold group_add. destruct (decide (x ∈ g)) as [Hin|Hnot]; [exact H|].
  apply NoDup_app. split; [exact H|]. split; [|apply NoDup_singleton].
  intros y Hy Hy'. apply list_elem_of_singleton in Hy'. subst y. contradiction.
Qed.

Lemma death_loop_NoDup (l : Group) (s : Sim) :
  NoDup (live_animals (engine s)) -> NoDup (dying_animals (engine s)) ->
  NoDup (live_animals (engine (fst (for_each l kill_if_dead s)))) /\
  NoDup (dying_animals (engine (fst (for_each l kill_if_dead s)))).
Proof.
  revert s. induction l as [|x l IH]; intros s Hl Hd; simpl; [auto|].
  unfold bind. rewrite kill_if_dead_run.
  destruct (is_dead (heap s x)).
  - apply IH; cbn [engine live_animals dying_animals].
    + apply NoDup_group_remove. exact Hl.
    + apply NoDup_group_add. exact Hd.
  - apply IH; assumption.
Qed.

Lemma is_dead_dying_cell (a : Animal) : is_dead (dying_cell a) = is_dead a.
Proof. reflexivity. Qed.

Lemma death_phase_invariant (s : Sim) :
  engine_invariant s ->
  exists s', death_phase s = (s', Ok tt) /\ engine_invariant s'.
Proof.
  intros (Hl & Hd & Hdis & Hdead).
  destruct (death_loop (live_animals (engine s)) s Hl)
    as (s' & Hrun & Hheap & Hlive & Hdying).
  exists s'. split; [exact Hrun|].
  pose proof (death_loop_NoDup (live_animals (engine s)) s Hl Hd) as [N1 N2].
  unfold death_phase, bind, get in Hrun. cbn beta iota in Hrun.
  rewrite Hrun in N1, N2. cbn [fst] in N1, N2.
  split; [exact N1|]. split; [exact N2|]. split.
  - intros a Ha Hin. apply Hlive in Ha as [Ha Hn]. apply Hdying in Hin as [Hin|Hin].
    + exact (Hdis a Ha Hin).
    + exact (Hn Hin).
  - intros d Hin. rewrite Hheap. apply Hdying in Hin as [Hin|[Hin Hd']].
    + destruct (decide _) as [[Hlv _]|_]; [|apply Hdead; exact Hin].
      exfalso. exact (Hdis d Hlv Hin).
    + destruct (decide _) as [_|Hn]; [rewrite is_dead_dying_cell; exact Hd'|].
      exfalso. apply Hn. split; assumption.
Qed.

(** The loop that removes the animals whose death is over: it does not
    raise, leaves the heap as it is and drops members of the groups. *)
Lemma removal_loop (l : Group) (s : Sim) :
  exists s',
    for_each l
      (fun animal =>
         s <- get ;;
         if death_animation_finished (heap s animal)
            || off_screen (heap s animal) (screen (engine s))
         then remove_animal animal else ret tt) s = (s', Ok tt) /\
    heap s' = heap s /\
    (forall i, i ∈ live_animals (engine s') -> i ∈ live_animals (engine s)) /\
    (forall i, i ∈ dying_animals (engine s') -> i ∈ dying_animals (engine s)) /\
    (NoDup (live_animals (engine s)) -> NoDup (live_animals (engine s'))) /\
    (NoDup (dying_animals (engine s)) -> NoDup (dying_animals (engine s'))).
Proof.
  revert s. induction l as [|x l IH]; intros s.
  - exists s. simpl. unfold ret. repeat split; auto.
  - simpl. unfold bind at 1. unfold bind at 1. unfold get. cbn beta iota.
    destruct (death_animation_finished (heap s x)
              || off_screen (heap s x) (screen (engine s))).
    + unfold remove_animal, on_engine, modify. cbn beta iota.
      set (s1 := mkSim _ _).
      destruct (IH s1) as (s' & Hrun & Hh & H1 & H2 & N1 & N2).
      exists s'. split; [exact Hrun|]. subst s1. cbn [heap engine live_animals
        dying_animals] in *.
      split; [exact Hh|]. split; [|split; [|split]].
      * intros i Hi. apply H1 in Hi. apply elem_of_group_remove in Hi. tauto.
      * intros i Hi. apply H2 in Hi. apply elem_of_group_remove in Hi. tauto.
      * intros N. apply N1, NoDup_group_remove, N.
      * intros N. apply N2, NoDup_group_remove, N.
    + unfold ret at 1. cbn beta iota. apply IH.
Qed.

Lemma removal_phase_invariant (s : Sim) :
  engine_invariant s ->
  exists s', removal_phase s = (s', Ok tt) /\ engine_invariant s'.
Proof.
  intros (Hl & Hd & Hdis & Hdead).
  destruct (removal_loop (dying_animals (engine s)) s)
    as (s' & Hrun & Hh & H1 & H2 & N1 & N2).
  exists s'. split; [exact Hrun|].
  split; [auto|]. split; [auto|]. split.
  - intros a Ha Hin. exact (Hdis a (H1 a Ha) (H2 a Hin)).
  - intros d Hin. rewrite Hh. apply Hdead, H2, Hin.
Qed.

Lemma update_phase_invariant (s : Sim) :
  (forall s, set_order s ≡ₚ elements s) ->
  engine_invariant s ->
  exists s',
    update_phase rect_coord set_order s = (s', Ok tt) /\
    engine_invariant s' /\
    (simulation_completed (heap s') (all_animals (engine s')) = true <->
     all_animals (engine s') = [] \/
     forall a, a ∈ live_animals (engine s') -> _subject_animal (heap s' a) = None).
Proof.
  intros Hord (Hl & Hd & Hdis & Hdead).
  destruct (update_loop (all_animals (engine s)) s Hord) as (w' & Hloop & Hsame & Hsub).
  exists (mkSim w' (engine s)). cbn [heap engine].
  split; [exact Hloop|]. split.
  - split; [exact Hl|]. split; [exact Hd|]. split; [exact Hdis|].
    intros d Hin. cbn [heap]. rewrite Hsame. apply Hdead, Hin.
  - rewrite simulation_completed_iff. split.
    + intros H. right. intros a Ha. apply H. apply elem_of_all_animals. left. exact Ha.
    + intros [Hempty|Hlive] a Ha.
      * rewrite Hempty in Ha. apply elem_of_nil in Ha. contradiction.
      * pose proof Ha as Hall. apply elem_of_all_animals in Ha as [Ha|Ha].
        -- apply Hlive. exact Ha.
        -- apply Hsub; [apply Hdead; exact Ha|left; exact Hall].
Qed.


(** ** The loop body never raises *)

Lemma for_each_total {S A : Type} (l : list A) (body : A -> M S unit) :
  (forall x s, x ∈ l -> exists s', body x s = (s', Ok tt)) ->
  forall s, exists s', for_each l body s = (s', Ok tt).
Proof.
  induction l as [|x l IH]; intros Hbody s; simpl.
  - exists s. reflexivity.
  - destruct (Hbody x s) as [s1 H1]; [left|]. unfold bind. rewrite H1.
    apply IH. intros y s2 Hy. apply Hbody. right. exact Hy.
Qed.

Lemma collide_Ok (c v1 v2 : Vec) (m1 m2 : R) :
  norm c <> 0 -> exists us, collide c v1 v2 m1 m2 = Ok us.
Proof.
  intros Hn. destruct (collide_used_axis c v1 v2 m1 m2 Hn) as (u1 & u2 & H & _).
  exists (u1, u2). exact H.
Qed.

Lemma normalized_vector_to_unit (a b : Animal) :
  distance_to a b <> 0 ->
  exists c, normalized_vector_to a b = Ok c /\ norm c <> 0.
Proof.
  intros Hd. unfold normalized_vector_to.
  destruct (Req_dec_T (distance_to a b) 0) as [E|_]; [contradiction|].
  eexists. split; [reflexivity|]. unfold distance_to in *.
  rewrite norm_div_self; [lra|]. apply norm_pos. exact Hd.
Qed.

Lemma set_velocity_total (self : Ident) (v : Vec) (w : World) :
  exists w', set_velocity self v w = (w', Ok tt).
Proof. rewrite set_velocity_run. eexists. reflexivity. Qed.

Lemma collide_animals_total (animal other_animal : Ident) (w : World) :
  exists w', collide_animals rect_coord animal other_animal w = (w', Ok tt).
Proof.
  unfold collide_animals, bind, get. cbn beta iota.
  destruct (Req_dec_T (distance_to (w animal) (w other_animal)) 0) as [E|Hd].
  - exists w. reflexivity.
  - destruct (normalized_vector_to_unit _ _ Hd) as (c & Hc & Hn).
    unfold lift_result. rewrite Hc. cbn beta iota.
    set (push := if Rlt_dec _ _ then _ else _).
    assert (Hpush : exists w1, push w = (w1, Ok tt)).
    { subst push. destruct (Rlt_dec _ _).
      - unfold bind. cbn beta. rewrite set_position_run. cbn beta iota.
        rewrite set_position_run. eexists. reflexivity.
      - exists w. reflexivity. }
    destruct Hpush as [w1 ->].
    destruct (collide_Ok c (_velocity (w1 animal)) (_velocity (w1 other_animal))
                (mass (w1 animal)) (mass (w1 other_animal)) Hn) as [us ->].
    destruct (set_velocity_total animal (fst us) w1) as [w2 ->].
    apply set_velocity_total.
Qed.

Lemma injure_animals_if_prey_total (c : Collision) (w : World) :
  exists w', injure_animals_if_prey c w = (w', Ok tt).
Proof.
  unfold injure_animals_if_prey, bind, get. cbn beta iota.
  destruct (wants_to_eat (w (animal1 c)) (animal2 c)).
  - unfold inflict_damage at 1. unfold bind, get. cbn beta iota.
    rewrite reduce_health_run.
    set (w1 := <[animal2 c := _]> w).
    destruct (wants_to_eat (w1 (animal2 c)) (animal1 c)).
    + unfold inflict_damage, bind, get. cbn beta iota. rewrite reduce_health_run.
      eexists. reflexivity.
    + eexists. reflexivity.
  - unfold ret at 1. cbn beta iota.
    destruct (wants_to_eat (w (animal2 c)) (animal1 c)).
    + unfold inflict_damage, bind, get. cbn beta iota. rewrite reduce_health_run.
      eexists. reflexivity.
    + eexists. reflexivity.
Qed.

Lemma on_heap_total {A : Type} (m : M World A) (s : Sim) (a : A) :
  (exists w', m (heap s) = (w', Ok a)) ->
  exists s', on_heap m s = (s', Ok a).
Proof.
  intros [w' H]. exists (mkSim w' (engine s)). apply on_heap_run. exact H.
Qed.

Lemma collisions_phase_total (s : Sim) :
  exists s', collisions_phase collide_circle rect_coord s = (s', Ok tt).
Proof.
  unfold collisions_phase, bind at 1, get. cbn beta iota.
  apply for_each_total. intros c s1 _.
  destruct (on_heap_total _ s1 tt (collide_animals_total (animal1 c) (animal2 c) (heap s1)))
    as [s2 H2].
  unfold bind at 1. rewrite H2.
  destruct (on_heap_total _ s2 tt (injure_animals_if_prey_total c (heap s2)))
    as [s3 H3].
  unfold bind at 1. rewrite H3. unfold bind, get. cbn beta iota.
  destruct (animals_were_injured c (heap s3)); eexists; reflexivity.
Qed.

Lemma collide_animal_into_wall_total (screen : Screen) (name : string)
    (wall : Wall.t) (animal : Ident) (w : World) :
  (name, wall) ∈ GameBoard.walls (GameBoard.init screen) ->
  exists w', collide_animal_into_wall rect_coord animal wall w = (w', Ok tt).
Proof.
  intros Hwall. destruct (gameboard_normal_axis screen name wall Hwall) as [Hnorm _].
  assert (Hn : norm (Wall.normal wall) <> 0) by (rewrite Hnorm; lra).
  destruct (collide_Ok (Wall.normal wall) (_velocity (w animal)) (0, 0) 1 wall_mass Hn)
    as [[u1 u2] Hc].
  destruct (collide_animal_into_wall_velocity animal wall w u1 u2 Hc) as [Hok _].
  destruct (collide_animal_into_wall rect_coord animal wall w) as [w' r].
  simpl in Hok. subst r. exists w'. reflexivity.
Qed.

Lemma first_breached_member (walls : list (string * Wall.t)) (animal : Animal)
    (wall : Wall.t) :
  GameBoard.first_breached walls animal = Some wall ->
  exists name, (name, wall) ∈ walls.
Proof.
  induction walls as [|[name w0] rest IH]; simpl; [discriminate|].
  destruct (Wall.distance_to w0 animal <? 0)%Z.
  - intros [= <-]. exists name. left.
  - intros H. destruct (IH H) as [n Hn]. exists n. right. exact Hn.
Qed.

Lemma wall_collisions_phase_total (screen : Screen) (s : Sim) :
  exists s',
    wall_collisions_phase rect_coord (GameBoard.init screen) s = (s', Ok tt).
Proof.
  unfold wall_collisions_phase, bind at 1, get. cbn beta iota.
  apply for_each_total. intros animal s1 _. unfold bind, get. cbn beta iota.
  destruct (GameBoard.collided_with_wall (GameBoard.init screen) (heap s1 animal))
    as [wall|] eqn:E.
  - apply first_breached_member in E as [name Hname].
    apply on_heap_total.
    exact (collide_animal_into_wall_total screen name wall animal (heap s1) Hname).
  - eexists. reflexivity.
Qed.


(** C7. In a tick of the engine, started from a state that satisfies the
    invariant of the engine, nothing raises, the invariant holds again
    afterwards, and the termination predicate [simulation_completed],
    evaluated on [all_animals] after the update of the animals, is true
    exactly when the combined population is empty or every live animal has
    no focus, and false otherwise. *)
Theorem tick_termination_predicate (s : Sim) :
  (forall x, set_order x ≡ₚ elements x) ->
  engine_invariant s ->
  exists s' completed sounds,
    tick collide_circle rect_coord set_order s = (s', Ok (completed, sounds)) /\
    engine_invariant s' /\
    completed = simulation_completed (heap s') (all_animals (engine s')) /\
    (completed = true <->
     all_animals (engine s') = [] \/
     forall a, a ∈ live_animals (engine s') -> _subject_animal (heap s' a) = None).
Proof.
  intros Hord Hinv. unfold tick, bind at 1, get. cbn beta iota zeta.
  destruct (collisions_phase_total s) as [s1 H1].
  assert (Hinv1 : engine_invariant s1).
  { pose proof (writes_within_invariant _ s
      (writes_within_collisions_phase (live_animals (engine s))) Hinv) as H.
    rewrite H1 in H. exact H. }
  unfold bind at 1. rewrite H1.
  destruct (wall_collisions_phase_total (screen (engine s)) s1) as [s2 H2].
  assert (Hinv2 : engine_invariant s2).
  { pose proof (writes_within_invariant _ s1
      (writes_within_wall_collisions_phase (live_animals (engine s1))
         (GameBoard.init (screen (engine s)))) Hinv1) as H.
    rewrite H2 in H. exact H. }
  unfold bind at 1. rewrite H2.
  destruct (death_phase_invariant s2 Hinv2) as (s3 & H3 & Hinv3).
  unfold bind at 1. rewrite H3.
  destruct (removal_phase_invariant s3 Hinv3) as (s4 & H4 & Hinv4).
  unfold bind at 1. rewrite H4.
  destruct (update_phase_invariant s4 Hord Hinv4) as (s5 & H5 & Hinv5 & Hiff).
  unfold bind at 1. rewrite H5.
  unfold bind, get, play_delayed_sounds, on_engine, modify, ret. cbn beta iota.
  eexists _, _, _. split; [reflexivity|]. cbn [heap engine].
  split; [exact Hinv5|]. split; [reflexivity|exact Hiff].
Qed.

(** [add_animals] sorts the animals into the two groups by their health: it
    establishes the invariant, in particular from an engine without
    animals. *)
Lemma add_animals_invariant (animals : list Ident) (s : Sim) :
  engine_invariant s ->
  (forall a, a ∈ live_animals (engine s) -> is_dead (heap s a) = false) ->
  exists s',
    add_animals animals s = (s', Ok tt) /\ heap s' = heap s /\
    engine_invariant s' /\
    (forall a, a ∈ live_animals (engine s') -> is_dead (heap s' a) = false).
Proof.
  revert s. induction animals as [|x rest IH]; intros s Hinv Halive.
  - exists s. auto.
  - destruct Hinv as (Hl & Hd & Hdis & Hdead).
    unfold add_animals. simpl. unfold bind at 1. unfold bind at 1, get.
    cbn beta iota. fold (add_animals rest).
    destruct (is_dead (heap s x)) eqn:Ex;
      unfold on_engine, modify; cbn beta iota; set (s1 := mkSim _ _);
      destruct (IH s1) as (s' & Hrun & Hh & Hinv' & Halive').
    + subst s1. split; [exact Hl|]. split; [apply NoDup_group_add; exact Hd|].
      cbn [heap engine live_animals dying_animals]. split.
      * intros a Ha Hin. apply elem_of_group_add in Hin as [Hin| ->].
        -- exact (Hdis a Ha Hin).
        -- rewrite (Halive x Ha) in Ex. discriminate.
      * intros d Hin. apply elem_of_group_add in Hin as [Hin| ->];
          [apply Hdead; exact Hin|exact Ex].
    + exact Halive.
    + exists s'. auto.
    + subst s1. split; [apply NoDup_group_add; exact Hl|]. split; [exact Hd|].
      cbn [heap engine live_animals dying_animals]. split.
      * intros a Ha Hin. apply elem_of_group_add in Ha as [Ha| ->].
        -- exact (Hdis a Ha Hin).
        -- rewrite (Hdead x Hin) in Ex. discriminate.
      * exact Hdead.
    + subst s1. cbn [heap engine live_animals]. intros a Ha.
      apply elem_of_group_add in Ha as [Ha| ->]; [apply Halive; exact Ha|exact Ex].
    + exists s'. auto.
Qed.

(** * Further properties of the simulation *)

(** ** engine.py: [all_animals] *)

Lemma NoDup_fold_group_add (l acc : Group) :
  NoDup acc -> NoDup (fold_left group_add l acc).
Proof.
  revert acc. induction l as [|x l IH]; intros acc H; simpl; [exact H|].
  apply IH, NoDup_group_add, H.
Qed.

Lemma fold_group_add_app (l acc : Group) :
  NoDup l -> (forall x, x ∈ l -> x ∉ acc) ->
  fold_left group_add l acc = acc ++ l.
Proof.
  revert acc. induction l as [|x l IH]; intros acc Hl Hdis; simpl.
  - rewrite app_nil_r. reflexivity.
  - apply NoDup_cons in Hl as [Hx Hl].
    assert (Hfresh : x ∉ acc) by (apply Hdis; left).
    unfold group_add at 2. destruct (decide (x ∈ acc)) as [Hin|_]; [contradiction|].
    rewrite IH.
    + rewrite <- app_assoc. reflexivity.
    + exact Hl.
    + intros y Hy Hin. apply elem_of_app in Hin as [Hin|Hin].
      * apply (Hdis y); [right; exact Hy|exact Hin].
      * apply list_elem_of_singleton in Hin. subst y. contradiction.
Qed.

(** X12. [all_animals] holds every live and every dying animal, and no
    animal twice, whatever the two groups are.  When the two groups are
    disjoint (as the engine keeps them), it lists the live animals first
    and the dying ones after them, each group in its own order: this is the
    order in which the update loop visits the animals. *)
Theorem all_animals_live_then_dying (e : Engine) :
  NoDup (all_animals e) /\
  (forall a, a ∈ all_animals e <-> a ∈ live_animals e \/ a ∈ dying_animals e) /\
  (NoDup (live_animals e) -> NoDup (dying_animals e) ->
   (forall a, a ∈ live_animals e -> a ∉ dying_animals e) ->
   all_animals e = live_animals e ++ dying_animals e).
Proof.
  split; [|split].
  - unfold all_animals. apply NoDup_fold_group_add, NoDup_fold_group_add, NoDup_nil_2.
  - intros a. apply elem_of_all_animals.
  - intros Hl Hd Hdis. unfold all_animals.
    rewrite (fold_group_add_app (live_animals e) []).
    + rewrite app_nil_l. apply fold_group_add_app; [exact Hd|].
      intros x Hx Hin. exact (Hdis x Hin Hx).
    + exact Hl.
    + intros x _ Hin. apply elem_of_nil in Hin. exact Hin.
Qed.

(** ** movement.py: [collide_animals] *)

Lemma with_rect_center_id (a : Animal) : with_rect_center (position a) a = a.
Proof. destruct a as [? ? [? ? ?] ? ? ? ? ? ? ? ? ? ?]. reflexivity. Qed.

Lemma set_velocity_cell (self : Ident) (v : Vec) (w : World) (i : Ident) :
  exists brake,
    fst (set_velocity self v w) i
      = if decide (i = self)
        then with_velocity v (with_slow_down_force brake (w i))
        else w i.
Proof.
  rewrite set_velocity_run. cbn [fst]. eexists.
  destruct (decide (i = self)) as [->|Hne].
  - rewrite fn_lookup_insert. reflexivity.
  - rewrite fn_lookup_insert_ne by congruence. reflexivity.
Qed.

Lemma collide_animals_run (a b : Ident) (w : World) :
  let d := distance_to (w a) (w b) in
  let c := div (of_Z (vector_to (w a) (w b))) d in
  let reach := IZR (radius (w a) + radius (w b)) in
  let k := IZR (py_int (IZR (np_ceil (reach - d)))) in
  let qa := snap_to_grid_in_direction
              (sub (of_Z (position (w a))) (div (scale c k) 2)) (neg c) in
  let qb := snap_to_grid_in_direction
              (add (of_Z (position (w b))) (div (scale c k) 2)) c in
  d <> 0 ->
  exists w1 u1 u2,
    collide c (_velocity (w a)) (_velocity (w b)) (mass (w a)) (mass (w b))
      = Ok (u1, u2) /\
    collide_animals rect_coord a b w
      = (fst (set_velocity b u2 (fst (set_velocity a u1 w1))), Ok tt) /\
    (forall i, exists q, w1 i = with_rect_center q (w i)) /\
    (forall i, i <> a -> i <> b -> w1 i = w i) /\
    (reach <= d -> w1 = w) /\
    (d < reach ->
     position (w1 a) = (rect_coord (fst qa), rect_coord (snd qa)) /\
     position (w1 b) = (rect_coord (fst qb), rect_coord (snd qb))).
Proof.
  cbv zeta. intros Hd.
  assert (Hab : a <> b).
  { intros ->. apply Hd. apply distance_to_same. reflexivity. }
  destruct (normalized_vector_to_unit _ _ Hd) as (c & Hc & Hn).
  assert (Ec : c = div (of_Z (vector_to (w a) (w b))) (distance_to (w a) (w b))).
  { unfold normalized_vector_to in Hc.
    destruct (Req_dec_T (distance_to (w a) (w b)) 0); [contradiction|].
    injection Hc as <-. reflexivity. }
  rewrite <- Ec.
  unfold collide_animals. unfold bind at 1, get. cbn beta iota zeta.
  destruct (Req_dec_T (distance_to (w a) (w b)) 0) as [E|_]; [contradiction|].
  unfold bind at 1, lift_result. rewrite Hc. cbn beta iota.
  unfold bind at 1.
  destruct (Rlt_dec (distance_to (w a) (w b)) (IZR (radius (w a) + radius (w b))))
    as [Hclose|Hfar].
  - unfold bind at 1. rewrite set_position_run. cbn beta iota.
    rewrite set_position_run.
    rewrite fn_lookup_insert_ne by congruence.
    set (w1 := <[b := _]> (<[a := _]> w)).
    assert (Ha1 : w1 a = with_rect_center
                    (rect_coord (fst (snap_to_grid_in_direction
                       (sub (of_Z (position (w a)))
                          (div (scale c (IZR (py_int (IZR (np_ceil
                             (IZR (radius (w a) + radius (w b))
                              - distance_to (w a) (w b))))))) 2)) (neg c))),
                     rect_coord (snd (snap_to_grid_in_direction
                       (sub (of_Z (position (w a)))
                          (div (scale c (IZR (py_int (IZR (np_ceil
                             (IZR (radius (w a) + radius (w b))
                              - distance_to (w a) (w b))))))) 2)) (neg c))))
                    (w a)).
    { unfold w1. rewrite fn_lookup_insert_ne by congruence.
      apply fn_lookup_insert. }
    assert (Hb1 : w1 b = with_rect_center
                    (rect_coord (fst (snap_to_grid_in_direction
                       (add (of_Z (position (w b)))
                          (div (scale c (IZR (py_int (IZR (np_ceil
                             (IZR (radius (w a) + radius (w b))
                              - distance_to (w a) (w b))))))) 2)) c)),
                     rect_coord (snd (snap_to_grid_in_direction
                       (add (of_Z (position (w b)))
                          (div (scale c (IZR (py_int (IZR (np_ceil
                             (IZR (radius (w a) + radius (w b))
                              - distance_to (w a) (w b))))))) 2)) c)))
                    (w b)).
    { unfold w1. apply fn_lookup_insert. }
    assert (Hi1 : forall i, i <> a -> i <> b -> w1 i = w i).
    { intros i Hia Hib. unfold w1.
      rewrite !fn_lookup_insert_ne by congruence. reflexivity. }
    unfold bind at 1, get. cbn beta iota.
    destruct (collide_Ok c (_velocity (w a)) (_velocity (w b)) (mass (w a))
                (mass (w b)) Hn) as [[u1 u2] Hus].
    exists w1, u1, u2. split; [exact Hus|]. split.
    + unfold bind at 1, lift_result. rewrite Ha1, Hb1.
      change (_velocity (with_rect_center ?q ?x)) with (_velocity x).
      change (mass (with_rect_center ?q ?x)) with (mass x).
      rewrite Hus. cbn beta iota. cbn [fst snd].
      unfold bind. destruct (set_velocity_total a u1 w1) as [w2 H2].
      rewrite H2. cbn [fst]. destruct (set_velocity_total b u2 w2) as [w3 H3].
      rewrite H3. reflexivity.
    + split; [|split; [exact Hi1|split]].
      * intros i. destruct (decide (i = a)) as [->|Hia];
          [eexists; exact Ha1|].
        destruct (decide (i = b)) as [->|Hib]; [eexists; exact Hb1|].
        exists (position (w i)). rewrite with_rect_center_id. apply Hi1; assumption.
      * intros Hle. lra.
      * intros _. rewrite Ha1, Hb1. split; reflexivity.
  - unfold ret at 1. cbn beta iota. unfold bind at 1, get. cbn beta iota.
    destruct (collide_Ok c (_velocity (w a)) (_velocity (w b)) (mass (w a))
                (mass (w b)) Hn) as [[u1 u2] Hus].
    exists w, u1, u2. split; [exact Hus|]. split.
    + unfold bind at 1, lift_result. rewrite Hus. cbn beta iota. cbn [fst snd].
      unfold bind. destruct (set_velocity_total a u1 w) as [w2 H2].
      rewrite H2. cbn [fst]. destruct (set_velocity_total b u2 w2) as [w3 H3].
      rewrite H3. reflexivity.
    + split; [|split; [reflexivity|split]].
      * intros i. exists (position (w i)). symmetry. apply with_rect_center_id.
      * reflexivity.
      * intros Hlt. contradiction.
Qed.

Lemma set_velocity_twice_cells (a b : Ident) (u1 u2 : Vec) (w1 : World) :
  a <> b ->
  let w' := fst (set_velocity b u2 (fst (set_velocity a u1 w1))) in
  (exists brake, w' a = with_velocity u1 (with_slow_down_force brake (w1 a))) /\
  (exists brake, w' b = with_velocity u2 (with_slow_down_force brake (w1 b))) /\
  (forall i, i <> a -> i <> b -> w' i = w1 i).
Proof.
  intros Hab. cbv zeta. set (w2 := fst (set_velocity a u1 w1)).
  split; [|split].
  - destruct (set_velocity_cell b u2 w2 a) as [f2 H2].
    destruct (set_velocity_cell a u1 w1 a) as [f1 H1]. fold w2 in H1.
    rewrite H2. destruct (decide (a = b)) as [E|_]; [contradiction|].
    rewrite H1. destruct (decide (a = a)) as [_|E]; [|contradiction].
    exists f1. reflexivity.
  - destruct (set_velocity_cell b u2 w2 b) as [f2 H2].
    destruct (set_velocity_cell a u1 w1 b) as [f1 H1]. fold w2 in H1.
    rewrite H2. destruct (decide (b = b)) as [_|E]; [|contradiction].
    rewrite H1. destruct (decide (b = a)) as [E|_]; [congruence|].
    exists f2. reflexivity.
  - intros i Hia Hib.
    destruct (set_velocity_cell b u2 w2 i) as [f2 H2].
    destruct (set_velocity_cell a u1 w1 i) as [f1 H1]. fold w2 in H1.
    rewrite H2. destruct (decide (i = b)) as [E|_]; [contradiction|].
    rewrite H1. destruct (decide (i = a)) as [E|_]; [contradiction|].
    reflexivity.
Qed.

(** X13. [collide_animals] never raises and writes the position, the
    velocity and the brake of the two animals only.  Two animals at the same
    position pass through each other: nothing is written.  Otherwise the two
    velocities are exchanged as in an elastic collision: the total momentum,
    the total kinetic energy and the relative speed of the pair are the same
    after the call as before. *)
Theorem collide_animals_is_elastic (a b : Ident) (w : World) :
  let w' := fst (collide_animals rect_coord a b w) in
  let m1 := mass (w a) in
  let m2 := mass (w b) in
  snd (collide_animals rect_coord a b w) = Ok tt /\
  (forall i, i <> a -> i <> b -> w' i = w i) /\
  (forall i, mass (w' i) = mass (w i) /\ radius (w' i) = radius (w i) /\
             animal_image (w' i) = animal_image (w i) /\
             eats (w' i) = eats (w i) /\
             _subject_animal (w' i) = _subject_animal (w i) /\
             propulsion_force (w' i) = propulsion_force (w i)) /\
  (position (w a) = position (w b) -> w' = w) /\
  (position (w a) <> position (w b) -> m1 + m2 <> 0 ->
   add (scale (_velocity (w' a)) m1) (scale (_velocity (w' b)) m2)
     = add (scale (_velocity (w a)) m1) (scale (_velocity (w b)) m2) /\
   m1 * inner (_velocity (w' a)) (_velocity (w' a))
     + m2 * inner (_velocity (w' b)) (_velocity (w' b))
     = m1 * inner (_velocity (w a)) (_velocity (w a))
       + m2 * inner (_velocity (w b)) (_velocity (w b)) /\
   norm (sub (_velocity (w' a)) (_velocity (w' b)))
     = norm (sub (_velocity (w a)) (_velocity (w b)))).
Proof.
  cbv zeta.
  destruct (Req_dec_T (distance_to (w a) (w b)) 0) as [Hzero|Hd].
  - assert (Hrun : collide_animals rect_coord a b w = (w, Ok tt)).
    { unfold collide_animals, bind, get. cbn beta iota zeta.
      destruct (Req_dec_T (distance_to (w a) (w b)) 0); [reflexivity|contradiction]. }
    rewrite Hrun. cbn [fst snd]. split; [reflexivity|].
    split; [reflexivity|]. split; [intros i; repeat split|].
    split; [reflexivity|]. intros Hne. exfalso. apply Hne, distance_to_zero, Hzero.
  - destruct (collide_animals_run a b w Hd)
      as (w1 & u1 & u2 & Hus & Hrun & Hcells & Hothers & _ & _).
    assert (Hab : a <> b).
    { intros ->. apply Hd. apply distance_to_same. reflexivity. }
    destruct (set_velocity_twice_cells a b u1 u2 w1 Hab) as ([fa Ha] & [fb Hb] & Hrest).
    rewrite Hrun. cbn [fst snd].
    set (w' := fst (set_velocity b u2 (fst (set_velocity a u1 w1)))) in *.
    split; [reflexivity|]. split.
    { intros i Hia Hib. rewrite Hrest by assumption. apply Hothers; assumption. }
    split.
    { intros i. destruct (Hcells i) as [q Hq].
      destruct (decide (i = a)) as [->|Hia]; [rewrite Ha, Hq; repeat split|].
      destruct (decide (i = b)) as [->|Hib]; [rewrite Hb, Hq; repeat split|].
      rewrite Hrest, Hq by assumption. repeat split. }
    split.
    { intros Hsame. exfalso. apply Hd, distance_to_same, Hsame. }
    intros _ Hm.
    assert (Hn : norm (div (of_Z (vector_to (w a) (w b))) (distance_to (w a) (w b))) <> 0).
    { unfold distance_to in *. rewrite norm_div_self; [lra|].
      apply norm_pos. exact Hd. }
    rewrite Ha, Hb.
    change (_velocity (with_velocity ?v ?x)) with v.
    split; [exact (collide_momentum_vector _ _ _ _ _ _ _ Hn Hm Hus)|].
    split; [exact (collide_conserves_energy _ _ _ _ _ _ _ Hn Hm Hus)|].
    exact (proj2 (proj2 (collide_relative_velocity _ _ _ _ _ _ _ Hn Hm Hus))).
Qed.

(** *** The push apart *)

Lemma snapped_gap (pa pb : Z) (cx k d : R) :
  IZR pb - IZR pa = cx * d -> 0 <= k -> 0 <= d ->
  let p1 := IZR pa - cx * k / 2 in
  let p2 := IZR pb + cx * k / 2 in
  let q1 := IZR (if Rlt_dec 0 (- cx) then np_ceil p1 else np_floor p1) in
  let q2 := IZR (if Rlt_dec 0 cx then np_ceil p2 else np_floor p2) in
  (cx * (d + k)) * (cx * (d + k)) <= (q2 - q1) * (q2 - q1).
Proof.
  intros Hgap Hk Hd. cbv zeta.
  pose proof (np_floor_bounds (IZR pa - cx * k / 2)) as Hf1.
  pose proof (np_ceil_bounds (IZR pa - cx * k / 2)) as Hc1.
  pose proof (np_floor_bounds (IZR pb + cx * k / 2)) as Hf2.
  pose proof (np_ceil_bounds (IZR pb + cx * k / 2)) as Hc2.
  destruct (Rlt_dec 0 cx) as [Hpos|Hnpos].
  - destruct (Rlt_dec 0 (- cx)) as [Hneg|_]; [lra|].
    assert (0 <= cx * (d + k)) by nra.
    assert (cx * (d + k) <= IZR (np_ceil (IZR pb + cx * k / 2))
                            - IZR (np_floor (IZR pa - cx * k / 2))) by nra.
    nra.
  - destruct (Rlt_dec 0 (- cx)) as [Hneg|Hnneg].
    + assert (cx * (d + k) <= 0) by nra.
      assert (IZR (np_floor (IZR pb + cx * k / 2))
              - IZR (np_ceil (IZR pa - cx * k / 2)) <= cx * (d + k)) by nra.
      nra.
    + assert (Hcx : cx = 0) by lra. subst cx.
      replace (IZR pa - 0 * k / 2) with (IZR pa) by field.
      replace (IZR pb + 0 * k / 2) with (IZR pb) by field.
      rewrite !np_floor_IZR. nra.
Qed.

(** X14. Overlapping animals are pushed apart.  When the centres of two
    animals at different positions are closer than the sum of the radii,
    [collide_animals] moves both centres along the line that joins them, and
    after the call the centres are at least the sum of the radii apart.  (A
    rectangle centre set from whole-number floats takes these numbers.)
    Animals that do not overlap keep their positions. *)
Theorem collide_animals_pushes_apart (a b : Ident) (w : World) :
  (forall z, rect_coord (IZR z) = z) ->
  position (w a) <> position (w b) ->
  let w' := fst (collide_animals rect_coord a b w) in
  let reach := IZR (radius (w a) + radius (w b)) in
  (distance_to (w a) (w b) < reach -> reach <= distance_to (w' a) (w' b)) /\
  (reach <= distance_to (w a) (w b) ->
   forall i, position (w' i) = position (w i)).
Proof.
  intros Hrc Hne. cbv zeta.
  assert (Hd : distance_to (w a) (w b) <> 0).
  { intros E. apply Hne, distance_to_zero, E. }
  assert (Hab : a <> b).
  { intros ->. apply Hne. reflexivity. }
  pose proof (collide_animals_run a b w Hd) as Hrun. cbv zeta in Hrun.
  destruct Hrun as (w1 & u1 & u2 & _ & Hrun & _ & _ & Hfar & Hclose).
  destruct (set_velocity_twice_cells a b u1 u2 w1 Hab) as ([fa Ha] & [fb Hb] & Hrest).
  rewrite Hrun. cbn [fst].
  set (w' := fst (set_velocity b u2 (fst (set_velocity a u1 w1)))) in *.
  assert (Hpos : forall i, position (w' i) = position (w1 i)).
  { intros i. destruct (decide (i = a)) as [->|Hia]; [rewrite Ha; reflexivity|].
    destruct (decide (i = b)) as [->|Hib]; [rewrite Hb; reflexivity|].
    rewrite Hrest by assumption. reflexivity. }
  split.
  - intros Hlt. destruct (Hclose Hlt) as [Hqa Hqb]. clear Hclose Hfar.
    pose proof (norm_pos _ Hd) as Hdpos. fold (distance_to (w a) (w b)) in Hdpos.
    set (d := distance_to (w a) (w b)) in *.
    set (reach := IZR (radius (w a) + radius (w b))) in *.
    rewrite py_int_IZR in Hqa, Hqb.
    set (k := IZR (np_ceil (reach - d))) in *.
    assert (Hk : reach - d <= k) by (apply np_ceil_bounds).
    set (c := div (of_Z (vector_to (w a) (w b))) d) in *.
    assert (Hunit : fst c * fst c + snd c * snd c = 1).
    { rewrite <- norm_sqr. unfold c, d, distance_to.
      rewrite norm_div_self; [ring|exact Hdpos]. }
    assert (Hgx : IZR (fst (position (w b))) - IZR (fst (position (w a))) = fst c * d).
    { unfold c, div, of_Z, vector_to. cbn [fst snd]. rewrite minus_IZR.
      field. exact Hd. }
    assert (Hgy : IZR (snd (position (w b))) - IZR (snd (position (w a))) = snd c * d).
    { unfold c, div, of_Z, vector_to. cbn [fst snd]. rewrite minus_IZR.
      field. exact Hd. }
    pose proof (snapped_gap _ _ (fst c) k d Hgx ltac:(lra) ltac:(lra)) as Hx.
    pose proof (snapped_gap _ _ (snd c) k d Hgy ltac:(lra) ltac:(lra)) as Hy.
    cbv zeta in Hx, Hy.
    unfold snap_to_grid_in_direction in Hqa, Hqb. cbn [fst snd] in Hqa, Hqb.
    rewrite !Hrc in Hqa, Hqb.
    unfold sub, add, div, scale, neg, of_Z in Hqa, Hqb. cbn [fst snd] in Hqa, Hqb.
    unfold distance_to at 1. apply Rsqr_incr_0_var; [|apply norm_nonneg].
    unfold Rsqr. rewrite norm_sqr. unfold of_Z, vector_to. cbn [fst snd].
    rewrite !Hpos, Hqa, Hqb. cbn [fst snd]. rewrite !minus_IZR.
    assert (Hsum : reach * reach <= (d + k) * (d + k)) by nra.
    assert (Hsplit : (d + k) * (d + k)
                     = fst c * (d + k) * (fst c * (d + k))
                       + snd c * (d + k) * (snd c * (d + k))).
    { transitivity ((fst c * fst c + snd c * snd c) * ((d + k) * (d + k)));
        [rewrite Hunit; ring|ring]. }
    lra.
  - intros Hge i. rewrite Hpos, (Hfar Hge). reflexivity.
Qed.

(** ** movement.py: [collide_animal_into_wall] *)

Lemma gameboard_wall_cases (screen : Screen) (name : string) (wall : Wall.t) :
  (name, wall) ∈ GameBoard.walls (GameBoard.init screen) ->
  (Wall.normal wall = (0, 1) /\
   forall a, Wall.distance_to wall a = (snd (position a) + radius a - 35)%Z) \/
  (Wall.normal wall = (1, 0) /\
   forall a, Wall.distance_to wall a = (fst (position a) + radius a - 30)%Z) \/
  (Wall.normal wall = (0, -1) /\
   forall a, Wall.distance_to wall a
             = (get_height screen - (snd (position a) + radius a) - 4)%Z) \/
  (Wall.normal wall = (-1, 0) /\
   forall a, Wall.distance_to wall a
             = (get_width screen - (fst (position a) + radius a) - 30)%Z).
Proof.
  intros Hin. pose proof (gameboard_walls screen name wall Hin) as Hn.
  simpl in Hin. rewrite !elem_of_cons, elem_of_nil in Hin.
  destruct Hin as [H|[H|[H|[H|[]]]]]; injection H as -> ->;
    destruct Hn as [[Hname Hn]|[[Hname Hn]|[[Hname Hn]|[Hname Hn]]]];
    try discriminate Hname.
  - left. split; [exact Hn|reflexivity].
  - right; left. split; [exact Hn|reflexivity].
  - right; right; left. split; [exact Hn|reflexivity].
  - right; right; right. split; [exact Hn|reflexivity].
Qed.

Lemma collide_animal_into_wall_position (animal : Ident) (wall : Wall.t)
    (w : World) :
  let w' := fst (collide_animal_into_wall rect_coord animal wall w) in
  let distance := Wall.distance_to wall (w animal) in
  let q := snap_to_grid_in_direction
             (add (of_Z (position (w animal)))
                (scale (Wall.normal wall) (IZR (Z.abs distance))))
             (Wall.normal wall) in
  position (w' animal)
    = (if (distance <? 0)%Z then (rect_coord (fst q), rect_coord (snd q))
       else position (w animal)) /\
  radius (w' animal) = radius (w animal).
Proof.
  cbv zeta.
  assert (Hrun : exists w' r,
    collide_animal_into_wall rect_coord animal wall w = (w', r) /\
    position (w' animal)
      = (if (Wall.distance_to wall (w animal) <? 0)%Z
         then (rect_coord (fst (snap_to_grid_in_direction
                 (add (of_Z (position (w animal)))
                    (scale (Wall.normal wall)
                       (IZR (Z.abs (Wall.distance_to wall (w animal))))))
                 (Wall.normal wall))),
               rect_coord (snd (snap_to_grid_in_direction
                 (add (of_Z (position (w animal)))
                    (scale (Wall.normal wall)
                       (IZR (Z.abs (Wall.distance_to wall (w animal))))))
                 (Wall.normal wall))))
         else position (w animal)) /\
    radius (w' animal) = radius (w animal)).
  { unfold collide_animal_into_wall. unfold bind at 1, get.
    cbn beta iota zeta. unfold bind at 1.
    destruct (Wall.distance_to wall (w animal) <? 0)%Z.
    - rewrite set_position_run. unfold bind at 1, get. cbn beta iota.
      set (w1 := <[animal := _]> w).
      unfold bind, lift_result.
      destruct (collide _ _ _ _ _) as [us|e].
      + rewrite set_velocity_run. eexists _, _. split; [reflexivity|].
        rewrite fn_lookup_insert. unfold w1. rewrite fn_lookup_insert.
        split; reflexivity.
      + eexists _, _. split; [reflexivity|].
        unfold w1. rewrite fn_lookup_insert. split; reflexivity.
    - unfold ret at 1. cbn beta iota. unfold bind at 1, get. cbn beta iota.
      unfold bind, lift_result.
      destruct (collide _ _ _ _ _) as [us|e].
      + rewrite set_velocity_run. eexists _, _. split; [reflexivity|].
        rewrite fn_lookup_insert. split; reflexivity.
      + eexists _, _. split; [reflexivity|]. split; reflexivity. }
  destruct Hrun as (w' & r & -> & Hpos & Hrad). cbn [fst].
  split; assumption.
Qed.

Lemma snap_grid_point (z : Z * Z) (direction : Vec) :
  snap_to_grid_in_direction (of_Z z) direction = of_Z z.
Proof.
  unfold snap_to_grid_in_direction, of_Z. cbn [fst snd].
  rewrite !np_floor_IZR, !np_ceil_IZR.
  destruct (Rlt_dec 0 (fst direction)), (Rlt_dec 0 (snd direction)); reflexivity.
Qed.

(** X15. A wall puts an animal that went through it back on its line.  For
    each of the four walls of the game board, an animal at a negative
    distance from the wall is moved along the normal by exactly that
    distance, so that its distance from the wall is zero after the call; an
    animal at a distance that is not negative keeps its position.  The
    radius is unchanged, and no other animal is written.  (A rectangle
    centre set from whole-number floats takes these numbers.) *)
Theorem wall_puts_animal_back_on_line (screen : Screen) (name : string)
    (wall : Wall.t) (animal : Ident) (w : World) :
  (forall z, rect_coord (IZR z) = z) ->
  (name, wall) ∈ GameBoard.walls (GameBoard.init screen) ->
  let w' := fst (collide_animal_into_wall rect_coord animal wall w) in
  ((Wall.distance_to wall (w animal) < 0)%Z ->
   Wall.distance_to wall (w' animal) = 0%Z) /\
  ((0 <= Wall.distance_to wall (w animal))%Z ->
   position (w' animal) = position (w animal)) /\
  radius (w' animal) = radius (w animal) /\
  (forall i, i <> animal -> w' i = w i).
Proof.
  intros Hrc Hin. cbv zeta.
  pose proof (collide_animal_into_wall_position animal wall w) as Hpos.
  cbv zeta in Hpos. destruct Hpos as [Hpos Hrad].
  split; [|split; [|split; [exact Hrad|]]].
  - intros Hneg. apply Z.ltb_lt in Hneg as Hb. rewrite Hb in Hpos.
    set (p := position (w animal)) in *.
    set (k := Z.abs (Wall.distance_to wall (w animal))) in *.
    destruct (gameboard_wall_cases screen name wall Hin)
      as [[Hn Hd]|[[Hn Hd]|[[Hn Hd]|[Hn Hd]]]];
      rewrite Hn in Hpos; rewrite Hd in *; fold p in Hneg, k.
    + replace (add (of_Z p) (scale (0, 1) (IZR k)))
        with (of_Z (fst p, snd p + k)%Z) in Hpos
        by (unfold add, scale, of_Z; cbn [fst snd]; rewrite plus_IZR;
            f_equal; ring).
      rewrite snap_grid_point in Hpos. unfold of_Z in Hpos. cbn [fst snd] in Hpos.
      rewrite !Hrc in Hpos. rewrite Hpos, Hrad. cbn [fst snd]. subst k. rewrite Hd. fold p. lia.
    + replace (add (of_Z p) (scale (1, 0) (IZR k)))
        with (of_Z (fst p + k, snd p)%Z) in Hpos
        by (unfold add, scale, of_Z; cbn [fst snd]; rewrite plus_IZR;
            f_equal; ring).
      rewrite snap_grid_point in Hpos. unfold of_Z in Hpos. cbn [fst snd] in Hpos.
      rewrite !Hrc in Hpos. rewrite Hpos, Hrad. cbn [fst snd]. subst k. rewrite Hd. fold p. lia.
    + replace (add (of_Z p) (scale (0, -1) (IZR k)))
        with (of_Z (fst p, snd p - k)%Z) in Hpos
        by (unfold add, scale, of_Z; cbn [fst snd]; rewrite minus_IZR;
            f_equal; ring).
      rewrite snap_grid_point in Hpos. unfold of_Z in Hpos. cbn [fst snd] in Hpos.
      rewrite !Hrc in Hpos. rewrite Hpos, Hrad. cbn [fst snd]. subst k. rewrite Hd. fold p. lia.
    + replace (add (of_Z p) (scale (-1, 0) (IZR k)))
        with (of_Z (fst p - k, snd p)%Z) in Hpos
        by (unfold add, scale, of_Z; cbn [fst snd]; rewrite minus_IZR;
            f_equal; ring).
      rewrite snap_grid_point in Hpos. unfold of_Z in Hpos. cbn [fst snd] in Hpos.
      rewrite !Hrc in Hpos. rewrite Hpos, Hrad. cbn [fst snd]. subst k. rewrite Hd. fold p. lia.
  - intros Hpos'. apply Z.ltb_ge in Hpos'. rewrite Hpos' in Hpos. exact Hpos.
  - intros i Hi. apply (touches_collide_animal_into_wall animal wall w i).
    exact Hi.
Qed.

(** ** movement.py: [find_collisions] leaves no collision out *)

Lemma find_collision_None (w : World) (animal : Ident) (g : Group) :
  find_collision collide_circle w animal g = None ->
  forall z, z ∈ g -> collide_circle (w animal) (w z) = false.
Proof.
  induction g as [|other rest IH]; simpl; intros Hf z Hz.
  - apply elem_of_nil in Hz. contradiction.
  - destruct (collide_circle (w animal) (w other)) eqn:E; [discriminate|].
    apply elem_of_cons in Hz as [->|Hz]; [exact E|]. apply IH; assumption.
Qed.

Lemma find_collisions_loop_extends (w : World) (g : Group) (cs : list Collision)
    (x : Ident) :
  x ∈ collision_animals cs ->
  x ∈ collision_animals (find_collisions_loop collide_circle w g cs).
Proof.
  funelim (find_collisions_loop collide_circle w g cs); intros Hx.
  - exact Hx.
  - match goal with IH : _ -> _ |- _ ∈ _ => apply IH end.
    rewrite collision_animals_snoc. apply elem_of_app. left. exact Hx.
  - match goal with IH : _ -> _ |- _ ∈ _ => apply IH end. exact Hx.
Qed.

Lemma find_collisions_loop_maximal (w : World) (g : Group) (cs : list Collision)
    (x y : Ident) :
  (forall a b, collide_circle a b = collide_circle b a) ->
  x ∈ g -> y ∈ g -> x <> y ->
  x ∉ collision_animals (find_collisions_loop collide_circle w g cs) ->
  y ∉ collision_animals (find_collisions_loop collide_circle w g cs) ->
  collide_circle (w x) (w y) = false.
Proof.
  funelim (find_collisions_loop collide_circle w g cs);
    intros Hsym Hx Hy Hxy Hnx Hny.
  - apply elem_of_nil in Hx. contradiction.
  - match goal with Hf : find_collision collide_circle _ _ _ = Some _ |- _ =>
      destruct (find_collision_Some _ _ _ _ Hf) as (H1 & H2 & _) end.
    assert (Hpaired : forall z,
      z ∉ collision_animals
            (find_collisions_loop collide_circle w
               (group_remove
                  (group_remove (group_remove (animal :: rest) animal)
                     (animal1 collision)) (animal2 collision))
               (collisions ++ [collision])) ->
      z <> animal1 collision /\ z <> animal2 collision).
    { intros z Hz. split; intros ->; apply Hz, find_collisions_loop_extends;
        rewrite collision_animals_snoc; apply elem_of_app; right.
      - left.
      - right. left. }
    destruct (Hpaired x Hnx) as [Hx1 Hx2]. destruct (Hpaired y Hny) as [Hy1 Hy2].
    match goal with IH : _ -> _ -> _ -> _ -> _ -> _ -> _ |- _ = false =>
      apply IH; try assumption end.
    + repeat (apply elem_of_group_remove; split); try assumption. congruence.
    + repeat (apply elem_of_group_remove; split); try assumption. congruence.
  - match goal with Hf : find_collision collide_circle _ _ _ = None |- _ =>
      pose proof (find_collision_None _ _ _ Hf) as Hnone end.
    destruct (decide (x = animal)) as [->|Hxa].
    + apply Hnone. apply elem_of_group_remove. split; [exact Hy|congruence].
    + destruct (decide (y = animal)) as [->|Hya].
      * rewrite Hsym. apply Hnone. apply elem_of_group_remove.
        split; [exact Hx|exact Hxa].
      * match goal with IH : _ -> _ -> _ -> _ -> _ -> _ -> _ |- _ = false =>
          apply IH; try assumption end.
        -- apply elem_of_group_remove. split; assumption.
        -- apply elem_of_group_remove. split; assumption.
Qed.

(** X16. [find_collisions] leaves no collision out.  With a symmetric
    circle test (as the one of pygame is), two distinct members of the group
    that are both left without a partner do not collide with each other; and
    the list of collisions is empty exactly when no two distinct members of
    the group collide. *)
Theorem find_collisions_is_maximal (w : World) (animal_group : Group) :
  (forall a b, collide_circle a b = collide_circle b a) ->
  let paired := collision_animals (find_collisions collide_circle w animal_group) in
  (forall x y, x ∈ animal_group -> y ∈ animal_group -> x <> y ->
     x ∉ paired -> y ∉ paired -> collide_circle (w x) (w y) = false) /\
  (find_collisions collide_circle w animal_group = [] <->
   forall x y, x ∈ animal_group -> y ∈ animal_group -> x <> y ->
     collide_circle (w x) (w y) = false).
Proof.
  intros Hsym. cbv zeta.
  assert (Hmax : forall x y, x ∈ animal_group -> y ∈ animal_group -> x <> y ->
    x ∉ collision_animals (find_collisions collide_circle w animal_group) ->
    y ∉ collision_animals (find_collisions collide_circle w animal_group) ->
    collide_circle (w x) (w y) = false).
  { intros x y. unfold find_collisions. apply find_collisions_loop_maximal.
    exact Hsym. }
  split; [exact Hmax|]. split.
  - intros Hempty x y Hx Hy Hxy. apply Hmax; try assumption;
      rewrite Hempty; intros Hin; apply elem_of_nil in Hin; exact Hin.
  - intros Hnone.
    assert (Hsound : Forall (fun c => animal1 c ∈ animal_group /\
                                      animal2 c ∈ animal_group /\
                      collide_circle (w (animal1 c)) (w (animal2 c)) = true)
                       (find_collisions collide_circle w animal_group)).
    { unfold find_collisions.
      apply find_collisions_loop_sound; [tauto|apply Forall_nil; exact I]. }
    assert (Hnd : NoDup (collision_animals
                           (find_collisions collide_circle w animal_group))).
    { unfold find_collisions. apply find_collisions_loop_disjoint.
      - apply NoDup_nil. exact I.
      - intros x Hx. apply elem_of_nil in Hx. contradiction. }
    destruct (find_collisions collide_circle w animal_group) as [|c cs];
      [reflexivity|].
    exfalso. apply Forall_cons in Hsound as [(H1 & H2 & H3) _].
    cbn [collision_animals flat_map app] in Hnd.
    apply NoDup_cons in Hnd as [Hne _].
    rewrite (Hnone (animal1 c) (animal2 c) H1 H2) in H3; [discriminate|].
    intros E. apply Hne. rewrite E. left.
Qed.

(** ** engine.py: the update of the animals *)

Lemma update_subject_animal_relations (self : Ident) (group : Group) (w : World) :
  (forall s, set_order s ≡ₚ elements s) ->
  let pruned := eats (w self) ∩ list_to_set group in
  writes_cell self (update_subject_animal set_order self group) w
    (fun a' => animal_image a' = animal_image (w self) /\
               eats a' = pruned /\
               (forall f, _subject_animal a' = Some f ->
                  f ∈ pruned /\ is_dead (w self) = false) /\
               (_subject_animal a' = None ->
                  is_dead (w self) = true \/ pruned = ∅)).
Proof.
  intros Hord pruned. unfold writes_cell. rewrite update_subject_animal_run.
  fold pruned.
  destruct (is_dead (w self)) eqn:Edead.
  - eexists. split; [reflexivity|]. split; [reflexivity|]. split; [reflexivity|].
    split; [discriminate|]. intros _. left. reflexivity.
  - destruct (first_nearest _ (set_order pruned)) as [focus|] eqn:Efocus.
    + destruct (first_nearest_spec _ _ _ Efocus) as (before & after & Hsplit & _).
      assert (Hin : focus ∈ pruned).
      { rewrite <- elem_of_elements, <- (Hord pruned), Hsplit.
        apply elem_of_app. right. left. }
      set (w2 := <[self := _]> w).
      destruct (set_subject_animal_prey self focus w2) as [force Hrun].
      { subst w2. read_written. exact Hin. }
      rewrite Hrun. subst w2. read_written. rewrite fn_insert_insert.
      eexists. split; [reflexivity|]. split; [reflexivity|].
      split; [reflexivity|]. split.
      * intros f [= <-]. split; [exact Hin|reflexivity].
      * discriminate.
    + apply first_nearest_None in Efocus.
      eexists. split; [reflexivity|]. split; [reflexivity|].
      split; [reflexivity|]. split; [discriminate|].
      intros _. right. apply set_eq. intros x.
      rewrite <- elem_of_elements, <- (Hord pruned), Efocus. split; intros Hx.
      * apply elem_of_nil in Hx. contradiction.
      * apply not_elem_of_empty in Hx. contradiction.
Qed.

Lemma update_position_keeps (self : Ident) (dt : R) (w : World) :
  writes_cell self (update_position rect_coord self dt) w
    (fun a' => animal_image a' = animal_image (w self) /\
               _subject_animal a' = _subject_animal (w self) /\
               eats a' = eats (w self)).
Proof.
  unfold writes_cell, update_position, bind, get. cbn beta iota.
  rewrite set_velocity_run. cbn beta iota. rewrite set_position_run.
  read_written. rewrite fn_insert_insert.
  eexists. split; [reflexivity|]. repeat split.
Qed.

Lemma update_animal_relations (animal : Ident) (s : Sim) :
  (forall s, set_order s ≡ₚ elements s) ->
  let pruned := eats (heap s animal) ∩ list_to_set (live_animals (engine s)) in
  exists a',
    update_animal rect_coord set_order animal s
      = (mkSim (<[animal := a']> (heap s)) (engine s), Ok tt) /\
    health a' = health (heap s animal) /\
    eats a' = pruned /\
    (forall f, _subject_animal a' = Some f ->
       f ∈ pruned /\ is_dead (heap s animal) = false) /\
    (_subject_animal a' = None ->
       is_dead (heap s animal) = true \/ pruned = ∅).
Proof.
  intros Hord. cbv zeta. unfold update_animal, bind, get. cbn beta iota.
  pose proof (update_subject_animal_relations animal (live_animals (engine s))
                (heap s) Hord) as H1. cbv zeta in H1.
  destruct H1 as (a1 & Hrun1 & Himg1 & Heats1 & Hsome1 & Hnone1).
  rewrite (on_heap_run _ _ _ _ Hrun1). cbn beta iota.
  destruct (update_position_keeps animal time_step (<[animal := a1]> (heap s)))
    as (a2 & Hrun2 & Himg2 & Hsub2 & Heats2).
  rewrite (on_heap_run _ (mkSim _ _) _ _ Hrun2). cbn beta iota.
  rewrite (on_heap_run _ (mkSim _ _) _ _ (assign_run _ _ _)). cbn [heap engine].
  rewrite !fn_insert_insert. read_written.
  rewrite fn_lookup_insert in Himg2, Hsub2, Heats2.
  eexists. split; [reflexivity|]. split; [|split; [|split]].
  - unfold health. cbn [animal_image with_animal_image].
    rewrite AnimalImage_update_health_bar, Himg2, Himg1. reflexivity.
  - cbn. rewrite Heats2. exact Heats1.
  - intros f Hf. cbn in Hf. rewrite Hsub2 in Hf. apply Hsome1. exact Hf.
  - intros Hf. cbn in Hf. rewrite Hsub2 in Hf. apply Hnone1. exact Hf.
Qed.

Lemma update_loop_relations (l : Group) (s : Sim) :
  (forall s, set_order s ≡ₚ elements s) ->
  NoDup l ->
  exists w',
    for_each l (update_animal rect_coord set_order) s = (mkSim w' (engine s), Ok tt) /\
    (forall i, i ∉ l -> w' i = heap s i) /\
    (forall i, health (w' i) = health (heap s i)) /\
    (forall i, i ∈ l ->
       eats (w' i) = eats (heap s i) ∩ list_to_set (live_animals (engine s)) /\
       (forall f, _subject_animal (w' i) = Some f ->
          f ∈ eats (w' i) /\ is_dead (heap s i) = false) /\
       (_subject_animal (w' i) = None ->
          is_dead (heap s i) = true \/ eats (w' i) = ∅)).
Proof.
  intros Hord. revert s. induction l as [|x rest IH]; intros s Hnd.
  - exists (heap s). split; [destruct s; reflexivity|]. split; [reflexivity|].
    split; [reflexivity|]. intros i Hi. apply elem_of_nil in Hi. contradiction.
  - apply NoDup_cons in Hnd as [Hx Hnd].
    pose proof (update_animal_relations x s Hord) as Hcell. cbv zeta in Hcell.
    destruct Hcell as (a' & Hrun & Hhealth & Heats & Hsome & Hnone).
    destruct (IH (mkSim (<[x := a']> (heap s)) (engine s)) Hnd)
      as (w' & Hloop & Hout & Hh & Hin).
    exists w'. cbn [heap engine] in *.
    split; [simpl; unfold bind; rewrite Hrun; exact Hloop|].
    split; [|split].
    + intros i Hi. rewrite Hout.
      * apply fn_lookup_insert_ne. intros ->. apply Hi. left.
      * intros Hr. apply Hi. right. exact Hr.
    + intros i. rewrite Hh. destruct (decide (i = x)) as [->|Hne].
      * rewrite fn_lookup_insert. exact Hhealth.
      * rewrite fn_lookup_insert_ne by congruence. reflexivity.
    + intros i Hi. apply elem_of_cons in Hi as [->|Hi].
      * rewrite (Hout x Hx), fn_lookup_insert.
        split; [exact Heats|]. split.
        -- intros f Hf. rewrite Heats. apply Hsome. exact Hf.
        -- intros Hf. rewrite Heats. apply Hnone. exact Hf.
      * assert (Hne : i <> x) by (intros ->; contradiction).
        destruct (Hin i Hi) as (He & Hs & Hn).
        rewrite fn_lookup_insert_ne in He, Hs, Hn by congruence.
        split; [exact He|]. split; assumption.
Qed.

(** X17. What the update loop leaves behind.  The loop over [all_animals]
    never raises and keeps the engine and every health.  Afterwards the prey
    set of every animal of the game is its old prey set cut down to the live
    animals; only an animal that is not dead has a focus, and its focus is a
    live animal of its prey set; and an animal is without focus exactly when
    it is dead or has no live prey left.  Animals outside the game are not
    written. *)
Theorem update_phase_relations (s : Sim) :
  (forall x, set_order x ≡ₚ elements x) ->
  exists w',
    update_phase rect_coord set_order s = (mkSim w' (engine s), Ok tt) /\
    (forall a, a ∉ all_animals (engine s) -> w' a = heap s a) /\
    (forall a, health (w' a) = health (heap s a)) /\
    (forall a, a ∈ all_animals (engine s) ->
       eats (w' a) = eats (heap s a) ∩ list_to_set (live_animals (engine s)) /\
       (forall f, _subject_animal (w' a) = Some f ->
          f ∈ eats (w' a) /\ f ∈ live_animals (engine s) /\
          is_dead (w' a) = false) /\
       (_subject_animal (w' a) = None <->
        is_dead (w' a) = true \/ eats (w' a) = ∅)).
Proof.
  intros Hord.
  assert (Hnd : NoDup (all_animals (engine s))).
  { unfold all_animals. apply NoDup_fold_group_add, NoDup_fold_group_add, NoDup_nil_2. }
  destruct (update_loop_relations (all_animals (engine s)) s Hord Hnd)
    as (w' & Hloop & Hout & Hh & Hin).
  exists w'. split; [exact Hloop|]. split; [exact Hout|]. split; [exact Hh|].
  assert (Hdead : forall a, is_dead (w' a) = is_dead (heap s a)).
  { intros a. unfold is_dead, HealthBar.is_dead.
    change (HealthBar.current_health (AnimalImage.health_bar (animal_image ?x)))
      with (health x). rewrite Hh. reflexivity. }
  intros a Ha. destruct (Hin a Ha) as (He & Hs & Hn).
  split; [exact He|]. split.
  - intros f Hf. destruct (Hs f Hf) as [Hfe Hfd]. split; [exact Hfe|].
    split; [|rewrite Hdead; exact Hfd].
    rewrite He in Hfe. apply elem_of_intersection in Hfe as [_ Hfl].
    apply elem_of_list_to_set in Hfl. exact Hfl.
  - split.
    + intros Hf. rewrite Hdead. apply Hn. exact Hf.
    + intros Hor. destruct (_subject_animal (w' a)) as [f|] eqn:Ef; [|reflexivity].
      exfalso. destruct (Hs f eq_refl) as [Hfe Hfd].
      destruct Hor as [Hd|Hempty].
      * rewrite Hdead in Hd. congruence.
      * rewrite Hempty in Hfe. apply not_elem_of_empty in Hfe. exact Hfe.
Qed.

(** ** engine.py: the removal of the animals whose death is over *)

Lemma group_remove_absent (g : Group) (x : Ident) :
  x ∉ g -> group_remove g x = g.
Proof.
  intros Hx. unfold group_remove. induction g as [|y g IH]; [reflexivity|].
  apply not_elem_of_cons in Hx as [Hne Hx].
  rewrite filter_cons_True by congruence. rewrite IH by exact Hx. reflexivity.
Qed.

Lemma removal_loop_exact (l : Group) (s : Sim) :
  let gone := fun i => death_animation_finished (heap s i)
                       || off_screen (heap s i) (screen (engine s)) in
  exists s',
    for_each l
      (fun animal =>
         s <- get ;;
         if death_animation_finished (heap s animal)
            || off_screen (heap s animal) (screen (engine s))
         then remove_animal animal else ret tt) s = (s', Ok tt) /\
    heap s' = heap s /\
    screen (engine s') = screen (engine s) /\
    _play_death_sound (engine s') = _play_death_sound (engine s) /\
    _play_collision_sound (engine s') = _play_collision_sound (engine s) /\
    ((forall x, x ∈ l -> x ∉ live_animals (engine s)) ->
     live_animals (engine s') = live_animals (engine s)) /\
    (forall i, i ∈ dying_animals (engine s') <->
       i ∈ dying_animals (engine s) /\ ~ (i ∈ l /\ gone i = true)).
Proof.
  cbv zeta. revert s. induction l as [|x l IH]; intros s.
  - exists s. simpl. unfold ret. split; [reflexivity|]. split; [reflexivity|].
    split; [reflexivity|]. split; [reflexivity|]. split; [reflexivity|].
    split; [reflexivity|]. intros i. split.
    + intros Hi. split; [exact Hi|]. intros [Hin _]. apply elem_of_nil in Hin.
      exact Hin.
    + intros [Hi _]. exact Hi.
  - simpl. unfold bind at 1. unfold bind at 1. unfold get. cbn beta iota.
    destruct (death_animation_finished (heap s x)
              || off_screen (heap s x) (screen (engine s))) eqn:Egone.
    + unfold remove_animal, on_engine, modify. cbn beta iota.
      set (s1 := mkSim _ _).
      destruct (IH s1) as (s' & Hrun & Hh & Hsc & Hf1 & Hf2 & Hlive & Hdying).
      exists s'. split; [exact Hrun|]. subst s1.
      cbn [heap engine live_animals dying_animals screen _play_death_sound
           _play_collision_sound] in *.
      split; [exact Hh|]. split; [exact Hsc|]. split; [exact Hf1|].
      split; [exact Hf2|]. split.
      * intros Hdis. rewrite Hlive.
        -- apply group_remove_absent. apply Hdis. left.
        -- intros y Hy Hin. apply elem_of_group_remove in Hin as [Hin _].
           apply (Hdis y); [right; exact Hy|exact Hin].
      * intros i. rewrite Hdying, elem_of_group_remove. split.
        -- intros [[Hi Hne] Hn]. split; [exact Hi|]. intros [Hin Hg].
           apply elem_of_cons in Hin as [->|Hin]; [congruence|].
           apply Hn. split; assumption.
        -- intros [Hi Hn]. split; [split; [exact Hi|]|].
           ++ intros ->. apply Hn. split; [left|exact Egone].
           ++ intros [Hin Hg]. apply Hn. split; [right; exact Hin|exact Hg].
    + unfold ret at 1. cbn beta iota.
      destruct (IH s) as (s' & Hrun & Hh & Hsc & Hf1 & Hf2 & Hlive & Hdying).
      exists s'. split; [exact Hrun|]. split; [exact Hh|]. split; [exact Hsc|].
      split; [exact Hf1|]. split; [exact Hf2|]. split.
      * intros Hdis. apply Hlive. intros y Hy. apply Hdis. right. exact Hy.
      * intros i. rewrite Hdying. split.
        -- intros [Hi Hn]. split; [exact Hi|]. intros [Hin Hg].
           apply elem_of_cons in Hin as [->|Hin]; [congruence|].
           apply Hn. split; assumption.
        -- intros [Hi Hn]. split; [exact Hi|]. intros [Hin Hg].
           apply Hn. split; [right; exact Hin|exact Hg].
Qed.

(** X18. The removal phase removes exactly the dying animals whose death
    animation is finished or that are off the screen.  It does not raise
    and writes no animal; when no live animal is among the dying ones, the
    group of the live animals is unchanged; the screen and the two sound
    flags are unchanged. *)
Theorem removal_phase_removes_exactly (s : Sim) :
  (forall a, a ∈ live_animals (engine s) -> a ∉ dying_animals (engine s)) ->
  let gone := fun i => death_animation_finished (heap s i)
                       || off_screen (heap s i) (screen (engine s)) in
  exists s',
    removal_phase s = (s', Ok tt) /\
    heap s' = heap s /\
    live_animals (engine s') = live_animals (engine s) /\
    (forall i, i ∈ dying_animals (engine s') <->
       i ∈ dying_animals (engine s) /\ gone i = false) /\
    screen (engine s') = screen (engine s) /\
    _play_death_sound (engine s') = _play_death_sound (engine s) /\
    _play_collision_sound (engine s') = _play_collision_sound (engine s).
Proof.
  intros Hdis. cbv zeta.
  pose proof (removal_loop_exact (dying_animals (engine s)) s) as Hloop.
  cbv zeta in Hloop.
  destruct Hloop as (s' & Hrun & Hh & Hsc & Hf1 & Hf2 & Hlive & Hdying).
  exists s'. split; [exact Hrun|]. split; [exact Hh|]. split.
  { apply Hlive. intros x Hx Hin. exact (Hdis x Hin Hx). }
  split; [|split; [exact Hsc|split; [exact Hf1|exact Hf2]]].
  intros i. rewrite Hdying. split.
  - intros [Hi Hn]. split; [exact Hi|].
    destruct (death_animation_finished (heap s i)
              || off_screen (heap s i) (screen (engine s))); [|reflexivity].
    exfalso. apply Hn. split; [exact Hi|reflexivity].
  - intros [Hi Hg]. split; [exact Hi|]. intros [_ Hg']. congruence.
Qed.

(** ** engine.py: one tick, phase by phase *)

Lemma death_phase_run (s : Sim) :
  death_phase s = for_each (live_animals (engine s)) kill_if_dead s.
Proof. reflexivity. Qed.

Lemma update_phase_run (s : Sim) :
  update_phase rect_coord set_order s
    = for_each (all_animals (engine s)) (update_animal rect_coord set_order) s.
Proof. reflexivity. Qed.

Lemma NoDup_all_animals (e : Engine) : NoDup (all_animals e).
Proof.
  unfold all_animals. apply NoDup_fold_group_add, NoDup_fold_group_add, NoDup_nil_2.
Qed.

Lemma is_dead_health (a b : Animal) : health a = health b -> is_dead a = is_dead b.
Proof.
  intros H. unfold is_dead, HealthBar.is_dead.
  change (HealthBar.current_health (AnimalImage.health_bar (animal_image ?x)))
    with (health x). rewrite H. reflexivity.
Qed.

Lemma tick_phases (s : Sim) :
  (forall x, set_order x ≡ₚ elements x) ->
  engine_invariant s ->
  exists s1 s2 s3 s4 w5,
    tick collide_circle rect_coord set_order s
      = (mkSim w5 (mkEngine (screen (engine s4)) (live_animals (engine s4))
                     (dying_animals (engine s4)) false false),
         Ok (simulation_completed w5 (all_animals (engine s4)),
             (_play_death_sound (engine s4), _play_collision_sound (engine s4)))) /\
    (collisions_phase collide_circle rect_coord s = (s1, Ok tt) /\
     wall_collisions_phase rect_coord (GameBoard.init (screen (engine s))) s1
       = (s2, Ok tt) /\
     death_phase s2 = (s3, Ok tt) /\
     removal_phase s3 = (s4, Ok tt)) /\
    (live_animals (engine s2) = live_animals (engine s) /\
     dying_animals (engine s2) = dying_animals (engine s) /\
     (forall i, i ∉ live_animals (engine s) -> heap s2 i = heap s i) /\
     engine_invariant s2) /\
    ((forall i, heap s3 i =
        if decide (i ∈ live_animals (engine s2) /\ is_dead (heap s2 i) = true)
        then dying_cell (heap s2 i) else heap s2 i) /\
     (forall i, i ∈ live_animals (engine s3) <->
        i ∈ live_animals (engine s2) /\ is_dead (heap s2 i) = false) /\
     (forall i, i ∈ dying_animals (engine s3) <->
        i ∈ dying_animals (engine s2) \/
        (i ∈ live_animals (engine s2) /\ is_dead (heap s2 i) = true)) /\
     engine_invariant s3) /\
    (heap s4 = heap s3 /\
     live_animals (engine s4) = live_animals (engine s3) /\
     (forall i, i ∈ dying_animals (engine s4) -> i ∈ dying_animals (engine s3)) /\
     engine_invariant s4) /\
    ((forall i, i ∉ all_animals (engine s4) -> w5 i = heap s4 i) /\
     (forall i, health (w5 i) = health (heap s4 i)) /\
     (forall i, i ∈ all_animals (engine s4) ->
        eats (w5 i) = eats (heap s4 i) ∩ list_to_set (live_animals (engine s4)) /\
        (forall f, _subject_animal (w5 i) = Some f ->
           f ∈ eats (w5 i) /\ is_dead (heap s4 i) = false) /\
        (_subject_animal (w5 i) = None ->
           is_dead (heap s4 i) = true \/ eats (w5 i) = ∅))).
Proof.
  intros Hord Hinv. unfold tick, bind at 1, get. cbn beta iota zeta.
  destruct (collisions_phase_total s) as [s1 H1].
  pose proof (writes_within_collisions_phase (live_animals (engine s)) s eq_refl)
    as Hw1. rewrite H1 in Hw1. cbn [fst] in Hw1. destruct Hw1 as (Hl1 & Hd1 & Hh1).
  assert (Hinv1 : engine_invariant s1).
  { pose proof (writes_within_invariant _ s
      (writes_within_collisions_phase (live_animals (engine s))) Hinv) as H.
    rewrite H1 in H. exact H. }
  unfold bind at 1. rewrite H1.
  destruct (wall_collisions_phase_total (screen (engine s)) s1) as [s2 H2].
  pose proof (writes_within_wall_collisions_phase (live_animals (engine s1))
                (GameBoard.init (screen (engine s))) s1 eq_refl) as Hw2.
  rewrite H2 in Hw2. cbn [fst] in Hw2. destruct Hw2 as (Hl2 & Hd2 & Hh2).
  assert (Hinv2 : engine_invariant s2).
  { pose proof (writes_within_invariant _ s1
      (writes_within_wall_collisions_phase (live_animals (engine s1))
         (GameBoard.init (screen (engine s)))) Hinv1) as H.
    rewrite H2 in H. exact H. }
  unfold bind at 1. rewrite H2.
  destruct (death_phase_invariant s2 Hinv2) as (s3 & H3 & Hinv3).
  destruct (death_loop (live_animals (engine s2)) s2 (proj1 Hinv2))
    as (s3' & H3' & Hheap3 & Hlive3 & Hdying3).
  rewrite death_phase_run in H3. rewrite H3 in H3'. injection H3' as <-.
  unfold bind at 1. rewrite death_phase_run, H3.
  destruct (removal_phase_invariant s3 Hinv3) as (s4 & H4 & Hinv4).
  pose proof (removal_loop_exact (dying_animals (engine s3)) s3) as Hrem.
  cbv zeta in Hrem. destruct Hrem as (s4' & H4' & Hh4 & _ & _ & _ & Hlive4 & Hdying4).
  change (removal_phase s3 = (s4', Ok tt)) in H4'.
  rewrite H4 in H4'. injection H4' as <-.
  unfold bind at 1. rewrite H4.
  destruct (update_loop_relations (all_animals (engine s4)) s4 Hord
              (NoDup_all_animals (engine s4)))
    as (w5 & H5 & Hout5 & Hhealth5 & Hin5).
  unfold bind at 1. rewrite update_phase_run, H5.
  unfold bind, get, play_delayed_sounds, on_engine, modify, ret. cbn beta iota.
  cbn [heap engine].
  exists s1, s2, s3, s4, w5. split; [reflexivity|].
  split; [repeat split; first [reflexivity|assumption]|].
  split; [|split; [|split]].
  - split; [congruence|]. split; [congruence|]. split; [|exact Hinv2].
    intros i Hi. rewrite Hh2, Hh1; [reflexivity|exact Hi|congruence].
  - split; [exact Hheap3|]. split; [|split; [exact Hdying3|exact Hinv3]].
    intros i. rewrite Hlive3. split.
    + intros [Hi Hn]. split; [exact Hi|].
      destruct (is_dead (heap s2 i)); [|reflexivity]. exfalso. apply Hn. tauto.
    + intros [Hi Hn]. split; [exact Hi|]. intros [_ Hd]. congruence.
  - split; [exact Hh4|]. split; [|split; [|exact Hinv4]].
    + apply Hlive4. intros x Hx Hin.
      destruct Hinv3 as (_ & _ & Hdis & _). exact (Hdis x Hin Hx).
    + intros i Hi. apply Hdying4 in Hi. tauto.
  - split; [exact Hout5|]. split; [exact Hhealth5|exact Hin5].
Qed.

(** X19. What the termination test of a tick means.  After a tick that
    starts from a state of the engine, no live animal is dead, every prey
    set of an animal of the game holds live animals only, and the tick
    reports the simulation as completed exactly when no live animal has any
    prey left: the simulation ends when the last pair of a live hunter and
    its live prey is gone. *)
Theorem tick_completed_iff_no_prey_left (s : Sim) :
  (forall x, set_order x ≡ₚ elements x) ->
  engine_invariant s ->
  exists s' completed sounds,
    tick collide_circle rect_coord set_order s = (s', Ok (completed, sounds)) /\
    (forall a, a ∈ live_animals (engine s') -> is_dead (heap s' a) = false) /\
    (forall a x, a ∈ all_animals (engine s') -> x ∈ eats (heap s' a) ->
       x ∈ live_animals (engine s')) /\
    (completed = true <->
     forall a, a ∈ live_animals (engine s') -> eats (heap s' a) = ∅).
Proof.
  intros Hord Hinv.
  destruct (tick_phases s Hord Hinv)
    as (s1 & s2 & s3 & s4 & w5 & Hrun & _ & _ & (Hheap3 & Hlive3 & _ & _)
        & (Hh4 & Hl4 & _ & Hinv4) & (_ & Hhealth5 & Hin5)).
  eexists _, _, _. split; [exact Hrun|]. cbn [heap engine live_animals].
  assert (Hall : forall a, a ∈ all_animals
            (mkEngine (screen (engine s4)) (live_animals (engine s4))
               (dying_animals (engine s4)) false false) <->
            a ∈ all_animals (engine s4)).
  { intros a. rewrite !elem_of_all_animals. reflexivity. }
  assert (Halive : forall a, a ∈ live_animals (engine s4) -> is_dead (w5 a) = false).
  { intros a Ha. rewrite (is_dead_health _ _ (Hhealth5 a)), Hh4.
    rewrite Hl4 in Ha. apply Hlive3 in Ha as [Ha Hd].
    rewrite Hheap3. destruct (decide _) as [[_ Hd']|_]; [congruence|exact Hd]. }
  split; [exact Halive|]. split.
  - intros a x Ha Hx. apply Hall in Ha. destruct (Hin5 a Ha) as (He & _ & _).
    rewrite He in Hx. apply elem_of_intersection in Hx as [_ Hx].
    apply elem_of_list_to_set in Hx. exact Hx.
  - rewrite simulation_completed_iff. split.
    + intros Hnone a Ha.
      assert (Hin : a ∈ all_animals (engine s4))
        by (apply elem_of_all_animals; left; exact Ha).
      destruct (Hin5 a Hin) as (_ & _ & Hn).
      destruct (Hn (Hnone a Hin)) as [Hd|He]; [|exact He].
      pose proof (Halive a Ha) as Hal.
      rewrite (is_dead_health _ _ (Hhealth5 a)) in Hal. congruence.
    + intros Hempty a Ha.
      destruct (_subject_animal (w5 a)) as [f|] eqn:Ef; [|reflexivity].
      exfalso. destruct (Hin5 a Ha) as (_ & Hs & _).
      destruct (Hs f Ef) as [Hfe Hfd].
      apply elem_of_all_animals in Ha as [Ha|Ha].
      * rewrite (Hempty a Ha) in Hfe. apply not_elem_of_empty in Hfe. exact Hfe.
      * destruct Hinv4 as (_ & _ & _ & Hdead). rewrite (Hdead a Ha) in Hfd.
        discriminate.
Qed.

(** X20. The life cycle of the animals over a tick.  A tick adds no animal
    to the game: the live animals after it were live before it, and the
    dying ones were dying or live before it; since a removed animal is in
    neither group, it never comes back.  After the tick the live animals are
    not dead and the dying ones are; both sound flags are reset; and no
    animal outside the game has been written. *)
Theorem tick_life_cycle (s : Sim) :
  (forall x, set_order x ≡ₚ elements x) ->
  engine_invariant s ->
  exists s' outcome,
    tick collide_circle rect_coord set_order s = (s', Ok outcome) /\
    (forall a, a ∈ live_animals (engine s') ->
       a ∈ live_animals (engine s) /\ is_dead (heap s' a) = false) /\
    (forall a, a ∈ dying_animals (engine s') ->
       (a ∈ dying_animals (engine s) \/ a ∈ live_animals (engine s)) /\
       is_dead (heap s' a) = true) /\
    _play_death_sound (engine s') = false /\
    _play_collision_sound (engine s') = false /\
    (forall a, a ∉ all_animals (engine s) -> heap s' a = heap s a).
Proof.
  intros Hord Hinv.
  destruct (tick_phases s Hord Hinv)
    as (s1 & s2 & s3 & s4 & w5 & Hrun & _ & (Hl2 & Hd2 & Hh2 & _)
        & (Hheap3 & Hlive3 & Hdying3 & _)
        & (Hh4 & Hl4 & Hd4 & Hinv4) & (Hout5 & Hhealth5 & _)).
  eexists _, _. split; [exact Hrun|].
  cbn [heap engine live_animals dying_animals _play_death_sound
       _play_collision_sound].
  split; [|split; [|split; [reflexivity|split; [reflexivity|]]]].
  - intros a Ha. rewrite Hl4 in Ha. apply Hlive3 in Ha as [Ha Hd].
    split; [rewrite <- Hl2; exact Ha|].
    rewrite (is_dead_health _ _ (Hhealth5 a)), Hh4, Hheap3.
    destruct (decide _) as [[_ Hd']|_]; [congruence|exact Hd].
  - intros a Ha. split.
    + apply Hd4, Hdying3 in Ha. rewrite Hl2, Hd2 in Ha. tauto.
    + rewrite (is_dead_health _ _ (Hhealth5 a)).
      destruct Hinv4 as (_ & _ & _ & Hdead). apply Hdead. exact Ha.
  - intros a Ha.
    assert (Hlive : a ∉ live_animals (engine s))
      by (intros Hin; apply Ha, elem_of_all_animals; left; exact Hin).
    assert (Hdying : a ∉ dying_animals (engine s))
      by (intros Hin; apply Ha, elem_of_all_animals; right; exact Hin).
    rewrite Hout5.
    + rewrite Hh4, Hheap3.
      destruct (decide _) as [[Hin _]|_]; [rewrite Hl2 in Hin; contradiction|].
      apply Hh2. exact Hlive.
    + intros Hin. apply elem_of_all_animals in Hin as [Hin|Hin].
      * rewrite Hl4 in Hin. apply Hlive3 in Hin as [Hin _].
        rewrite Hl2 in Hin. contradiction.
      * apply Hd4, Hdying3 in Hin. rewrite Hl2, Hd2 in Hin. tauto.
Qed.

(** ** engine.py: [add_animals] *)

Lemma add_animals_groups (animals : list Ident) (s : Sim) :
  exists s',
    add_animals animals s = (s', Ok tt) /\ heap s' = heap s /\
    (forall a, a ∈ live_animals (engine s') <->
       a ∈ live_animals (engine s) \/ (a ∈ animals /\ is_dead (heap s a) = false)) /\
    (forall a, a ∈ dying_animals (engine s') <->
       a ∈ dying_animals (engine s) \/ (a ∈ animals /\ is_dead (heap s a) = true)).
Proof.
  revert s. induction animals as [|x rest IH]; intros s.
  - exists s. split; [reflexivity|]. split; [reflexivity|].
    split; intros a; rewrite elem_of_nil; tauto.
  - unfold add_animals. simpl. unfold bind at 1. unfold bind at 1, get.
    cbn beta iota. fold (add_animals rest).
    destruct (is_dead (heap s x)) eqn:Ex;
      unfold on_engine, modify; cbn beta iota; set (s1 := mkSim _ _);
      destruct (IH s1) as (s' & Hrun & Hh & Hlive & Hdying);
      exists s'; (split; [exact Hrun|]); subst s1;
      cbn [heap engine live_animals dying_animals] in *;
      (split; [exact Hh|]); split; intros a.
    + rewrite Hlive, elem_of_cons. split; [|intros [H|[[->|H] Hd]]; try tauto; congruence].
      tauto.
    + rewrite Hdying, elem_of_group_add, elem_of_cons. split.
      * intros [[H| ->]|[H Hd]]; tauto.
      * intros [H|[[->|H] Hd]]; tauto.
    + rewrite Hlive, elem_of_group_add, elem_of_cons. split.
      * intros [[H| ->]|[H Hd]]; tauto.
      * intros [H|[[->|H] Hd]]; tauto.
    + rewrite Hdying, elem_of_cons. split; [|intros [H|[[->|H] Hd]]; try tauto; congruence].
      tauto.
Qed.

(** X21. [add_animals] sorts the new animals into the two groups by their
    health: the dead ones join the dying animals and the others the live
    ones, an animal already in its group is not added again, and no animal
    is written.  From a state of the engine in which no live animal is dead
    (in particular from an engine without animals) it leads to such a state
    again. *)
Theorem add_animals_sorts_by_health (animals : list Ident) (s : Sim) :
  exists s',
    add_animals animals s = (s', Ok tt) /\ heap s' = heap s /\
    (forall a, a ∈ live_animals (engine s') <->
       a ∈ live_animals (engine s) \/ (a ∈ animals /\ is_dead (heap s a) = false)) /\
    (forall a, a ∈ dying_animals (engine s') <->
       a ∈ dying_animals (engine s) \/ (a ∈ animals /\ is_dead (heap s a) = true)) /\
    (engine_invariant s ->
     (forall a, a ∈ live_animals (engine s) -> is_dead (heap s a) = false) ->
     engine_invariant s' /\
     (forall a, a ∈ live_animals (engine s') -> is_dead (heap s' a) = false)).
Proof.
  destruct (add_animals_groups animals s) as (s' & Hrun & Hh & Hlive & Hdying).
  exists s'. split; [exact Hrun|]. split; [exact Hh|]. split; [exact Hlive|].
  split; [exact Hdying|]. intros Hinv Halive.
  destruct (add_animals_invariant animals s Hinv Halive)
    as (s'' & Hrun' & _ & Hinv' & Halive').
  rewrite Hrun in Hrun'. injection Hrun' as <-. split; assumption.
Qed.

(** ** animal.py: [update_position] *)

(** X22. [update_position] is a step of the semi-implicit Euler method.
    The velocity changes by the force (propulsion plus brake, as they stand
    before the call) times the time step over the mass, which is Newton's
    second law; the new position is the old one moved by the *new* velocity
    times the time step, converted to pixel coordinates; the brake for the
    next step is set by the velocity setter from the speed before the call.
    No other animal is written, and an animal at rest on which no force
    acts stays where it is. *)
Theorem update_position_euler_step (self : Ident) (dt : R) (w : World) :
  mass (w self) <> 0 ->
  let a := w self in
  let w' := fst (update_position rect_coord self dt w) in
  let v' := _velocity (w' self) in
  snd (update_position rect_coord self dt w) = Ok tt /\
  scale (sub v' (_velocity a)) (mass a)
    = scale (add (propulsion_force a) (slow_down_force a)) dt /\
  position (w' self)
    = (rect_coord (IZR (fst (position a)) + fst v' * dt),
       rect_coord (IZR (snd (position a)) + snd v' * dt)) /\
  (speed a <= max_speed a -> slow_down_force (w' self) = (0, 0)) /\
  propulsion_force (w' self) = propulsion_force a /\
  (forall i, i <> self -> w' i = w i) /\
  ((forall z, rect_coord (IZR z) = z) ->
   _velocity a = (0, 0) -> propulsion_force a = (0, 0) ->
   slow_down_force a = (0, 0) ->
   position (w' self) = position a /\ v' = (0, 0)).
Proof.
  intros Hm. cbv zeta.
  assert (Hrun : exists brake,
    update_position rect_coord self dt w =
      (<[self := with_rect_center
           (rect_coord (IZR (fst (position (w self)))
              + fst (add (_velocity (w self))
                       (scale (div (add (propulsion_force (w self))
                                      (slow_down_force (w self))) (mass (w self))) dt))
                * dt),
            rect_coord (IZR (snd (position (w self)))
              + snd (add (_velocity (w self))
                       (scale (div (add (propulsion_force (w self))
                                      (slow_down_force (w self))) (mass (w self))) dt))
                * dt))
           (with_velocity
              (add (_velocity (w self))
                 (scale (div (add (propulsion_force (w self))
                                (slow_down_force (w self))) (mass (w self))) dt))
              (with_slow_down_force brake (w self)))]> w, Ok tt) /\
    (speed (w self) <= max_speed (w self) -> brake = (0, 0))).
  { unfold update_position, bind, get. cbn beta iota.
    rewrite set_velocity_run. cbn beta iota. rewrite set_position_run.
    read_written. rewrite fn_insert_insert.
    eexists. split; [reflexivity|].
    intros Hslow. destruct (Rlt_dec (max_speed (w self)) (speed (w self))); [lra|].
    reflexivity. }
  destruct Hrun as (brake & Hrun & Hbrake). rewrite Hrun. cbn [fst snd].
  rewrite fn_lookup_insert.
  unfold with_rect_center, with_velocity, with_slow_down_force.
  cbn [_velocity position rect center slow_down_force propulsion_force].
  split; [reflexivity|]. split.
  { unfold scale, sub, add, div. cbn [fst snd]. f_equal; field; exact Hm. }
  split; [reflexivity|]. split; [exact Hbrake|]. split; [reflexivity|].
  split.
  { intros i Hi. apply fn_lookup_insert_ne. congruence. }
  intros Hrc Hv Hp Hs. rewrite Hv, Hp, Hs.
  unfold scale, add, div. cbn [fst snd].
  assert (Hz : 0 + (0 + 0) / mass (w self) * dt = 0) by (field; exact Hm).
  rewrite Hz, Rmult_0_l, !Rplus_0_r, !Hrc.
  split; [|reflexivity]. unfold position. destruct (center (rect (w self))).
  reflexivity.
Qed.

(** ** engine.py: the sounds of a tick *)

Lemma collide_animals_keeps_eats (a b : Ident) (w : World) (i : Ident) :
  eats (fst (collide_animals rect_coord a b w) i) = eats (w i).
Proof.
  destruct (Req_dec_T (distance_to (w a) (w b)) 0) as [Hzero|Hd].
  - assert (Hrun : collide_animals rect_coord a b w = (w, Ok tt)).
    { unfold collide_animals, bind, get. cbn beta iota zeta.
      destruct (Req_dec_T (distance_to (w a) (w b)) 0); [reflexivity|contradiction]. }
    rewrite Hrun. reflexivity.
  - destruct (collide_animals_run a b w Hd)
      as (w1 & u1 & u2 & _ & Hrun & Hcells & _).
    assert (Hab : a <> b).
    { intros ->. apply Hd. apply distance_to_same. reflexivity. }
    destruct (set_velocity_twice_cells a b u1 u2 w1 Hab) as ([fa Ha] & [fb Hb] & Hrest).
    rewrite Hrun. cbn [fst]. destruct (Hcells i) as [q Hq].
    destruct (decide (i = a)) as [->|Hia]; [rewrite Ha, Hq; reflexivity|].
    destruct (decide (i = b)) as [->|Hib]; [rewrite Hb, Hq; reflexivity|].
    rewrite Hrest, Hq by assumption. reflexivity.
Qed.

Lemma insert_with_health_eats (w : World) (x : Ident) (h : R) (i : Ident) :
  eats ((<[x := with_health h (w x)]> w) i) = eats (w i).
Proof.
  destruct (decide (i = x)) as [->|Hne].
  - rewrite fn_lookup_insert. reflexivity.
  - rewrite fn_lookup_insert_ne by congruence. reflexivity.
Qed.

Lemma injure_keeps_eats (c : Collision) (w : World) (i : Ident) :
  eats (fst (injure_animals_if_prey c w) i) = eats (w i).
Proof.
  rewrite injure_animals_if_prey_run. cbv zeta. cbn [fst].
  destruct (wants_to_eat (w (animal1 c)) (animal2 c)).
  - rewrite inflict_damage_run. cbn [fst].
    match goal with |- context [wants_to_eat ?x ?y] =>
      destruct (wants_to_eat x y) end.
    + rewrite inflict_damage_run. cbn [fst].
      rewrite insert_with_health_eats. apply insert_with_health_eats.
    + apply insert_with_health_eats.
  - destruct (wants_to_eat (w (animal2 c)) (animal1 c)).
    + rewrite inflict_damage_run. cbn [fst]. apply insert_with_health_eats.
    + reflexivity.
Qed.

Lemma animals_were_injured_eats (c : Collision) (w1 w2 : World) :
  (forall i, eats (w1 i) = eats (w2 i)) ->
  animals_were_injured c w1 = animals_were_injured c w2.
Proof.
  intros H. unfold animals_were_injured, wants_to_eat. rewrite !H. reflexivity.
Qed.

Lemma collisions_loop_flags (l : list Collision) (s : Sim) :
  exists s1,
    for_each l
      (fun collision =>
         on_heap (collide_animals rect_coord (animal1 collision) (animal2 collision)) ;;
         on_heap (injure_animals_if_prey collision) ;;
         s <- get ;;
         if animals_were_injured collision (heap s)
         then delayed_collision_sound else ret tt) s = (s1, Ok tt) /\
    (forall i, eats (heap s1 i) = eats (heap s i)) /\
    _play_death_sound (engine s1) = _play_death_sound (engine s) /\
    _play_collision_sound (engine s1)
      = _play_collision_sound (engine s)
        || existsb (fun c => animals_were_injured c (heap s)) l.
Proof.
  revert s. induction l as [|c l IH]; intros s.
  - exists s. split; [reflexivity|]. split; [reflexivity|]. split; [reflexivity|].
    cbn [existsb]. rewrite orb_false_r. reflexivity.
  - cbn [for_each]. unfold bind at 1. unfold bind at 1.
    destruct (collide_animals_total (animal1 c) (animal2 c) (heap s)) as [w1 Hc].
    pose proof (collide_animals_keeps_eats (animal1 c) (animal2 c) (heap s)) as Hce.
    rewrite Hc in Hce. cbn [fst] in Hce.
    rewrite (on_heap_run _ _ _ _ Hc). cbn beta iota. unfold bind at 1.
    destruct (injure_animals_if_prey_total c w1) as [w2 Hi].
    pose proof (injure_keeps_eats c w1) as Hie. rewrite Hi in Hie. cbn [fst] in Hie.
    rewrite (on_heap_run _ (mkSim _ _) _ _ Hi). cbn beta iota.
    unfold bind at 1, get. cbn beta iota. cbn [heap engine].
    assert (Heats : forall i, eats (w2 i) = eats (heap s i))
      by (intros i; rewrite Hie; apply Hce).
    rewrite (animals_were_injured_eats c w2 (heap s) Heats).
    destruct (animals_were_injured c (heap s)) eqn:Einj.
    + unfold delayed_collision_sound, on_engine, modify. cbn beta iota.
      set (s2 := mkSim _ _).
      destruct (IH s2) as (s3 & Hrun & He & Hd & Hcs).
      exists s3. split; [exact Hrun|]. subst s2.
      cbn [heap engine _play_death_sound _play_collision_sound] in *.
      split; [intros i; rewrite He; apply Heats|]. split; [exact Hd|].
      rewrite Hcs. cbn [existsb]. rewrite Einj, orb_true_r. reflexivity.
    + unfold ret at 1. cbn beta iota. set (s2 := mkSim _ _).
      destruct (IH s2) as (s3 & Hrun & He & Hd & Hcs).
      exists s3. split; [exact Hrun|]. subst s2.
      cbn [heap engine _play_death_sound _play_collision_sound] in *.
      split; [intros i; rewrite He; apply Heats|]. split; [exact Hd|].
      rewrite Hcs. cbn [existsb]. rewrite Einj. cbn [orb].
      f_equal. clear -Heats. induction l as [|c' l IH']; [reflexivity|].
      cbn [existsb]. rewrite IH'.
      rewrite (animals_were_injured_eats c' w2 (heap s) Heats). reflexivity.
Qed.

Lemma wall_loop_keeps_engine (l : Group) (gameboard : GameBoard.t) (s : Sim) :
  engine (fst (for_each l
    (fun animal =>
       s <- get ;;
       match GameBoard.collided_with_wall gameboard (heap s animal) with
       | Some wall => on_heap (collide_animal_into_wall rect_coord animal wall)
       | None => ret tt
       end) s)) = engine s.
Proof.
  revert s. induction l as [|x l IH]; intros s; [reflexivity|].
  cbn [for_each]. unfold bind at 1. unfold bind at 1, get. cbn beta iota.
  destruct (GameBoard.collided_with_wall gameboard (heap s x)) as [wall|].
  - unfold on_heap at 1.
    destruct (collide_animal_into_wall rect_coord x wall (heap s)) as [w1 [[]|e]].
    + rewrite IH. reflexivity.
    + reflexivity.
  - unfold ret at 1. cbn beta iota. apply IH.
Qed.

Lemma death_loop_flags (l : Group) (s : Sim) :
  let s' := fst (for_each l kill_if_dead s) in
  _play_collision_sound (engine s') = _play_collision_sound (engine s) /\
  _play_death_sound (engine s')
    = _play_death_sound (engine s) || existsb (fun i => is_dead (heap s i)) l.
Proof.
  cbv zeta. revert s. induction l as [|x l IH]; intros s.
  - cbn [for_each existsb fst ret]. rewrite orb_false_r. split; reflexivity.
  - cbn [for_each existsb]. unfold bind. rewrite kill_if_dead_run.
    destruct (is_dead (heap s x)) eqn:Ex.
    + set (s1 := mkSim _ _). destruct (IH s1) as [Hc Hd].
      rewrite Hc, Hd. subst s1.
      cbn [heap engine _play_death_sound _play_collision_sound].
      split; [reflexivity|]. rewrite orb_true_r. reflexivity.
    + destruct (IH s) as [Hc Hd]. rewrite Hc, Hd. split; reflexivity.
Qed.

(** X26. The sounds of a tick.  From a state of the engine whose sound
    flags are down (as they are at the start and after every tick), a tick
    plays the death sound exactly when the group of the live animals loses
    a member in it, and the collision sound exactly when one of the
    collisions found at its start is between a hunter and its prey. *)
Theorem tick_sounds (s : Sim) :
  (forall x, set_order x ≡ₚ elements x) ->
  engine_invariant s ->
  _play_death_sound (engine s) = false ->
  _play_collision_sound (engine s) = false ->
  exists s' completed death collision,
    tick collide_circle rect_coord set_order s
      = (s', Ok (completed, (death, collision))) /\
    (death = true <->
     exists a, a ∈ live_animals (engine s) /\ a ∉ live_animals (engine s')) /\
    (collision = true <->
     exists c,
       c ∈ find_collisions collide_circle (heap s) (live_animals (engine s)) /\
       (animal2 c ∈ eats (heap s (animal1 c)) \/
        animal1 c ∈ eats (heap s (animal2 c)))).
Proof.
  intros Hord Hinv Hd0 Hc0.
  destruct (tick_phases s Hord Hinv)
    as (s1 & s2 & s3 & s4 & w5 & Hrun & (H1 & H2 & H3 & H4)
        & (Hl2 & _) & (_ & Hlive3 & _ & _) & (_ & Hl4 & _ & _) & _).
  eexists _, _, _, _. split; [exact Hrun|]. cbn [engine live_animals].
  destruct (collisions_loop_flags
              (find_collisions collide_circle (heap s) (live_animals (engine s))) s)
    as (s1' & H1' & _ & Hd1 & Hc1).
  change (collisions_phase collide_circle rect_coord s = (s1', Ok tt)) in H1'.
  rewrite H1 in H1'. injection H1' as <-.
  pose proof (wall_loop_keeps_engine (live_animals (engine s1))
                (GameBoard.init (screen (engine s))) s1) as He2.
  change (engine (fst (wall_collisions_phase rect_coord
                         (GameBoard.init (screen (engine s))) s1)) = engine s1) in He2.
  rewrite H2 in He2. cbn [fst] in He2.
  pose proof (death_loop_flags (live_animals (engine s2)) s2) as Hf3.
  cbv zeta in Hf3. rewrite death_phase_run in H3. rewrite H3 in Hf3.
  cbn [fst] in Hf3. destruct Hf3 as [Hc3 Hd3].
  pose proof (removal_loop_exact (dying_animals (engine s3)) s3) as Hrem.
  cbv zeta in Hrem. destruct Hrem as (s4' & H4' & _ & _ & Hd4 & Hc4 & _).
  change (removal_phase s3 = (s4', Ok tt)) in H4'.
  rewrite H4 in H4'. injection H4' as <-.
  assert (Hd2 : _play_death_sound (engine s2) = _play_death_sound (engine s1))
    by (rewrite He2; reflexivity).
  assert (Hc2 : _play_collision_sound (engine s2) = _play_collision_sound (engine s1))
    by (rewrite He2; reflexivity).
  rewrite Hd4, Hd3, Hc4, Hc3, Hd2, Hc2, Hd1, Hc1, Hd0, Hc0. cbn [orb].
  split.
  - rewrite existsb_exists. split.
    + intros (a & Ha & Hdead). apply list_elem_of_In in Ha. exists a.
      split; [rewrite <- Hl2; exact Ha|].
      rewrite Hl4. intros Hin. apply Hlive3 in Hin as [_ Hal]. congruence.
    + intros (a & Ha & Hgone). exists a. rewrite <- Hl2 in Ha.
      split; [apply list_elem_of_In; exact Ha|].
      destruct (is_dead (heap s2 a)) eqn:E; [reflexivity|].
      exfalso. apply Hgone. rewrite Hl4. apply Hlive3. split; assumption.
  - rewrite existsb_exists. unfold animals_were_injured, wants_to_eat. split.
    + intros (c & Hc & Hinj). apply list_elem_of_In in Hc. exists c.
      split; [exact Hc|]. apply orb_true_iff in Hinj as [Hinj|Hinj];
        apply bool_decide_eq_true in Hinj; tauto.
    + intros (c & Hc & Hinj). exists c. split; [apply list_elem_of_In; exact Hc|].
      apply orb_true_iff. destruct Hinj as [Hinj|Hinj];
        [left|right]; apply bool_decide_eq_true; exact Hinj.
Qed.
End Facts.

(** * Instances

    The statements above at concrete inputs. *)

(** ** Damage *)

(** C1 as stated fails: a fresh animal with two health points that takes a
    damage of 3 ends with health -1, which is neither [max(0, 2 - 3)] nor
    within [[0, max_health]]. *)
Lemma reduce_health_below_zero :
  let w' := fst (reduce_health 0 3 fresh_world) in
  health (fresh_world 0%nat) = 2 /\
  health (w' 0%nat) = -1 /\
  health (w' 0%nat) <> Rmax 0 (health (fresh_world 0%nat) - 3) /\
  ~ (0 <= health (w' 0%nat) <= max_health (w' 0%nat)).
Proof.
  cbv zeta. rewrite reduce_health_run. cbn [fst]. rewrite fn_lookup_insert.
  rewrite health_with_health.
  change (health (fresh_world 0%nat)) with 2.
  split; [reflexivity|]. split; [lra|]. split.
  - rewrite Rmax_left by lra. lra.
  - intros [H _]. lra.
Qed.

(** Damage 1 applied twice to an animal with two health points. *)
Lemma reduce_health_subtracts_witness :
  Forall (fun amount => 0 <= amount) [1; 1] /\
  health (fresh_world 0%nat) <= max_health (fresh_world 0%nat) /\
  health (fst (for_each [1; 1] (reduce_health 0) fresh_world) 0%nat)
    = health (fresh_world 0%nat) - total [1; 1].
Proof.
  assert (H1 : Forall (fun amount => 0 <= amount) [1; 1])
    by (repeat constructor; lra).
  assert (H2 : health (fresh_world 0%nat) <= max_health (fresh_world 0%nat))
    by (change (2 <= 2); lra).
  split; [exact H1|]. split; [exact H2|].
  exact (proj1 (proj2 (reduce_health_subtracts fresh_world 0%nat [1; 1] H1 H2))).
Defined.

(** ** The prey relation *)

Lemma also_likes_to_eat_not_atomic_witness :
  (0%nat ∉ [1%nat; 2%nat]) /\
  snd (also_likes_to_eat 0 ([1; 2] ++ 0 :: [3])%nat fresh_world)
    = Raise (ValueError "Animals shouldn't want to eat themselves!") /\
  eats (fst (also_likes_to_eat 0 ([1; 2] ++ 0 :: [3])%nat fresh_world) 0%nat)
    = eats (fresh_world 0%nat) ∪ list_to_set [1%nat; 2%nat].
Proof.
  assert (H : 0%nat ∉ [1%nat; 2%nat]).
  { intros Hin. apply elem_of_cons in Hin as [Hin|Hin]; [discriminate|].
    apply elem_of_cons in Hin as [Hin|Hin]; [discriminate|].
    apply elem_of_nil in Hin. exact Hin. }
  split; [exact H|].
  destruct (also_likes_to_eat_not_atomic fresh_world 0%nat [1; 2]%nat [3%nat] H)
    as (Hr & He & _).
  split; [exact Hr|exact He].
Defined.

Lemma also_likes_to_eat_rejects_self_witness :
  0%nat ∈ [1%nat; 0%nat] /\
  snd (also_likes_to_eat 0 [1; 0]%nat fresh_world)
    = Raise (ValueError "Animals shouldn't want to eat themselves!") /\
  0%nat ∉ eats (fst (also_likes_to_eat 0 [1; 0]%nat fresh_world) 0%nat).
Proof.
  assert (H : 0%nat ∈ [1%nat; 0%nat]) by (right; left).
  split; [exact H|].
  destruct (also_likes_to_eat_rejects_self fresh_world 0%nat [1; 0]%nat) as [Hr Hn].
  split; [exact (Hr H)|]. apply Hn. apply not_elem_of_empty.
Defined.

(** ** The walls *)

Lemma wall_reflection_witness :
  ("top"%string, top_wall)
    ∈ GameBoard.walls (GameBoard.init (mkScreen 600 600)) /\
  snd (collide_animal_into_wall truncate_coord 0 top_wall wall_test_world) = Ok tt /\
  fst (_velocity
         (fst (collide_animal_into_wall truncate_coord 0 top_wall wall_test_world)
            0%nat)) = -10 /\
  Rabs (snd (_velocity
          (fst (collide_animal_into_wall truncate_coord 0 top_wall wall_test_world)
             0%nat)) - 10) <= 1 / 10 ^ 13.
Proof.
  assert (H : ("top"%string, top_wall)
                ∈ GameBoard.walls (GameBoard.init (mkScreen 600 600))) by left.
  split; [exact H|].
  destruct (wall_reflection truncate_coord (mkScreen 600 600) "top" top_wall
              0%nat wall_test_world H) as (Hok & _ & _ & _ & Hex).
  split; [exact Hok|]. apply Hex; reflexivity.
Defined.

(** ** The rear-end collision *)

(** Evaluation of the integer expressions under [IZR]. *)
Ltac eval_IZR :=
  repeat match goal with
    | |- context [IZR ?z] =>
        let z' := eval vm_compute in z in
        progress change (IZR z) with (IZR z')
    end.

Example rear_end_collisions :
  find_collisions circles_touch rear_end_world [0%nat; 1%nat] = [mkCollision 0 1].
Proof. reflexivity. Qed.

Lemma rear_end_distance : distance_to victim hunter = 6.
Proof.
  unfold distance_to, vector_to, of_Z. simpl. eval_IZR.
  apply norm_x_axis. lra.
Qed.

Lemma rear_end_direction : normalized_vector_to victim hunter = Ok (1, 0).
Proof.
  unfold normalized_vector_to. rewrite rear_end_distance.
  destruct (Req_dec_T 6 0) as [E|_]; [lra|].
  unfold vector_to, of_Z, div. simpl. eval_IZR. f_equal. f_equal; field.
Qed.

Lemma collide_rear_end : collide (1, 0) (20, 0) (10, 0) 1 1 = Ok ((10, 0), (20, 0)).
Proof.
  assert (Hn : norm (1, 0) = 1) by (apply norm_x_axis; lra).
  rewrite collide_closed_form by (rewrite Hn; lra).
  cbv zeta. simpl fst. simpl snd. rewrite Hn, Rabs_R0.
  unfold dot. simpl. f_equal. f_equal; f_equal; field.
Qed.

Lemma snap_victim :
  snap_to_grid_in_direction
    (sub (of_Z (position victim)) (div (scale (1, 0) 2) 2)) (neg (1, 0))
  = (IZR 99, IZR 100).
Proof.
  unfold snap_to_grid_in_direction, sub, div, scale, neg, of_Z. simpl.
  destruct (Rlt_dec 0 (- (1))) as [N|_]; [lra|].
  destruct (Rlt_dec 0 (- 0)) as [N|_]; [lra|].
  replace (100 - 1 * 2 / 2) with (IZR 99) by lra.
  replace (100 - 0 * 2 / 2) with (IZR 100) by lra.
  rewrite !np_floor_IZR. reflexivity.
Qed.

Lemma snap_hunter :
  snap_to_grid_in_direction
    (add (of_Z (position hunter)) (div (scale (1, 0) 2) 2)) (1, 0)
  = (IZR 107, IZR 100).
Proof.
  unfold snap_to_grid_in_direction, add, div, scale, of_Z. simpl.
  destruct (Rlt_dec 0 1) as [_|N]; [|lra].
  destruct (Rlt_dec 0 0) as [N|_]; [lra|].
  replace (106 + 1 * 2 / 2) with (IZR 107) by lra.
  replace (100 + 0 * 2 / 2) with (IZR 100) by lra.
  rewrite np_ceil_IZR, np_floor_IZR. reflexivity.
Qed.

Lemma collide_animals_rear_end :
  exists w1,
    collide_animals truncate_coord 0 1 rear_end_world = (w1, Ok tt) /\
    w1 0%nat = victim_after_collision /\
    w1 1%nat = hunter_after_collision.
Proof.
  unfold collide_animals, bind, get, lift_result. cbn beta iota.
  change (rear_end_world 0%nat) with victim.
  change (rear_end_world 1%nat) with hunter.
  rewrite rear_end_distance, rear_end_direction.
  destruct (Req_dec_T 6 0) as [E|_]; [lra|].
  cbn beta iota.
  change (radius victim + radius hunter)%Z with 8%Z.
  destruct (Rlt_dec 6 8) as [_|N]; [|lra].
  replace (8 - 6) with (IZR 2) by lra.
  rewrite np_ceil_IZR, py_int_IZR.
  rewrite snap_victim, snap_hunter, !set_position_run. cbn beta iota.
  unfold truncate_coord. cbn [fst snd]. rewrite !py_int_IZR.
  set (w1 := <[1%nat := _]> (<[0%nat := _]> rear_end_world)).
  assert (H0 : w1 0%nat = with_rect_center (99, 100)%Z victim) by reflexivity.
  assert (H1 : w1 1%nat = with_rect_center (107, 100)%Z hunter) by reflexivity.
  rewrite H0, H1.
  change (_velocity (with_rect_center (99, 100)%Z victim)) with (20, 0).
  change (_velocity (with_rect_center (107, 100)%Z hunter)) with (10, 0).
  change (mass (with_rect_center (99, 100)%Z victim)) with 1.
  change (mass (with_rect_center (107, 100)%Z hunter)) with 1.
  rewrite collide_rear_end. cbn beta iota. cbn [fst snd].
  rewrite set_velocity_run. cbn beta iota. rewrite set_velocity_run.
  eexists. split; [reflexivity|].
  rewrite fn_lookup_insert, (fn_lookup_insert_ne _ 1%nat 0%nat) by discriminate.
  rewrite fn_lookup_insert, (fn_lookup_insert_ne _ 0%nat 1%nat) by discriminate.
  rewrite H0, H1.
  assert (Hv : speed (with_rect_center (99, 100)%Z victim) = 20)
    by (apply norm_x_axis; lra).
  assert (Hh : speed (with_rect_center (107, 100)%Z hunter) = 10)
    by (apply norm_x_axis; lra).
  rewrite Hv, Hh.
  change (max_speed (with_rect_center (99, 100)%Z victim)) with 50.
  change (max_speed (with_rect_center (107, 100)%Z hunter)) with 50.
  destruct (Rlt_dec 50 20) as [N|_]; [lra|].
  destruct (Rlt_dec 50 10) as [N|_]; [lra|].
  split; reflexivity.
Qed.

Lemma injure_rear_end (w1 : World) :
  w1 0%nat = victim_after_collision ->
  w1 1%nat = hunter_after_collision ->
  injure_animals_if_prey (mkCollision 0 1) w1
    = (<[0%nat := with_health (1 - 1) victim_after_collision]> w1, Ok tt).
Proof.
  intros Hv Hh. unfold injure_animals_if_prey, bind, get. cbn beta iota.
  cbn [animal1 animal2]. rewrite Hv.
  change (wants_to_eat victim_after_collision 1) with false. cbn iota.
  unfold ret at 1. cbn beta iota. rewrite Hh.
  change (wants_to_eat hunter_after_collision 0) with true. cbn iota.
  unfold inflict_damage, bind, get. cbn beta iota.
  rewrite reduce_health_run, Hh, Hv. reflexivity.
Qed.

Lemma rear_end_collisions_phase :
  exists s1,
    collisions_phase circles_touch truncate_coord rear_end = (s1, Ok tt) /\
    heap s1 0%nat = with_health (1 - 1) victim_after_collision /\
    heap s1 1%nat = hunter_after_collision /\
    engine s1 = mkEngine (mkScreen 600 600) [0%nat; 1%nat] [] false true.
Proof.
  unfold collisions_phase, bind, get. cbn beta iota.
  cbn [heap engine live_animals rear_end]. rewrite rear_end_collisions.
  cbn [for_each]. unfold bind. cbn [animal1 animal2].
  destruct collide_animals_rear_end as (w1 & Hrun & Hv & Hh).
  rewrite (on_heap_run _ rear_end _ _ Hrun).
  rewrite (on_heap_run _ (mkSim w1 _) _ _ (injure_rear_end w1 Hv Hh)).
  unfold animals_were_injured. cbn [heap animal1 animal2].
  rewrite fn_lookup_insert, (fn_lookup_insert_ne _ 0%nat 1%nat), Hh by discriminate.
  change (wants_to_eat hunter_after_collision 0) with true.
  rewrite orb_true_r.
  eexists. split; [reflexivity|]. cbn [heap engine].
  rewrite fn_lookup_insert, (fn_lookup_insert_ne _ 0%nat 1%nat) by discriminate.
  split; [reflexivity|]. split; [exact Hh|reflexivity].
Qed.

Lemma victim_inside_walls :
  GameBoard.collided_with_wall (GameBoard.init (mkScreen 600 600))
    (with_health (1 - 1) victim_after_collision) = None.
Proof. reflexivity. Qed.

Lemma hunter_inside_walls :
  GameBoard.collided_with_wall (GameBoard.init (mkScreen 600 600))
    hunter_after_collision = None.
Proof. reflexivity. Qed.

Lemma rear_end_no_wall (s1 : Sim) :
  heap s1 0%nat = with_health (1 - 1) victim_after_collision ->
  heap s1 1%nat = hunter_after_collision ->
  live_animals (engine s1) = [0%nat; 1%nat] ->
  wall_collisions_phase truncate_coord (GameBoard.init (mkScreen 600 600)) s1
    = (s1, Ok tt).
Proof.
  intros H0 H1 Hlive. unfold wall_collisions_phase, bind, get. cbn beta iota.
  rewrite Hlive. cbn [for_each]. unfold bind, get. cbn beta iota.
  rewrite H0, victim_inside_walls. unfold ret at 1. cbn beta iota.
  rewrite H1, hunter_inside_walls. reflexivity.
Qed.

Lemma rear_end_death (s1 : Sim) :
  heap s1 0%nat = with_health (1 - 1) victim_after_collision ->
  heap s1 1%nat = hunter_after_collision ->
  engine s1 = mkEngine (mkScreen 600 600) [0%nat; 1%nat] [] false true ->
  exists s3,
    death_phase s1 = (s3, Ok tt) /\
    live_animals (engine s3) = [1%nat] /\
    dying_animals (engine s3) = [0%nat] /\
    _velocity (heap s3 0%nat) = (200, 0).
Proof.
  intros H0 H1 Heng. unfold death_phase, bind, get. cbn beta iota.
  rewrite Heng. cbn [live_animals for_each]. unfold bind.
  assert (Hdead : is_dead (with_health (1 - 1) victim_after_collision) = true).
  { apply is_dead_iff. rewrite health_with_health. lra. }
  assert (Halive : is_dead hunter_after_collision = false).
  { destruct (is_dead hunter_after_collision) eqn:E; [|reflexivity].
    apply is_dead_iff in E. change (health hunter_after_collision) with 10 in E.
    lra. }
  rewrite kill_if_dead_run, H0, Hdead.
  rewrite kill_if_dead_run. cbn [heap engine].
  rewrite (fn_lookup_insert_ne _ 0%nat 1%nat), H1, Halive by discriminate.
  unfold ret. eexists. split; [reflexivity|]. cbn [heap engine].
  rewrite Heng. split; [reflexivity|]. split; [reflexivity|].
  rewrite fn_lookup_insert. unfold dying_cell, exit_velocity. cbn [_velocity with_velocity].
  assert (Hs : speed (with_health (1 - 1) victim_after_collision) = 10)
    by (apply norm_x_axis; lra).
  rewrite Hs. unfold scale, div. simpl. f_equal; field.
Qed.

(** C6 as stated fails.  In the rear-end collision the collision is
    resolved along the direction [(1, 0)] from the victim to the hunter; the
    victim keeps moving to the right after it, loses its last health point
    and is moved to the dying animals in the same tick with velocity
    [(200, 0)]: towards the animal it collided with, not away from it. *)
Lemma rear_end_death_velocity :
  let gameboard := GameBoard.init (mkScreen 600 600) in
  let phases :=
    bind (collisions_phase circles_touch truncate_coord) (fun _ =>
    bind (wall_collisions_phase truncate_coord gameboard) (fun _ =>
    death_phase)) in
  find_collisions circles_touch (heap rear_end) (live_animals (engine rear_end))
    = [mkCollision 0 1] /\
  normalized_vector_to (heap rear_end 0%nat) (heap rear_end 1%nat) = Ok (1, 0) /\
  snd (phases rear_end) = Ok tt /\
  dying_animals (engine (fst (phases rear_end))) = [0%nat] /\
  _velocity (heap (fst (phases rear_end)) 0%nat) = (200, 0) /\
  0 < inner (_velocity (heap (fst (phases rear_end)) 0%nat)) (1, 0).
Proof.
  cbv zeta. split; [exact rear_end_collisions|]. split; [exact rear_end_direction|].
  destruct rear_end_collisions_phase as (s1 & Hrun1 & H0 & H1 & Heng).
  assert (Hlive : live_animals (engine s1) = [0%nat; 1%nat]) by (rewrite Heng; reflexivity).
  destruct (rear_end_death s1 H0 H1 Heng) as (s3 & Hrun3 & _ & Hdying & Hvel).
  assert (Hphases :
    bind (collisions_phase circles_touch truncate_coord) (fun _ =>
    bind (wall_collisions_phase truncate_coord
            (GameBoard.init (mkScreen 600 600))) (fun _ =>
    death_phase)) rear_end = (s3, Ok tt)).
  { unfold bind at 1. rewrite Hrun1. unfold bind at 1.
    rewrite (rear_end_no_wall s1 H0 H1 Hlive). exact Hrun3. }
  rewrite Hphases. cbn [fst snd].
  split; [reflexivity|]. split; [exact Hdying|]. split; [exact Hvel|].
  rewrite Hvel. unfold inner. simpl. lra.
Qed.

(** ** Iteration orders of a set *)

Lemma increasing_order_perm (s : gset Ident) : increasing_order s ≡ₚ elements s.
Proof. unfold increasing_order. apply merge_sort_Permutation. Qed.

Lemma decreasing_order_perm (s : gset Ident) : decreasing_order s ≡ₚ elements s.
Proof.
  unfold decreasing_order. rewrite reverse_Permutation.
  apply merge_sort_Permutation.
Qed.

(** ** Two prey at the same distance *)

Lemma tie_distance_a : distance_to (tie_world 0%nat) (tie_world 1%nat) = 5.
Proof.
  change (tie_world 0%nat) with chaser. change (tie_world 1%nat) with prey_a.
  unfold distance_to, vector_to, of_Z, norm. simpl. eval_IZR.
  replace (3 * 3 + 4 * 4) with (5 * 5) by lra. apply sqrt_square. lra.
Qed.

Lemma tie_distance_b : distance_to (tie_world 0%nat) (tie_world 2%nat) = 5.
Proof.
  change (tie_world 0%nat) with chaser. change (tie_world 2%nat) with prey_b.
  unfold distance_to, vector_to, of_Z, norm. simpl. eval_IZR.
  replace (4 * 4 + 3 * 3) with (5 * 5) by lra. apply sqrt_square. lra.
Qed.

Lemma chaser_alive : is_dead (tie_world 0%nat) = false.
Proof.
  destruct (is_dead (tie_world 0%nat)) eqn:E; [|reflexivity].
  apply is_dead_iff in E. change (health (tie_world 0%nat)) with 10 in E. lra.
Qed.

(** C5 as stated fails.  When the prey set is iterated by decreasing
    identifier, the chaser focuses on animal 2, although animal 1 is as near
    and comes first in the population [[0; 1; 2]]. *)
Lemma focus_follows_set_order :
  (forall s, decreasing_order s ≡ₚ elements s) /\
  distance_to (tie_world 0%nat) (tie_world 1%nat)
    = distance_to (tie_world 0%nat) (tie_world 2%nat) /\
  _subject_animal
    (fst (update_subject_animal decreasing_order 0 [0; 1; 2]%nat tie_world) 0%nat)
    = Some 2%nat /\
  focus_by_population_order tie_world 0 [0; 1; 2]%nat = Some 1%nat.
Proof.
  split; [exact decreasing_order_perm|].
  split; [rewrite tie_distance_a, tie_distance_b; reflexivity|]. split.
  - rewrite update_subject_animal_run. rewrite chaser_alive.
    replace (decreasing_order (eats (tie_world 0%nat) ∩ list_to_set [0; 1; 2]%nat))
      with [2%nat; 1%nat] by (vm_compute; reflexivity).
    cbn [first_nearest]. rewrite tie_distance_a, tie_distance_b.
    destruct (Rle_dec 5 5) as [_|N]; [|lra].
    set (w2 := <[0%nat := _]> tie_world).
    destruct (set_subject_animal_prey 0 2 w2) as [force Hrun].
    { subst w2. rewrite fn_lookup_insert. vm_compute. reflexivity. }
    rewrite Hrun. cbn [fst]. rewrite fn_lookup_insert. reflexivity.
  - unfold focus_by_population_order. rewrite chaser_alive.
    replace (filter (fun x => x ∈ eats (tie_world 0%nat)) [0; 1; 2]%nat)
      with [1%nat; 2%nat] by (vm_compute; reflexivity).
    cbn [first_nearest]. rewrite tie_distance_a, tie_distance_b.
    destruct (Rle_dec 5 5) as [_|N]; [reflexivity|lra].
Qed.

(** With the prey set iterated by increasing identifier the focus is a
    nearest member of the pruned prey set. *)
Lemma update_subject_animal_focus_witness :
  (forall s, increasing_order s ≡ₚ elements s) /\
  snd (update_subject_animal increasing_order 0 [0; 1; 2]%nat tie_world) = Ok tt /\
  eats (fst (update_subject_animal increasing_order 0 [0; 1; 2]%nat tie_world) 0%nat)
    = eats (tie_world 0%nat) ∩ list_to_set [0; 1; 2]%nat.
Proof.
  split; [exact increasing_order_perm|].
  destruct (update_subject_animal_focus increasing_order tie_world 0%nat
              [0; 1; 2]%nat increasing_order_perm) as (Hok & Heats & _).
  split; [exact Hok|exact Heats].
Defined.

(** ** The death phase and the termination predicate after the collision *)

Lemma death_phase_transition_witness :
  NoDup (live_animals (engine before_death)) /\
  speed (heap before_death 0%nat) <> 0 /\
  exists s',
    death_phase before_death = (s', Ok tt) /\
    (0%nat ∉ live_animals (engine s')) /\
    0%nat ∈ dying_animals (engine s') /\
    _velocity (heap s' 0%nat)
      = scale (_velocity (heap before_death 0%nat))
          (200 / speed (heap before_death 0%nat)) /\
    norm (_velocity (heap s' 0%nat)) = 200.
Proof.
  assert (Hnd : NoDup (live_animals (engine before_death))).
  { apply NoDup_cons. split.
    - intros Hin. apply list_elem_of_singleton in Hin. discriminate.
    - apply NoDup_singleton. }
  assert (Hspeed : speed (heap before_death 0%nat) <> 0).
  { replace (speed (heap before_death 0%nat)) with 10; [lra|].
    symmetry. apply norm_x_axis. lra. }
  split; [exact Hnd|]. split; [exact Hspeed|].
  destruct (death_phase_transition before_death Hnd) as (s' & Hrun & Hdead & _).
  exists s'. split; [exact Hrun|].
  assert (Hlive : 0%nat ∈ live_animals (engine before_death)) by left.
  assert (Hhealth : health (heap before_death 0%nat) <= 0)
    by (change (0 <= 0); lra).
  destruct (Hdead 0%nat Hlive Hhealth) as (H1 & H2 & H3).
  destruct (H3 Hspeed) as (H4 & _ & H5).
  split; [exact H1|]. split; [exact H2|]. split; [exact H4|exact H5].
Defined.

Lemma tick_termination_predicate_witness :
  (forall x, increasing_order x ≡ₚ elements x) /\
  engine_invariant after_death /\
  exists s' completed sounds,
    tick circles_touch truncate_coord increasing_order after_death
      = (s', Ok (completed, sounds)) /\
    engine_invariant s' /\
    completed = simulation_completed (heap s') (all_animals (engine s')) /\
    (completed = true <->
     all_animals (engine s') = [] \/
     forall a, a ∈ live_animals (engine s') -> _subject_animal (heap s' a) = None).
Proof.
  assert (Hinv : engine_invariant after_death).
  { split; [apply NoDup_singleton|]. split; [apply NoDup_singleton|]. split.
    - intros a Ha Hin. apply list_elem_of_singleton in Ha, Hin. congruence.
    - intros d Hd. apply list_elem_of_singleton in Hd. subst d.
      apply is_dead_iff. change (0 <= 0). lra. }
  split; [exact increasing_order_perm|]. split; [exact Hinv|].
  exact (tick_termination_predicate circles_touch truncate_coord increasing_order
           after_death increasing_order_perm Hinv).
Defined.

(** ** Further instances *)

(** The rear-end collision is the only pair found, and it is found once. *)
Example find_collisions_rear_end :
  collision_animals (find_collisions circles_touch rear_end_world [0; 1]%nat)
    = [0%nat; 1%nat].
Proof. reflexivity. Qed.

(** An animal above its speed cap brakes against its old velocity. *)
Lemma set_velocity_brake_witness :
  let fast := <[0%nat := with_velocity (60, 0) (fresh_world 0%nat)]> fresh_world in
  max_speed (fast 0%nat) < speed (fast 0%nat) /\
  speed (fast 0%nat) <> 0 /\
  slow_down_force (fst (set_velocity 0 (1, 1) fast) 0%nat) = (-20, 0) /\
  _velocity (fst (set_velocity 0 (1, 1) fast) 0%nat) = (1, 1).
Proof.
  cbv zeta. set (fast := <[0%nat := _]> fresh_world).
  destruct (set_velocity_brake fast 0%nat (1, 1)) as (_ & Hv & Hfast & _).
  assert (Hs : speed (fast 0%nat) = 60) by (apply norm_x_axis; lra).
  assert (Hcap : max_speed (fast 0%nat) < speed (fast 0%nat))
    by (rewrite Hs; change (max_speed (fast 0%nat)) with 50; lra).
  assert (Hne : speed (fast 0%nat) <> 0) by (rewrite Hs; lra).
  split; [exact Hcap|]. split; [exact Hne|]. split; [|exact Hv].
  destruct (Hfast Hcap Hne) as [-> _].
  rewrite Hs. unfold scale, neg, div. simpl. f_equal; field.
Defined.

(** ** The cases of [test_collision] *)

Example collide_along_x :
  collide (1, 0) (1, 0) (-1, 0) 1 1 = Ok ((-1, 0), (1, 0)).
Proof.
  assert (Hn : norm (1, 0) = 1) by (apply norm_x_axis; lra).
  rewrite collide_closed_form by (rewrite Hn; lra).
  cbv zeta. simpl fst. simpl snd. rewrite Hn, Rabs_R0.
  unfold dot. simpl. f_equal. f_equal; f_equal; field.
Qed.

Example collide_one_at_rest :
  collide (1, 0) (1, 0) (0, 0) 1 1 = Ok ((0, 0), (1, 0)).
Proof.
  assert (Hn : norm (1, 0) = 1) by (apply norm_x_axis; lra).
  rewrite collide_closed_form by (rewrite Hn; lra).
  cbv zeta. simpl fst. simpl snd. rewrite Hn, Rabs_R0.
  unfold dot. simpl. f_equal. f_equal; f_equal; field.
Qed.

Example collide_on_diagonal :
  collide (1, 1) (1, 1) (-1, -1) 1 1 = Ok ((-1, -1), (1, 1)).
Proof.
  assert (Hs : norm (1, 1) * norm (1, 1) = 2).
  { rewrite norm_sqr. simpl. lra. }
  assert (Hn : norm (1, 1) <> 0) by (intros E; rewrite E in Hs; lra).
  rewrite collide_closed_form by exact Hn.
  cbv zeta. simpl fst. simpl snd. rewrite Rabs_R1.
  set (r := norm (1, 1)) in *.
  unfold dot. simpl. f_equal.
  f_equal; f_equal; field_simplify_eq; try exact Hn; nra.
Qed.

(** The case of [test_find_collisions]: two animals at the same place
    collide, two animals far apart do not. *)
Example find_collisions_same_place :
  let w := <[0%nat := with_rect_center (50, 50)%Z (fresh_world 0%nat)]>
             (<[1%nat := with_rect_center (50, 50)%Z (fresh_world 1%nat)]>
                fresh_world) in
  find_collisions circles_touch w [0; 1]%nat = [mkCollision 0 1].
Proof. reflexivity. Qed.

Example find_collisions_apart :
  let w := <[0%nat := with_rect_center (30, 30)%Z (fresh_world 0%nat)]>
             (<[1%nat := with_rect_center (50, 50)%Z (fresh_world 1%nat)]>
                fresh_world) in
  find_collisions circles_touch w [0; 1]%nat = [].
Proof. reflexivity. Qed.

(** * Instances of the further properties *)

Lemma x_axis_not_zero : (1, 0) <> ((0, 0) : Vec).
Proof. intros E. injection E as E1. lra. Qed.

(** Two equal masses meeting head on along the x-axis. *)
Lemma collide_conserves_momentum_and_energy_witness :
  (1, 0) <> ((0, 0) : Vec) /\ 1 + 1 <> 0 /\
  exists u1 u2,
    collide (1, 0) (1, 0) (-1, 0) 1 1 = Ok (u1, u2) /\
    add (scale u1 1) (scale u2 1) = add (scale (1, 0) 1) (scale (-1, 0) 1).
Proof.
  split; [exact x_axis_not_zero|]. split; [lra|].
  destruct (collide_conserves_momentum_and_energy (1, 0) (1, 0) (-1, 0) 1 1
              x_axis_not_zero ltac:(lra)) as (u1 & u2 & Hrun & Hp & _).
  exists u1, u2. split; [exact Hrun|exact Hp].
Defined.

Lemma collide_reverses_relative_velocity_witness :
  (1, 0) <> ((0, 0) : Vec) /\ 1 + 1 <> 0 /\
  exists u1 u2,
    collide (1, 0) (1, 0) (-1, 0) 1 1 = Ok (u1, u2) /\
    norm (sub u1 u2) = norm (sub (1, 0) (-1, 0)).
Proof.
  split; [exact x_axis_not_zero|]. split; [lra|].
  destruct (collide_reverses_relative_velocity (1, 0) (1, 0) (-1, 0) 1 1
              x_axis_not_zero ltac:(lra)) as (u1 & u2 & Hrun & _ & _ & Hn).
  exists u1, u2. split; [exact Hrun|exact Hn].
Defined.

(** In the rear-end collision the hunter bites the victim, and the victim
    does not bite back. *)
Lemma injure_animals_if_prey_effect_witness :
  animal1 (mkCollision 0 1) <> animal2 (mkCollision 0 1) /\
  snd (injure_animals_if_prey (mkCollision 0 1) rear_end_world) = Ok tt /\
  fst (injure_animals_if_prey (mkCollision 0 1) rear_end_world) 1%nat
    = with_health (health hunter - 0) hunter.
Proof.
  assert (H : animal1 (mkCollision 0 1) <> animal2 (mkCollision 0 1))
    by (cbn; lia).
  split; [exact H|].
  destruct (injure_animals_if_prey_effect rear_end_world (mkCollision 0 1) H)
    as (Hok & _ & Hb & _).
  split; [exact Hok|exact Hb].
Defined.

(** The victim of the rear-end collision is within the walls of a 600x600
    board, hence on the screen. *)
Lemma inside_walls_on_screen_witness :
  (0 <= radius victim)%Z /\
  (radius victim <= width (rect victim))%Z /\
  (radius victim <= height (rect victim))%Z /\
  GameBoard.collided_with_wall (GameBoard.init (mkScreen 600 600)) victim = None /\
  off_screen victim (mkScreen 600 600) = false.
Proof.
  assert (H1 : (0 <= radius victim)%Z) by (cbn; lia).
  assert (H2 : (radius victim <= width (rect victim))%Z) by (cbn; lia).
  assert (H3 : (radius victim <= height (rect victim))%Z) by (cbn; lia).
  assert (H4 : GameBoard.collided_with_wall (GameBoard.init (mkScreen 600 600))
                 victim = None) by reflexivity.
  split; [exact H1|]. split; [exact H2|]. split; [exact H3|]. split; [exact H4|].
  exact (inside_walls_on_screen (mkScreen 600 600) victim H1 H2 H3 H4).
Defined.

Lemma truncate_coord_whole (z : Z) : truncate_coord (IZR z) = z.
Proof. apply py_int_IZR. Qed.

Lemma rear_end_positions : position (rear_end_world 0%nat) <> position (rear_end_world 1%nat).
Proof. change ((100, 100)%Z <> (106, 100)%Z). intros E. discriminate E. Qed.

(** The victim and the hunter of the rear-end collision, 6 apart with radii
    4 and 4, are at least 8 apart afterwards. *)
Lemma collide_animals_pushes_apart_witness :
  (forall z, truncate_coord (IZR z) = z) /\
  position (rear_end_world 0%nat) <> position (rear_end_world 1%nat) /\
  distance_to (rear_end_world 0%nat) (rear_end_world 1%nat)
    < IZR (radius (rear_end_world 0%nat) + radius (rear_end_world 1%nat)) /\
  IZR (radius (rear_end_world 0%nat) + radius (rear_end_world 1%nat))
    <= distance_to
         (fst (collide_animals truncate_coord 0 1 rear_end_world) 0%nat)
         (fst (collide_animals truncate_coord 0 1 rear_end_world) 1%nat).
Proof.
  split; [exact truncate_coord_whole|]. split; [exact rear_end_positions|].
  assert (Hclose : distance_to (rear_end_world 0%nat) (rear_end_world 1%nat)
                   < IZR (radius (rear_end_world 0%nat)
                          + radius (rear_end_world 1%nat))).
  { change (distance_to victim hunter < IZR (4 + 4)).
    rewrite rear_end_distance. change (IZR (4 + 4)) with 8. lra. }
  split; [exact Hclose|].
  exact (proj1 (collide_animals_pushes_apart truncate_coord 0%nat 1%nat
                  rear_end_world truncate_coord_whole rear_end_positions) Hclose).
Defined.

(** The animal of the wall test, at distance -29 from the top wall, is put
    back on its line. *)
Lemma wall_puts_animal_back_on_line_witness :
  (forall z, truncate_coord (IZR z) = z) /\
  ("top"%string, top_wall)
    ∈ GameBoard.walls (GameBoard.init (mkScreen 600 600)) /\
  (Wall.distance_to top_wall (wall_test_world 0%nat) < 0)%Z /\
  Wall.distance_to top_wall
    (fst (collide_animal_into_wall truncate_coord 0 top_wall wall_test_world) 0%nat)
    = 0%Z.
Proof.
  assert (H : ("top"%string, top_wall)
                ∈ GameBoard.walls (GameBoard.init (mkScreen 600 600))) by left.
  assert (Hneg : (Wall.distance_to top_wall (wall_test_world 0%nat) < 0)%Z)
    by (change (2 + 4 - 35 < 0)%Z; lia).
  split; [exact truncate_coord_whole|]. split; [exact H|]. split; [exact Hneg|].
  exact (proj1 (wall_puts_animal_back_on_line truncate_coord (mkScreen 600 600)
                  "top" top_wall 0%nat wall_test_world truncate_coord_whole H) Hneg).
Defined.

Lemma circles_touch_sym (a b : Animal) : circles_touch a b = circles_touch b a.
Proof. unfold circles_touch. cbv zeta. f_equal; ring. Qed.

(** The rear-end collision is the only pair of the group, and it is found:
    no two animals of the group are left without a partner. *)
Lemma find_collisions_is_maximal_witness :
  (forall a b, circles_touch a b = circles_touch b a) /\
  (find_collisions circles_touch rear_end_world [0; 1]%nat = [] <->
   forall x y, x ∈ [0; 1]%nat -> y ∈ [0; 1]%nat -> x <> y ->
     circles_touch (rear_end_world x) (rear_end_world y) = false).
Proof.
  split; [exact circles_touch_sym|].
  exact (proj2 (find_collisions_is_maximal circles_touch rear_end_world
                  [0; 1]%nat circles_touch_sym)).
Defined.

Lemma after_death_engine_invariant : engine_invariant after_death.
Proof.
  split; [apply NoDup_singleton|]. split; [apply NoDup_singleton|]. split.
  - intros a Ha Hin. apply list_elem_of_singleton in Ha, Hin. congruence.
  - intros d Hd. apply list_elem_of_singleton in Hd. subst d.
    apply is_dead_iff. change (0 <= 0). lra.
Qed.

Lemma rear_end_engine_invariant : engine_invariant rear_end.
Proof.
  split; [|split; [apply NoDup_nil_2|split]].
  - apply NoDup_cons. split; [|apply NoDup_singleton].
    intros Hin. apply list_elem_of_singleton in Hin. discriminate.
  - intros a _ Hin. apply elem_of_nil in Hin. exact Hin.
  - intros d Hin. apply elem_of_nil in Hin. contradiction.
Qed.

(** After the rear-end collision: the update of the hunter and of the dying
    victim. *)
Lemma update_phase_relations_witness :
  (forall x, increasing_order x ≡ₚ elements x) /\
  exists w',
    update_phase truncate_coord increasing_order after_death
      = (mkSim w' (engine after_death), Ok tt) /\
    (forall a, health (w' a) = health (heap after_death a)).
Proof.
  split; [exact increasing_order_perm|].
  destruct (update_phase_relations truncate_coord increasing_order after_death
              increasing_order_perm) as (w' & Hrun & _ & Hh & _).
  exists w'. split; [exact Hrun|exact Hh].
Defined.

Lemma after_death_disjoint (a : Ident) :
  a ∈ live_animals (engine after_death) -> a ∉ dying_animals (engine after_death).
Proof.
  intros Ha Hin. apply list_elem_of_singleton in Ha, Hin. congruence.
Qed.

Lemma removal_phase_removes_exactly_witness :
  (forall a, a ∈ live_animals (engine after_death) ->
     a ∉ dying_animals (engine after_death)) /\
  exists s',
    removal_phase after_death = (s', Ok tt) /\
    heap s' = heap after_death /\
    live_animals (engine s') = live_animals (engine after_death).
Proof.
  split; [exact after_death_disjoint|].
  destruct (removal_phase_removes_exactly after_death after_death_disjoint)
    as (s' & Hrun & Hh & Hl & _).
  exists s'. split; [exact Hrun|]. split; [exact Hh|exact Hl].
Defined.

Lemma tick_completed_iff_no_prey_left_witness :
  (forall x, increasing_order x ≡ₚ elements x) /\
  engine_invariant after_death /\
  exists s' completed sounds,
    tick circles_touch truncate_coord increasing_order after_death
      = (s', Ok (completed, sounds)) /\
    (completed = true <->
     forall a, a ∈ live_animals (engine s') -> eats (heap s' a) = ∅).
Proof.
  split; [exact increasing_order_perm|].
  split; [exact after_death_engine_invariant|].
  destruct (tick_completed_iff_no_prey_left circles_touch truncate_coord
              increasing_order after_death increasing_order_perm
              after_death_engine_invariant)
    as (s' & completed & sounds & Hrun & _ & _ & Hiff).
  exists s', completed, sounds. split; [exact Hrun|exact Hiff].
Defined.

Lemma tick_life_cycle_witness :
  (forall x, increasing_order x ≡ₚ elements x) /\
  engine_invariant rear_end /\
  exists s' outcome,
    tick circles_touch truncate_coord increasing_order rear_end
      = (s', Ok outcome) /\
    (forall a, a ∈ live_animals (engine s') ->
       a ∈ live_animals (engine rear_end) /\ is_dead (heap s' a) = false).
Proof.
  split; [exact increasing_order_perm|].
  split; [exact rear_end_engine_invariant|].
  destruct (tick_life_cycle circles_touch truncate_coord increasing_order
              rear_end increasing_order_perm rear_end_engine_invariant)
    as (s' & outcome & Hrun & Hlive & _).
  exists s', outcome. split; [exact Hrun|exact Hlive].
Defined.

Lemma tick_sounds_witness :
  (forall x, increasing_order x ≡ₚ elements x) /\
  engine_invariant rear_end /\
  _play_death_sound (engine rear_end) = false /\
  _play_collision_sound (engine rear_end) = false /\
  exists s' completed death collision,
    tick circles_touch truncate_coord increasing_order rear_end
      = (s', Ok (completed, (death, collision))) /\
    (death = true <->
     exists a, a ∈ live_animals (engine rear_end) /\ a ∉ live_animals (engine s')).
Proof.
  split; [exact increasing_order_perm|].
  split; [exact rear_end_engine_invariant|].
  split; [reflexivity|]. split; [reflexivity|].
  destruct (tick_sounds circles_touch truncate_coord increasing_order rear_end
              increasing_order_perm rear_end_engine_invariant eq_refl eq_refl)
    as (s' & completed & death & collision & Hrun & Hdeath & _).
  exists s', completed, death, collision. split; [exact Hrun|exact Hdeath].
Defined.

(** A fresh animal, of mass one, at rest and without forces. *)
Lemma update_position_euler_step_witness :
  mass (fresh_world 0%nat) <> 0 /\
  snd (update_position truncate_coord 0 time_step fresh_world) = Ok tt /\
  position (fst (update_position truncate_coord 0 time_step fresh_world) 0%nat)
    = position (fresh_world 0%nat).
Proof.
  assert (Hm : mass (fresh_world 0%nat) <> 0) by (change (1 <> 0); lra).
  split; [exact Hm|].
  destruct (update_position_euler_step truncate_coord 0%nat time_step fresh_world Hm)
    as (Hok & _ & _ & _ & _ & _ & Hrest).
  split; [exact Hok|].
  exact (proj1 (Hrest truncate_coord_whole eq_refl eq_refl eq_refl)).
Defined.
